(** * m3u-stream-merger-proxy: load balancer, HLS writer, slug codec

    A shallow embedding of the stream-serving code of the repository:
    - [proxy/loadbalancer/instance.go]     (module [LoadBalancer]),
    - the HLS writer of package [buffer]   (module [HLS]),
    - [mp4_handler.go]                     (module [MP4]),
    - the slug codec of package [store]    (module [Slug]),
    - the sorter of package [sourceproc]   (module [Sorter]),
    - [utils/fingerprint.go]               (module [Fingerprint]).

    The first part holds the definitions, module by module; the second part,
    from "Properties" on, the statements and their proofs.

    Go code that mutates a session, issues HTTP requests or waits is written
    in explicit state-passing style: every function takes the world before
    and returns its result together with the world after.  What the outside
    world answers (HTTP responses, context cancellation, the order in which
    Go's runtime ranges over a map) is read from an environment record. *)

From Corelib Require Import SpecFloat.
From Stdlib Require Import ZArith Lia Ascii String DecimalString.
From Stdlib.Strings Require Import Byte.
From stdpp Require Import base option list gmap strings sorting.

Local Open Scope string_scope.
Local Open Scope Z_scope.
Local Open Scope list_scope.

(** ** Go library functions shared by the modules *)

(** [slices.Contains] on a [[]string]. *)
Fixpoint slices_Contains (l : list string) (x : string) : bool :=
  match l with
  | [] => false
  | y :: l' => if String.eqb y x then true else slices_Contains l' x
  end.

(** The body of [insertionSortLessFunc] in Go's [sort] package: the element
    at position [i] is swapped leftwards while it is [less] than its left
    neighbour.  [rp] is the already sorted prefix, last element first. *)
Fixpoint sift {A} (less : A → A → bool) (x : A) (rp : list A) : list A :=
  match rp with
  | [] => [x]
  | y :: rp' => if less x y then y :: sift less x rp' else x :: rp
  end.

Definition insertionSort {A} (less : A → A → bool) (l : list A) : list A :=
  reverse (fold_left (λ rp x, sift less x rp) l []).

(** [sort.Slice]: slices of at most twelve elements are sorted by
    [insertionSort]; longer ones go through pattern-defeating quicksort, of
    which the package promises a sorted result and no stability.  The longer
    case is left to the runtime [pdq]. *)
Definition maxInsertion : nat := 12.

Definition sort_Slice {A} (pdq : (A → A → bool) → list A → list A)
    (less : A → A → bool) (l : list A) : list A :=
  if (length l <=? maxInsertion)%nat then insertionSort less l else pdq less l.

(** A descending sort by a priority: its comparator, and the two orders the
    statements about it use. *)
Definition higher {A} (prio : A → Z) (a b : A) : bool := prio b <? prio a.
Definition ascending {A} (prio : A → Z) (a b : A) : Prop := prio a ≤ prio b.
Definition descending {A} (prio : A → Z) (a b : A) : Prop := prio b ≤ prio a.

(** Decimal digits, for [strconv] and [fmt]. *)
Definition isDigit (c : ascii) : bool :=
  let n := nat_of_ascii c in (48 <=? n)%nat && (n <=? 57)%nat.

Fixpoint digitsValue (tok : list ascii) (acc : Z) : option Z :=
  match tok with
  | [] => Some acc
  | c :: tok' =>
      if isDigit c then digitsValue tok' (10 * acc + Z.of_nat (nat_of_ascii c - 48))
      else None
  end.

Definition inInt64 (v : Z) : bool := (- 2 ^ 63 <=? v) && (v <? 2 ^ 63).

(** [strconv.Atoi]: an optional sign and decimal digits, nothing else, the
    value within int; [None] stands for a non-nil error. *)
Definition Atoi (s : string) : option Z :=
  let '(neg, ds) :=
    match s with
    | String c s' =>
        if (nat_of_ascii c =? 43)%nat then (false, s')
        else if (nat_of_ascii c =? 45)%nat then (true, s')
        else (false, s)
    | EmptyString => (false, s)
    end in
  match list_ascii_of_string ds with
  | [] => None
  | tok =>
      match digitsValue tok 0 with
      | Some v => let v := if neg then - v else v in
                  if inInt64 v then Some v else None
      | None => None
      end
  end.

(** [fmt.Sprintf("%d", n)] *)
Definition itoa (n : Z) : string := NilZero.string_of_int (Z.to_int n).

Module LoadBalancer.

(** *** Data *)

(** [store.StreamInfo]: the balancer only reads [Title] and [URLs]. *)
Record StreamInfo := {
  Title : string;
  URLs : gmap string (gmap string string);
}.

(** [*http.Response], as far as the balancer inspects it. *)
Record Response := { StatusCode : Z; Body : string }.

Record LoadBalancerResult := {
  LBResponse : Response;
  URL : string;
  Index : string;
  SubIndex : string;
}.

(** The errors built with [fmt.Errorf] in [instance.go], and
    [context.Canceled]. *)
Inductive error :=
| ErrContextNil | ErrSessionNil | ErrReqNil | ErrMethodEmpty
| ErrInvalidID | ErrFetchingSources
| ErrCancelling                  (* "cancelling load balancer" *)
| ErrExhausted                   (* "error fetching stream: exhausted all streams" *)
| ErrNoURLs | ErrNoValidURLs | ErrSlug
| ErrIndexProviderNil | ErrNoIndexes
| ContextCanceled                (* context.Canceled *)
| ErrNoAvailableStreams
| ErrHTTPClientNil
| ErrAllUrlsFailed.

Inductive result (A : Type) := Ok (a : A) | Err (e : error).
Arguments Ok {A} a.
Arguments Err {A} e.

(** What [httpClient.Do] hands back: an error, a nil response without
    error, or a response. *)
Inductive DoOutcome := DoError | DoNil | DoResp (r : Response).

(** What a run does to the outside, in order. *)
Inductive Event :=
| EvNewRequest (method url : string)   (* http.NewRequestWithContext *)
| EvDo (method url : string)           (* httpClient.Do *)
| EvWait (d : Z).                      (* time.After(backoff.Next()), in ms *)

(** The outside world of one [Balance] call. *)
Record Env := {
  (** does [http.NewRequestWithContext ctx method url] succeed *)
  newRequestOk : string → string → bool;
  (** the answer to the [n]-th call of [httpClient.Do] *)
  doRequest : nat → string → string → DoOutcome;
  (** the order in which the [n]-th [range] over a map yields its entries *)
  rangeOrder : nat → gmap string string → list (string * string);
  (** [sort.Slice] beyond twelve elements *)
  pdqsort : (string → string → bool) → list string → list string;
  (** is [ctx.Done()] ready at the [select] of lap [n]'s [tryAllStreams] *)
  ctxDoneAtTry : nat → bool;
  (** does [ctx.Done()] win the [select] of lap [n]'s backoff wait *)
  ctxDoneInWait : nat → bool;
}.

(** Go ranges over a map in an order of the runtime's choosing: each entry
    once. *)
Definition range_valid (env : Env) : Prop :=
  ∀ n (m : gmap string string), rangeOrder env n m ≡ₚ map_to_list m.

(** What the [sort] package promises of [sort.Slice] with a comparator
    "higher priority first": the slice is rearranged, and no element comes
    before one of higher priority. *)
Definition sort_valid (env : Env) : Prop :=
  ∀ (prio : string → Z) (l : list string),
    pdqsort env (higher prio) l ≡ₚ l ∧
    StronglySorted (descending prio) (pdqsort env (higher prio) l).

(** The session's [TestedIndexes] and the counters of the environment. *)
Record World := {
  TestedIndexes : list string;
  sent : nat;                (* calls of httpClient.Do so far *)
  ranged : nat;              (* range loops over a map started so far *)
  trace : list Event;        (* newest event first *)
}.

Definition emit (e : Event) (w : World) : World :=
  {| TestedIndexes := TestedIndexes w; sent := sent w; ranged := ranged w;
     trace := e :: trace w |}.

(** [session.TestedIndexes = append(session.TestedIndexes, key)] *)
Definition appendTested (key : string) (w : World) : World :=
  {| TestedIndexes := TestedIndexes w ++ [key]; sent := sent w;
     ranged := ranged w; trace := trace w |}.

(** [session.SetTestedIndexes(l)] *)
Definition SetTestedIndexes (l : list string) (w : World) : World :=
  {| TestedIndexes := l; sent := sent w; ranged := ranged w;
     trace := trace w |}.

Definition countDo (w : World) : World :=
  {| TestedIndexes := TestedIndexes w; sent := S (sent w);
     ranged := ranged w; trace := trace w |}.

Definition countRange (w : World) : World :=
  {| TestedIndexes := TestedIndexes w; sent := sent w;
     ranged := S (ranged w); trace := trace w |}.

(** [store.ConcurrencyManager], whose source is not part of the repository
    files: the two methods the balancer calls. *)
Record ConcurrencyManager := {
  CheckConcurrency : string → bool;
  ConcurrencyPriorityValue : string → Z;
}.

(** Modelled from the spec: the manager of section 4.1, with a count of
    active connections and a cap per source.  [CheckConcurrency] is true iff
    the count has reached the cap, [ConcurrencyPriorityValue] is cap minus
    count. *)
Definition specManager (count : gmap string Z) (maxConcurrency : string → Z)
    : ConcurrencyManager :=
  {| CheckConcurrency := λ index,
       maxConcurrency index <=? default 0 (count !! index);
     ConcurrencyPriorityValue := λ index,
       maxConcurrency index - default 0 (count !! index) |}.

Record LBConfig := { MaxRetries : Z }.

Record LoadBalancerInstance := {
  Info : StreamInfo;
  Cm : ConcurrencyManager;
  config : LBConfig;
  httpClient : bool;                           (* false: the client is nil *)
  indexProvider : option (list string);        (* GetM3UIndexes(), None: nil *)
  slugParser : string → option StreamInfo;     (* GetStreamBySlug *)
}.

Definition testedKey (index subIndex : string) : string :=
  index +:+ "|" +:+ subIndex.

(** *** tryStreamUrls *)

(** The body of the [for subIndex, url := range urls] loop for one entry:
    [None] is [continue], [Some r] is [return r, nil]. *)
Definition tryEntry (env : Env) (cm : ConcurrencyManager)
    (method index subIndex url : string) (w : World)
    : option LoadBalancerResult * World :=
  if slices_Contains (TestedIndexes w) (testedKey index subIndex) then (None, w)
  else if CheckConcurrency cm index then (None, w)
  else
    let w1 := emit (EvNewRequest method url) w in
    if negb (newRequestOk env method url) then
      (None, appendTested (testedKey index subIndex) w1)
    else
      let w2 := countDo (emit (EvDo method url) w1) in
      match doRequest env (sent w) method url with
      | DoError => (None, appendTested (testedKey index subIndex) w2)
      | DoNil => (None, appendTested (testedKey index subIndex) w2)
      | DoResp resp =>
          if negb (StatusCode resp =? 200) then
            (None, appendTested (testedKey index subIndex) w2)
          else
            (Some {| LBResponse := resp; URL := url;
                     Index := index; SubIndex := subIndex |}, w2)
      end.

(** The loop over the entries in the order the runtime yields them. *)
Fixpoint tryEntries (env : Env) (cm : ConcurrencyManager)
    (method index : string) (entries : list (string * string)) (w : World)
    : result LoadBalancerResult * World :=
  match entries with
  | [] => (Err ErrAllUrlsFailed, w)
  | (subIndex, url) :: rest =>
      match tryEntry env cm method index subIndex url w with
      | (Some r, w') => (Ok r, w')
      | (None, w') => tryEntries env cm method index rest w'
      end
  end.

Definition tryStreamUrls (env : Env) (inst : LoadBalancerInstance)
    (method index : string) (urls : gmap string string) (w : World)
    : result LoadBalancerResult * World :=
  if negb (httpClient inst) then (Err ErrHTTPClientNil, w)
  else tryEntries env (Cm inst) method index
         (rangeOrder env (ranged w) urls) (countRange w).

(** *** tryAllStreams *)

Definition priorityLess (cm : ConcurrencyManager) (a b : string) : bool :=
  ConcurrencyPriorityValue cm b <? ConcurrencyPriorityValue cm a.

(** [m3uIndexes] after the [sort.Slice] call. *)
Definition sortedIndexes (env : Env) (cm : ConcurrencyManager)
    (m3uIndexes : list string) : list string :=
  sort_Slice (pdqsort env) (priorityLess cm) m3uIndexes.

Fixpoint tryIndexes (env : Env) (inst : LoadBalancerInstance)
    (method : string) (indexes : list string) (w : World)
    : result LoadBalancerResult * World :=
  match indexes with
  | [] => (Err ErrNoAvailableStreams, w)
  | index :: rest =>
      match URLs (Info inst) !! index with
      | None => tryIndexes env inst method rest w
      | Some innerMap =>
          match tryStreamUrls env inst method index innerMap w with
          | (Ok r, w') => (Ok r, w')
          | (Err _, w') => tryIndexes env inst method rest w'
          end
      end
  end.

Definition tryAllStreams (env : Env) (inst : LoadBalancerInstance)
    (ctxDone : bool) (method : string) (w : World)
    : result LoadBalancerResult * World :=
  match indexProvider inst with
  | None => (Err ErrIndexProviderNil, w)
  | Some m3uIndexes =>
      if (length m3uIndexes =? 0)%nat then (Err ErrNoIndexes, w)
      else
        let sorted := sortedIndexes env (Cm inst) m3uIndexes in
        if ctxDone then (Err ContextCanceled, w)
        else tryIndexes env inst method sorted w
  end.

(** *** Balance *)

(** [*http.Request]: [URLPath = None] stands for a nil [req.URL]. *)
Record Request := {
  Method : string;
  URLPath : option string;
  RemoteAddr : string;
}.

(** [path.Base], [strings.Split(_, ".")[0]] and [strings.TrimPrefix(_, "/")]
    of Go's library, on Rocq strings. *)
Fixpoint stripTrailingSlashes (s : string) : string :=
  match s with
  | EmptyString => EmptyString
  | String c s' =>
      let r := stripTrailingSlashes s' in
      if String.eqb r "" && Ascii.eqb c "/"%char then EmptyString else String c r
  end.

Fixpoint hasSlash (s : string) : bool :=
  match s with
  | EmptyString => false
  | String c s' => Ascii.eqb c "/"%char || hasSlash s'
  end.

Fixpoint lastElement (s : string) : string :=
  match s with
  | EmptyString => EmptyString
  | String c s' =>
      if hasSlash s' then lastElement s'
      else if Ascii.eqb c "/"%char then s' else s
  end.

Definition path_Base (p : string) : string :=
  if String.eqb p "" then "."
  else
    let p := lastElement (stripTrailingSlashes p) in
    if String.eqb p "" then "/" else p.

Fixpoint beforeFirstDot (s : string) : string :=
  match s with
  | EmptyString => EmptyString
  | String c s' => if Ascii.eqb c "."%char then EmptyString else String c (beforeFirstDot s')
  end.

Definition trimSlashPrefix (s : string) : string :=
  match s with
  | String c s' => if Ascii.eqb c "/"%char then s' else s
  | EmptyString => s
  end.

Definition fetchBackendUrls (inst : LoadBalancerInstance) (streamUrl : string)
    : result StreamInfo :=
  match slugParser inst streamUrl with
  | None => Err ErrSlug
  | Some stream =>
      if (size (URLs stream) =? 0)%nat then Err ErrNoURLs
      else if forallb (λ kv, (size kv.2 =? 0)%nat) (map_to_list (URLs stream))
      then Err ErrNoValidURLs
      else Ok stream
  end.

Definition setInfo (inst : LoadBalancerInstance) (stream : StreamInfo)
    : LoadBalancerInstance :=
  {| Info := stream; Cm := Cm inst; config := config inst;
     httpClient := httpClient inst; indexProvider := indexProvider inst;
     slugParser := slugParser inst |}.

(** Modelled from the spec: [proxy.BackoffStrategy], whose source is not
    part of the repository files.  [Next] returns the current delay and
    doubles it, capped at the ceiling.  Delays are in milliseconds. *)
Record BackoffStrategy := { current : Z; maxDelay : Z }.

Definition NewBackoffStrategy (initial max : Z) : BackoffStrategy :=
  {| current := initial; maxDelay := max |}.

Definition Next (b : BackoffStrategy) : Z * BackoffStrategy :=
  (current b, {| current := Z.min (2 * current b) (maxDelay b);
                 maxDelay := maxDelay b |}).

(** One turn of the [for lap := 0; ...] loop of [Balance]. *)
Inductive lapOutcome :=
| Return (r : result LoadBalancerResult)
| NextLap (b : BackoffStrategy).

Definition isCanceled (e : error) : bool :=
  match e with ContextCanceled => true | _ => false end.

Definition lapBody (env : Env) (inst : LoadBalancerInstance) (method : string)
    (lap : nat) (backoff : BackoffStrategy) (w : World) : lapOutcome * World :=
  match tryAllStreams env inst (ctxDoneAtTry env lap) method w with
  | (Ok r, w1) => (Return (Ok r), w1)
  | (Err e, w1) =>
      if isCanceled e then (Return (Err ErrCancelling), w1)
      else
        let w2 := SetTestedIndexes [] w1 in
        let '(d, backoff') := Next backoff in
        let w3 := emit (EvWait d) w2 in
        if ctxDoneInWait env lap then (Return (Err ErrCancelling), w3)
        else (NextLap backoff', w3)
  end.

Definition inBudget (maxRetries : Z) (lap : nat) : bool :=
  (Z.of_nat lap <? maxRetries) || (maxRetries =? 0).

(** The loop itself.  With [MaxRetries = 0] it need not end, so it runs on
    fuel: [None] means that [fuel] laps were not enough. *)
Fixpoint laps (fuel : nat) (env : Env) (inst : LoadBalancerInstance)
    (method : string) (lap : nat) (backoff : BackoffStrategy) (w : World)
    : option (result LoadBalancerResult * World) :=
  match fuel with
  | O => None
  | S fuel' =>
      if inBudget (MaxRetries (config inst)) lap then
        match lapBody env inst method lap backoff w with
        | (Return r, w') => Some (r, w')
        | (NextLap backoff', w') => laps fuel' env inst method (S lap) backoff' w'
        end
      else Some (Err ErrExhausted, w)
  end.

Record BalanceArgs := {
  ctxNil : bool;
  sessionNil : bool;
  req : option Request;
}.

Definition Balance (fuel : nat) (env : Env) (inst : LoadBalancerInstance)
    (args : BalanceArgs) (w : World)
    : option (result LoadBalancerResult * World) :=
  if ctxNil args then Some (Err ErrContextNil, w)
  else if sessionNil args then Some (Err ErrSessionNil, w)
  else match req args with
  | None => Some (Err ErrReqNil, w)
  | Some r =>
      if String.eqb (Method r) "" then Some (Err ErrMethodEmpty, w)
      else
        let urlPath := default "/" (URLPath r) in
        let streamUrl := beforeFirstDot (path_Base urlPath) in
        if String.eqb streamUrl "" then Some (Err ErrInvalidID, w)
        else
          let streamUrl := trimSlashPrefix streamUrl in
          match fetchBackendUrls inst streamUrl with
          | Err _ => Some (Err ErrFetchingSources, w)
          | Ok stream =>
              laps fuel env (setInfo inst stream) (Method r) 0
                (NewBackoffStrategy 200 2000) w
          end
  end.

(** *** Vocabulary of the statements *)

(** How one attempt on a URL ends, read off the environment: the request
    cannot be built, the transport fails, the client hands back nil, or a
    response with a status arrives. *)
Inductive attempt :=
| ConstructionError
| TransportError
| NilResponse
| Answered (r : Response).

Definition attemptOf (env : Env) (n : nat) (method url : string) : attempt :=
  if negb (newRequestOk env method url) then ConstructionError
  else match doRequest env n method url with
       | DoError => TransportError
       | DoNil => NilResponse
       | DoResp r => Answered r
       end.

(** The answers of the upstream do not depend on when it is asked. *)
Definition time_independent (env : Env) : Prop :=
  ∀ n method url, doRequest env n method url = doRequest env 0%nat method url.

(** An entry that [tryEntry] would pick from world [w]. *)
Definition healthy (env : Env) (cm : ConcurrencyManager)
    (method index : string) (w : World) (subIndex url : string) : Prop :=
  (testedKey index subIndex ∉ TestedIndexes w) ∧
  CheckConcurrency cm index = false ∧
  (∃ r, attemptOf env 0 method url = Answered r ∧ StatusCode r = 200).

Definition isOk {A} (r : result A) : bool :=
  match r with Ok _ => true | Err _ => false end.

(** The backoff and the world at the start of lap [k], provided every
    earlier lap ended in the backoff wait without cancellation. *)
Fixpoint stateAfter (env : Env) (inst : LoadBalancerInstance) (method : string)
    (k : nat) (b0 : BackoffStrategy) (w0 : World)
    : option (BackoffStrategy * World) :=
  match k with
  | O => Some (b0, w0)
  | S k' =>
      match stateAfter env inst method k' b0 w0 with
      | Some (b, w) =>
          match lapBody env inst method k' b w with
          | (NextLap b', w') => Some (b', w')
          | (Return _, _) => None
          end
      | None => None
      end
  end.

(** *** Scenarios *)

Definition ok200 : Response := {| StatusCode := 200; Body := "HELLO" |}.
Definition fail500 : Response := {| StatusCode := 500; Body := "" |}.

(** Every upstream answers 200, except [http://dead] (always 500);
    maps are ranged over in [map_to_list] order, long slices are sorted by
    insertion. *)
Definition envUp : Env := {|
  newRequestOk := λ _ _, true;
  doRequest := λ _ _ url,
    if String.eqb url "http://dead" then DoResp fail500 else DoResp ok200;
  rangeOrder := λ _ m, map_to_list m;
  pdqsort := insertionSort;
  ctxDoneAtTry := λ _, false;
  ctxDoneInWait := λ _, false;
|}.

(** Every request ends in a transport error. *)
Definition envDown : Env := {|
  newRequestOk := λ _ _, true;
  doRequest := λ _ _ _, DoError;
  rangeOrder := λ _ m, map_to_list m;
  pdqsort := insertionSort;
  ctxDoneAtTry := λ _, false;
  ctxDoneInWait := λ _, false;
|}.

(** Both upstreams answer 500 to the first two requests and 200 from then
    on (scenario S3). *)
Definition envRecovering : Env := {|
  newRequestOk := λ _ _, true;
  doRequest := λ n _ _, if (n <? 2)%nat then DoResp fail500 else DoResp ok200;
  rangeOrder := λ _ m, map_to_list m;
  pdqsort := insertionSort;
  ctxDoneAtTry := λ _, false;
  ctxDoneInWait := λ _, false;
|}.

(** The same upstreams, maps ranged over in the opposite order. *)
Definition envUpRev : Env := {|
  newRequestOk := newRequestOk envUp;
  doRequest := doRequest envUp;
  rangeOrder := λ _ m, reverse (map_to_list m);
  pdqsort := pdqsort envUp;
  ctxDoneAtTry := ctxDoneAtTry envUp;
  ctxDoneInWait := ctxDoneInWait envUp;
|}.

(** The same upstreams, the context already cancelled. *)
Definition envCancelled : Env := {|
  newRequestOk := newRequestOk envUp;
  doRequest := doRequest envUp;
  rangeOrder := rangeOrder envUp;
  pdqsort := pdqsort envUp;
  ctxDoneAtTry := λ _, true;
  ctxDoneInWait := λ _, true;
|}.

Definition cmOf (caps counts : list (string * Z)) : ConcurrencyManager :=
  specManager (list_to_map counts)
    (λ i, default 1 (list_to_map (M := gmap string Z) caps !! i)).

(** Caps [2, 1] with counts [0, 0] and with counts [2, 0]; caps [1, 1]
    with counts [0, 0]. *)
Definition cmIdle : ConcurrencyManager :=
  cmOf [("0", 2); ("1", 1)] [("0", 0); ("1", 0)].
Definition cmBusy : ConcurrencyManager :=
  cmOf [("0", 2); ("1", 1)] [("0", 2); ("1", 0)].
Definition cmEven : ConcurrencyManager :=
  cmOf [("0", 1); ("1", 1)] [("0", 0); ("1", 0)].

(** Thirteen sources, all idle with cap 1 but the last, whose cap is 5. *)
Definition thirteenSources : list string :=
  ["0"; "1"; "2"; "3"; "4"; "5"; "6"; "7"; "8"; "9"; "10"; "11"; "12"].
Definition cmLast : ConcurrencyManager := cmOf [("12", 5)] [].

Definition twoSources : StreamInfo :=
  {| Title := "news";
     URLs := {[ "0" := {[ "a" := "http://u1" ]};
                "1" := {[ "a" := "http://u2" ]} ]} |}.

(** Source 0 is dead, source 1 is live (scenario S2). *)
Definition deadAndLive : StreamInfo :=
  {| Title := "news";
     URLs := {[ "0" := {[ "a" := "http://dead" ]};
                "1" := {[ "a" := "http://u2" ]} ]} |}.

(** One source with a dead and a live sub-index. *)
Definition deadThenLive : gmap string string :=
  {[ "a" := "http://dead"; "b" := "http://u2" ]}.

Definition twoSubs : gmap string string :=
  {[ "a" := "http://u1"; "b" := "http://u2" ]}.

Definition instOf (cm : ConcurrencyManager) (provider : list string)
    (maxRetries : Z) : LoadBalancerInstance :=
  {| Info := twoSources; Cm := cm; config := {| MaxRetries := maxRetries |};
     httpClient := true; indexProvider := Some provider;
     slugParser := λ _, Some twoSources |}.

Definition instDeadAndLive : LoadBalancerInstance :=
  {| Info := deadAndLive; Cm := cmEven; config := {| MaxRetries := 3 |};
     httpClient := true; indexProvider := Some ["0"; "1"];
     slugParser := λ _, Some deadAndLive |}.

Definition freshWorld : World :=
  {| TestedIndexes := []; sent := 0; ranged := 0; trace := [] |}.

Definition testedWorld : World :=
  {| TestedIndexes := ["0|a"]; sent := 0; ranged := 0; trace := [] |}.

Definition getNews : BalanceArgs :=
  {| ctxNil := false; sessionNil := false;
     req := Some {| Method := "GET"; URLPath := Some "/stream/news.mp4";
                    RemoteAddr := "10.0.0.7:5000" |} |}.

(** *** Vocabulary of the further statements *)

(** An event that is a request, built or sent with [method], to a URL the
    channel lists under a source that is below its cap. *)
Definition requestBelowCap (inst : LoadBalancerInstance) (method : string)
    (e : Event) : Prop :=
  ∃ index urls subIndex url,
    URLs (Info inst) !! index = Some urls ∧ urls !! subIndex = Some url ∧
    CheckConcurrency (Cm inst) index = false ∧
    (e = EvNewRequest method url ∨ e = EvDo method url).

(** The waits of a trace, newest first. *)
Definition waits (t : list Event) : list Z :=
  omap (λ e, match e with EvWait d => Some d | _ => None end) t.

(** The errors [Balance] returns before it enters its loop. *)
Definition isSetupError (e : error) : bool :=
  match e with
  | ErrContextNil | ErrSessionNil | ErrReqNil | ErrMethodEmpty
  | ErrInvalidID | ErrFetchingSources => true
  | _ => false
  end.

Fixpoint hasDot (s : string) : bool :=
  match s with
  | EmptyString => false
  | String c s' => Ascii.eqb c "."%char || hasDot s'
  end.

(** The channel id [Balance] reads off a request path (lines 100-104). *)
Definition streamUrlOf (urlPath : string) : string :=
  trimSlashPrefix (beforeFirstDot (path_Base urlPath)).

(** What one pass over the sources may do to the world: it adds requests to
    sources below their cap to the trace, appends keys to [TestedIndexes]
    without introducing a duplicate, and sends at most one request per key
    it appends, plus one for the entry it picks. *)
Definition lapStep (inst : LoadBalancerInstance) (method : string)
    (w w' : World) (picked : bool) : Prop :=
  ∃ evs added,
    trace w' = evs ++ trace w ∧
    (∀ e, e ∈ evs → requestBelowCap inst method e) ∧
    TestedIndexes w' = TestedIndexes w ++ added ∧
    (NoDup (TestedIndexes w) → NoDup (TestedIndexes w')) ∧
    (sent w' ≤ sent w + length added + (if picked then 1 else 0))%nat.

(** The result [r] is an entry of the channel, answered 200 by a source
    below its cap; its key is not in [TestedIndexes] and the request that
    fetched it is the last event of the trace. *)
Definition picked (inst : LoadBalancerInstance) (method : string)
    (r : LoadBalancerResult) (w' : World) : Prop :=
  (∃ urls, URLs (Info inst) !! Index r = Some urls ∧
           urls !! SubIndex r = Some (URL r)) ∧
  StatusCode (LBResponse r) = 200 ∧
  CheckConcurrency (Cm inst) (Index r) = false ∧
  (testedKey (Index r) (SubIndex r) ∉ TestedIndexes w') ∧
  ∃ t, trace w' = EvDo method (URL r) :: t.


End LoadBalancer.

Module HLS.

(** *** Go library functions on strings *)

(** A Go string is a sequence of bytes, read as UTF-8 where runes matter. *)
Definition utf8 (bytes : list nat) : string :=
  string_of_list_ascii (ascii_of_nat <$> bytes).

(** The white space of [unicode.IsSpace], each rune in its UTF-8 encoding:
    tab, newline, vertical tab, form feed, carriage return, space, U+0085,
    U+00A0, U+1680, U+2000 to U+200A, U+2028, U+2029, U+202F, U+205F and
    U+3000. *)
Definition spaceRunes : list string :=
  utf8 <$> [[9]; [10]; [11]; [12]; [13]; [32]; [194; 133]; [194; 160];
            [225; 154; 128];
            [226; 128; 128]; [226; 128; 129]; [226; 128; 130]; [226; 128; 131];
            [226; 128; 132]; [226; 128; 133]; [226; 128; 134]; [226; 128; 135];
            [226; 128; 136]; [226; 128; 137]; [226; 128; 138];
            [226; 128; 168]; [226; 128; 169]; [226; 128; 175];
            [226; 129; 159]; [227; 128; 128]]%nat.

(** Is [s] one white-space rune. *)
Definition isSpaceRune (s : string) : bool := existsb (String.eqb s) spaceRunes.

(** The length in bytes of the white-space rune [s] starts with, if any
    (decoding the first rune of [s] gives that rune: UTF-8 is prefix-free,
    and an invalid byte decodes to U+FFFD, which is no white space). *)
Definition spaceLength (s : string) : option nat :=
  String.length <$> List.find (λ r, String.prefix r s) spaceRunes.

(** [strings.TrimLeftFunc(s, unicode.IsSpace)]; [skip] bytes of a rune
    already recognised are still to be dropped. *)
Fixpoint trimLeftFrom (skip : nat) (s : string) : string :=
  match s with
  | EmptyString => EmptyString
  | String _ s' =>
      match skip with
      | S k => trimLeftFrom k s'
      | O =>
          match spaceLength s with
          | Some (S k) => trimLeftFrom k s'
          | _ => s
          end
      end
  end.

Definition trimLeft (s : string) : string := trimLeftFrom 0 s.

(** [strings.TrimRightFunc(s, unicode.IsSpace)]: the last rune is decoded
    from the last lead byte on, and is white space exactly when the bytes
    from there to the end are the encoding of a white-space rune. *)
Fixpoint trimRight (s : string) : string :=
  match s with
  | EmptyString => EmptyString
  | String c s' =>
      let r := trimRight s' in
      if isSpaceRune (String c r) then EmptyString else String c r
  end.

(** [strings.TrimSpace] *)
Definition TrimSpace (s : string) : string := trimRight (trimLeft s).

(** [strings.HasPrefix s p] *)
Definition HasPrefix (s p : string) : bool := String.prefix p s.

Fixpoint dropChars (n : nat) (s : string) : string :=
  match n, s with
  | S n', String _ s' => dropChars n' s'
  | _, _ => s
  end.

Definition newline : ascii := ascii_of_nat 10.
Definition carriageReturn : ascii := ascii_of_nat 13.

Fixpoint dropCR (s : string) : string :=
  match s with
  | EmptyString => EmptyString
  | String c EmptyString => if Ascii.eqb c carriageReturn then EmptyString else s
  | String c s' => String c (dropCR s')
  end.

(** [bufio.MaxScanTokenSize] *)
Definition maxScanTokenSize : nat := 64 * 1024.

(** [bufio.Scanner] with [bufio.ScanLines]: the lines of [s], each without
    its newline and without one trailing carriage return; a last line need
    not end in a newline, and an empty rest is no line.  [line] is the line
    read so far, last character first.  A line that does not fit the
    scanner's buffer ends the scan with [bufio.ErrTooLong]: the flag. *)
Fixpoint scanLinesFrom (s : string) (line : list ascii) : list string * bool :=
  if (maxScanTokenSize <=? length line)%nat then ([], true)
  else
    match s with
    | EmptyString =>
        match line with
        | [] => ([], false)
        | _ => ([dropCR (string_of_list_ascii (reverse line))], false)
        end
    | String c s' =>
        if Ascii.eqb c newline then
          let '(rest, err) := scanLinesFrom s' [] in
          (dropCR (string_of_list_ascii (reverse line)) :: rest, err)
        else scanLinesFrom s' (c :: line)
    end.

Definition scanLines (s : string) : list string * bool := scanLinesFrom s [].

(** [SkipSpace] of a [fmt.Sscanf] scan: white space is skipped, and a
    newline in the input, which the format does not hold, is an error
    ([None]). *)
Fixpoint skipSpaceFrom (skip : nat) (s : string) : option string :=
  match s with
  | EmptyString => Some EmptyString
  | String c s' =>
      match skip with
      | S k => skipSpaceFrom k s'
      | O =>
          if Ascii.eqb c newline then None
          else match spaceLength s with
               | Some (S k) => skipSpaceFrom k s'
               | _ => Some s
               end
      end
  end.

(** The operand of a [%d] verb of [fmt.Sscanf]: white space is skipped,
    one sign is accepted, then the longest run of decimal digits is the
    token, which must not be empty and which [strconv.ParseInt(tok, 10, 64)]
    must accept (no overflow).  What follows the token is left unread.
    [None] stands for an error: the variable keeps its value. *)
Fixpoint numberToken (s : string) : list ascii :=
  match s with
  | String c s' => if isDigit c then c :: numberToken s' else []
  | EmptyString => []
  end.

Definition scanInt (s : string) : option Z :=
  match skipSpaceFrom 0 s with
  | None => None
  | Some s =>
      let '(neg, s) :=
        match s with
        | String c s' =>
            if (nat_of_ascii c =? 43)%nat then (false, s')
            else if (nat_of_ascii c =? 45)%nat then (true, s')
            else (false, s)
        | EmptyString => (false, s)
        end in
      match numberToken s with
      | [] => None
      | tok =>
          match digitsValue tok 0 with
          | Some v => let v := if neg then - v else v in
                      if inInt64 v then Some v else None
          | None => None
          end
      end
  end.

(** What the writer needs of [net/url] and of the [%f] verb, whose
    implementations belong to Go's library, and what the language leaves to
    the implementation.  A URL is kept in the form its [String()] prints. *)
Record GoLib := {
  url_Parse : string → option string;
  url_IsAbs : string → bool;
  url_ResolveReference : string → string → string;    (* base, reference *)
  scanFloat : string → option spec_float;
  (** the int64 a conversion gives for a float64 it cannot represent (NaN,
      an infinity, a value outside the range): implementation-dependent *)
  unrepresentable : spec_float → Z;
  (** does the compiler fuse [x*y + z] into one operation, rounded once *)
  fusedMultiplyAdd : bool;
}.

(** *** parsePlaylist *)

Record PlaylistMetadata := {
  TargetDuration : spec_float;
  MediaSequence : Z;
  Version : Z;
  IsEndlist : bool;
  Segments : list string;
  IsMaster : bool;
}.

(** The float64 value 2. *)
Definition float2 : spec_float := S754_finite false 4503599627370496 (-51).

Definition emptyMetadata : PlaylistMetadata :=
  {| TargetDuration := float2; MediaSequence := 0; Version := 0;
     IsEndlist := false; Segments := []; IsMaster := false |}.

Definition setVersion (v : Z) (md : PlaylistMetadata) : PlaylistMetadata :=
  {| TargetDuration := TargetDuration md; MediaSequence := MediaSequence md;
     Version := v; IsEndlist := IsEndlist md; Segments := Segments md;
     IsMaster := IsMaster md |}.

Definition setTargetDuration (d : spec_float) (md : PlaylistMetadata) : PlaylistMetadata :=
  {| TargetDuration := d; MediaSequence := MediaSequence md;
     Version := Version md; IsEndlist := IsEndlist md; Segments := Segments md;
     IsMaster := IsMaster md |}.

Definition setMediaSequence (n : Z) (md : PlaylistMetadata) : PlaylistMetadata :=
  {| TargetDuration := TargetDuration md; MediaSequence := n;
     Version := Version md; IsEndlist := IsEndlist md; Segments := Segments md;
     IsMaster := IsMaster md |}.

Definition setEndlist (md : PlaylistMetadata) : PlaylistMetadata :=
  {| TargetDuration := TargetDuration md; MediaSequence := MediaSequence md;
     Version := Version md; IsEndlist := true; Segments := Segments md;
     IsMaster := IsMaster md |}.

Definition addSegment (u : string) (md : PlaylistMetadata) : PlaylistMetadata :=
  {| TargetDuration := TargetDuration md; MediaSequence := MediaSequence md;
     Version := Version md; IsEndlist := IsEndlist md;
     Segments := Segments md ++ [u]; IsMaster := IsMaster md |}.

(** The body of the [for scanner.Scan()] loop: the [switch] on one line. *)
Definition parseLine (lib : GoLib) (base : string) (md : PlaylistMetadata)
    (text : string) : PlaylistMetadata :=
  let line := TrimSpace text in
  if HasPrefix line "#EXTM3U" then md
  else if HasPrefix line "#EXT-X-STREAM-INF" then md
  else if HasPrefix line "#EXT-X-VERSION:" then
    match scanInt (dropChars 15 line) with
    | Some v => setVersion v md
    | None => md
    end
  else if HasPrefix line "#EXT-X-TARGETDURATION:" then
    match scanFloat lib (dropChars 22 line) with
    | Some d => setTargetDuration d md
    | None => md
    end
  else if HasPrefix line "#EXT-X-MEDIA-SEQUENCE:" then
    match scanInt (dropChars 22 line) with
    | Some n => setMediaSequence n md
    | None => md
    end
  else if String.eqb line "#EXT-X-ENDLIST" then setEndlist md
  else if negb (HasPrefix line "#") && negb (String.eqb line "") then
    match url_Parse lib line with
    | None => md
    | Some segURL =>
        let segURL :=
          if negb (url_IsAbs lib segURL) then url_ResolveReference lib base segURL
          else segURL in
        addSegment segURL md
    end
  else md.

(** [parsePlaylist]: the metadata ([None] for a nil pointer) and whether the
    error is non-nil. *)
Definition parsePlaylist (lib : GoLib) (mediaURL content : string)
    : option PlaylistMetadata * bool :=
  match url_Parse lib mediaURL with
  | None => (None, true)
  | Some base =>
      let '(lines, err) := scanLines content in
      (Some (fold_left (parseLine lib base) lines emptyMetadata), err)
  end.

(** *** Segments *)

(** [proxy.Status*], the status of a terminal chunk. *)
Inductive Status := StatusEOF | StatusServerError | StatusClientClosed.

(** What reaches the coordinator: the bytes of a segment passed to [c.Write],
    or the terminal chunk of [c.writeError]. *)
Inductive Chunk :=
| Data (segmentURL : string) (bytes : string)
| Terminal (status : Status).

(** The errors the writer tells apart: [io.EOF] and [ctx.Err()] from the
    errors built in [streamSegment]. *)
Inductive error :=
| EOF
| CtxErr
| ErrCreatingRequest
| ErrFetchingSegment
| ErrNilResponse
| ErrNon200 (code : Z) (segmentURL : string)
| ErrReadWrite.

(** What [c.readAndWriteStream] returns once it has passed the body to the
    write callback: nil, [io.EOF] or another error. *)
Inductive ReadResult := ReadDone | ReadEOF | ReadFailed.

Record SegmentResponse := {
  SegStatus : Z;
  ContentType : string;
  SegBody : string;         (* the bytes handed to the write callback *)
  SegRead : ReadResult;
}.

Inductive FetchOutcome :=
| FetchReqError                       (* http.NewRequest fails *)
| FetchError                          (* utils.HTTPClient.Do fails *)
| FetchNil                            (* nil response, nil error *)
| FetchResp (r : SegmentResponse).

Record Env := {
  lib : GoLib;
  (** the answer to the [n]-th segment request *)
  segFetch : nat → string → FetchOutcome;
  (** is [ctx.Done()] ready at the [select] before the [n]-th request *)
  ctxDone : nat → bool;
}.

Record World := {
  requested : list string;       (* segment URLs requested, oldest first *)
  written : list Chunk;          (* chunks handed to the coordinator, oldest first *)
  m3uHeaderSet : bool;
  WriterRespHeader : option string;     (* the Content-Type of the stored header *)
  (** a record of the order of events, not a variable of the code: how many
      chunks had been handed to the coordinator when the header was stored *)
  storedAt : option nat;
}.

Definition fetchCount (w : World) : nat := length (requested w).

Definition request (u : string) (w : World) : World :=
  {| requested := requested w ++ [u]; written := written w;
     m3uHeaderSet := m3uHeaderSet w; WriterRespHeader := WriterRespHeader w;
     storedAt := storedAt w |}.

Definition write (c : Chunk) (w : World) : World :=
  {| requested := requested w; written := written w ++ [c];
     m3uHeaderSet := m3uHeaderSet w; WriterRespHeader := WriterRespHeader w;
     storedAt := storedAt w |}.

(** [c.m3uHeaderSet.CompareAndSwap(false, true)] and what follows it. *)
Definition storeHeader (contentType : string) (w : World) : World :=
  if m3uHeaderSet w then w
  else {| requested := requested w; written := written w;
          m3uHeaderSet := true; WriterRespHeader := Some contentType;
          storedAt := Some (length (written w)) |}.

(** Modelled from the spec: [c.writeError], whose source is not part of the
    repository files, publishes a terminal chunk with the given status. *)
Definition writeError (st : Status) (w : World) : World := write (Terminal st) w.

Definition streamSegment (env : Env) (segmentURL : string) (w : World)
    : option error * World :=
  match segFetch env (fetchCount w) segmentURL with
  | FetchReqError => (Some ErrCreatingRequest, w)
  | FetchError => (Some ErrFetchingSegment, request segmentURL w)
  | FetchNil => (Some ErrNilResponse, request segmentURL w)
  | FetchResp resp =>
      let w := request segmentURL w in
      if negb (SegStatus resp =? 200) then
        (Some (ErrNon200 (SegStatus resp) segmentURL), w)
      else
        let contentType :=
          if String.eqb (ContentType resp) "" then "video/MP2T" else ContentType resp in
        let w := storeHeader contentType w in
        let w := write (Data segmentURL (SegBody resp)) w in
        match SegRead resp with
        | ReadDone => (None, w)
        | ReadEOF => (Some EOF, w)
        | ReadFailed => (Some ErrReadWrite, w)
        end
  end.

Definition isEOF (e : error) : bool :=
  match e with EOF => true | _ => false end.

Fixpoint processSegments (env : Env) (segments : list string) (w : World)
    : option error * World :=
  match segments with
  | [] => (None, w)
  | segment :: rest =>
      if ctxDone env (fetchCount w) then (Some CtxErr, w)
      else
        match streamSegment env segment w with
        | (Some err, w') =>
            if isEOF err then processSegments env rest w' else (Some err, w')
        | (None, w') => processSegments env rest w'
        end
  end.

(** *** StartHLSWriter *)

Record Config := { TimeoutSeconds : Z }.

(** A [time.Duration] is an int64 of nanoseconds. *)
Definition second : Z := 1000000000.

Definition int64 (x : Z) : Z := (x + 2 ^ 63) mod 2 ^ 64 - 2 ^ 63.

(** The local variables of [StartHLSWriter], and the body of the live
    response ([None]: reading it fails). *)
Record Writer := {
  lastErr : option error;
  lastChangeTime : Z;
  lastMediaSeq : Z;
  pollInterval : Z;
  respBody : option string;
}.

Definition initWriter (now : Z) (body : option string) : Writer :=
  {| lastErr := None; lastChangeTime := now; lastMediaSeq := -1;
     pollInterval := second; respBody := body |}.

(** Which case of the [select] fires; a tick carries the clock reading of
    [time.Since]. *)
Inductive Wake := CtxDone | Tick (now : Z).

(** What one turn of the loop reads from outside. *)
Record Poll := {
  active : bool;         (* atomic.LoadInt32(&c.state) == stateActive *)
  wake : Wake;
  rand : spec_float;     (* rand.Float64(), read when the target duration is positive *)
  changeTime : Z;        (* time.Now() when the sequence is accepted *)
  ctxErrAfter : bool;    (* ctx.Err() != nil after processSegments failed *)
}.

Inductive Step := Continue (wr : Writer) | Exit.

Definition timeoutLimit (cfg : Config) (wr : Writer) : Z :=
  int64 (int64 (TimeoutSeconds cfg * second) + pollInterval wr).

(** *** The polling rate (lines 134-148) *)

(** float64: IEEE 754 binary64, every operation rounded to nearest, ties
    to even. *)
Definition prec : Z := 53.
Definition emax : Z := 1024.

(** [float64(n)] for an integer [n]. *)
Definition float64 (n : Z) : spec_float := binary_normalize prec emax n 0 false.

(** The constants 0.9, 0.2 and 0.1 as float64 values. *)
Definition c0_9 : spec_float := S754_finite false 8106479329266893 (-53).
Definition c0_2 : spec_float := S754_finite false 7205759403792794 (-55).
Definition c0_1 : spec_float := S754_finite false 7205759403792794 (-56).

(** The integer part of a finite float. *)
Definition truncate (f : spec_float) : option Z :=
  match f with
  | S754_zero _ => Some 0
  | S754_finite s m e =>
      let v := if 0 <=? e then Z.pos m * 2 ^ e else Z.pos m / 2 ^ (- e) in
      Some (if s then - v else v)
  | S754_infinity _ | S754_nan => None
  end.

(** [int64(f)], and so [time.Duration(f)]: the fraction is discarded; a
    value that int64 cannot hold gives what the implementation gives. *)
Definition toInt64 (lib : GoLib) (f : spec_float) : Z :=
  match truncate f with
  | Some v => if inInt64 v then v else unrepresentable lib f
  | None => unrepresentable lib f
  end.

(** [x*y + z] rounded once. *)
Definition fusedMulAdd (x y z : spec_float) : spec_float :=
  match x, y, z with
  | S754_finite sx mx ex, S754_finite sy my ey, S754_finite sz mz ez =>
      let e := Z.min (ex + ey) ez in
      let p := (if xorb sx sy then -1 else 1) * Z.pos mx * Z.pos my
               * 2 ^ (ex + ey - e) in
      let q := (if sz then -1 else 1) * Z.pos mz * 2 ^ (ez - e) in
      binary_normalize prec emax (p + q) e false
  | _, _, _ => SFadd prec emax (SFmul prec emax x y) z
  end.

(** [0.9 + 0.2*rand.Float64()] *)
Definition jitterFactor (lib : GoLib) (r : spec_float) : spec_float :=
  if fusedMultiplyAdd lib then fusedMulAdd c0_2 r c0_9
  else SFadd prec emax c0_9 (SFmul prec emax c0_2 r).

(** [time.Duration(metadata.TargetDuration * float64(time.Second) / 2)] *)
Definition newIntervalOf (lib : GoLib) (targetDuration : spec_float) : Z :=
  toInt64 lib
    (SFdiv prec emax (SFmul prec emax targetDuration (float64 second)) (float64 2)).

(** [time.Duration(float64(newInterval) * (0.9 + 0.2*rand.Float64()))] *)
Definition jitterOf (lib : GoLib) (targetDuration r : spec_float) : Z :=
  toInt64 lib
    (SFmul prec emax (float64 (newIntervalOf lib targetDuration)) (jitterFactor lib r)).

(** [math.Abs(float64(jitter-pollInterval)) > float64(pollInterval)*0.1] *)
Definition significant (jitter pollInterval : Z) : bool :=
  SFltb (SFmul prec emax (float64 pollInterval) c0_1)
        (SFabs (float64 (int64 (jitter - pollInterval)))).

Definition isPositive (f : spec_float) : bool := SFltb (S754_zero false) f.

Definition setPollInterval (d : Z) (wr : Writer) : Writer :=
  {| lastErr := lastErr wr; lastChangeTime := lastChangeTime wr;
     lastMediaSeq := lastMediaSeq wr; pollInterval := d; respBody := respBody wr |}.

(** The update of the polling rate.  [ticker.Reset] panics on an interval
    that is not positive ([None]); the deferred [recover] of
    [StartHLSWriter] then publishes a server error. *)
Definition retune (lib : GoLib) (p : Poll) (metadata : PlaylistMetadata)
    (wr : Writer) : option Writer :=
  if isPositive (TargetDuration metadata) then
    let jitter := jitterOf lib (TargetDuration metadata) (rand p) in
    if significant jitter (pollInterval wr) then
      if jitter <=? 0 then None else Some (setPollInterval jitter wr)
    else Some wr
  else Some wr.

Definition accept (now seq : Z) (wr : Writer) : Writer :=
  {| lastErr := lastErr wr; lastChangeTime := now; lastMediaSeq := seq;
     pollInterval := pollInterval wr; respBody := respBody wr |}.

Definition setLastErr (e : error) (wr : Writer) : Writer :=
  {| lastErr := Some e; lastChangeTime := lastChangeTime wr;
     lastMediaSeq := lastMediaSeq wr; pollInterval := pollInterval wr;
     respBody := respBody wr |}.

(** The [case <-ticker.C] branch after the manifest has been parsed. *)
Definition follow (env : Env) (p : Poll) (metadata : PlaylistMetadata)
    (wr : Writer) (w : World) : Step * World :=
  if IsMaster metadata then (Exit, writeError StatusServerError w)
  else if IsEndlist metadata then
    let '(_, w) := processSegments env (Segments metadata) w in
    (Exit, writeError StatusEOF w)
  else if lastMediaSeq wr <=? MediaSequence metadata then
    let wr := accept (changeTime p) (MediaSequence metadata) wr in
    match processSegments env (Segments metadata) w with
    | (Some err, w) =>
        if ctxErrAfter p then (Exit, writeError StatusServerError w)
        else (Continue (setLastErr err wr), w)
    | (None, w) => (Continue wr, w)
    end
  else (Continue wr, w).

(** One turn of [for atomic.LoadInt32(&c.state) == stateActive]. *)
Definition iteration (cfg : Config) (env : Env) (mediaURL : string) (p : Poll)
    (wr : Writer) (w : World) : Step * World :=
  if negb (active p) then (Exit, w)
  else
    match wake p with
    | CtxDone =>
        match lastErr wr with
        | None => (Exit, writeError StatusClientClosed w)
        | Some _ => (Exit, w)
        end
    | Tick now =>
        if timeoutLimit cfg wr <? now - lastChangeTime wr then
          (Exit, writeError StatusEOF w)
        else
          match respBody wr with
          | None => (Exit, writeError StatusServerError w)
          | Some m3uPlaylist =>
              match parsePlaylist (lib env) mediaURL m3uPlaylist with
              | (Some metadata, false) =>
                  match retune (lib env) p metadata wr with
                  | None => (Exit, writeError StatusServerError w)
                  | Some wr => follow env p metadata wr w
                  end
              | _ => (Exit, writeError StatusServerError w)
              end
          end
    end.

(** The loop on a finite run of polls: [Continue] when the polls run out
    before the writer has returned. *)
Fixpoint StartHLSWriter (cfg : Config) (env : Env) (mediaURL : string)
    (polls : list Poll) (wr : Writer) (w : World) : Step * World :=
  match polls with
  | [] => (Continue wr, w)
  | p :: rest =>
      match iteration cfg env mediaURL p wr w with
      | (Continue wr', w') => StartHLSWriter cfg env mediaURL rest wr' w'
      | (Exit, w') => (Exit, w')
      end
  end.

(** *** Vocabulary of the statements *)

(** The segment URLs of the data chunks of a list of chunks, in order. *)
Definition dataURLs (l : list Chunk) : list string :=
  omap (λ c, match c with Data u _ => Some u | Terminal _ => None end) l.

(** The statuses of the terminal chunks of a list of chunks, in order. *)
Definition terminals (l : list Chunk) : list Status :=
  omap (λ c, match c with Terminal st => Some st | Data _ _ => None end) l.

(** A segment that is fetched with status 200 and read to its end. *)
Definition served (env : Env) (u : string) : Prop :=
  ∀ n, ∃ r, segFetch env n u = FetchResp r ∧ SegStatus r = 200 ∧
            SegRead r ≠ ReadFailed.

(** *** Scenarios *)

Fixpoint dirOf (u : string) : string :=
  match u with
  | EmptyString => EmptyString
  | String c u' =>
      let d := dirOf u' in
      if String.eqb d "" && negb (Ascii.eqb c "/"%char) then EmptyString
      else String c d
  end.

(** A decimal numeral, [digits] or [digits.digits], as the float64 nearest
    to it: the quotient of two integers that float64 holds exactly, rounded
    once. *)
Definition decimalFloat (t : string) : option spec_float :=
  let whole := numberToken t in
  let frac :=
    match dropChars (length whole) t with
    | String c rest => if Ascii.eqb c "."%char then numberToken rest else []
    | EmptyString => []
    end in
  match whole with
  | [] => None
  | _ =>
      match digitsValue (whole ++ frac) 0 with
      | Some n =>
          Some (SFdiv prec emax (float64 n) (float64 (10 ^ Z.of_nat (length frac))))
      | None => None
      end
  end.

(** A stand-in for [net/url] and [%f] on the inputs of the scenarios: every
    string parses, a URL is absolute when it starts with a scheme, a relative
    reference replaces the last path element of the base, and a float is
    read from a decimal numeral.  A float64 that int64 cannot hold converts
    to the least int64, and products and sums are rounded one by one, as on
    amd64. *)
Definition demoLib : GoLib := {|
  url_Parse := Some;
  url_IsAbs := λ u, HasPrefix u "http://" || HasPrefix u "https://";
  url_ResolveReference := λ base ref, dirOf base +:+ ref;
  scanFloat := decimalFloat;
  unrepresentable := λ _, - 2 ^ 63;
  fusedMultiplyAdd := false;
|}.

Definition lf : string := String newline EmptyString.

Definition joinLines (l : list string) : string :=
  fold_right (λ x acc, x +:+ lf +:+ acc) "" l.

(** A live media playlist at media sequence 10 (scenario S6). *)
Definition manifest10 : string :=
  joinLines ["#EXTM3U"; "#EXT-X-VERSION:3"; "#EXT-X-MEDIA-SEQUENCE:10";
             "#EXTINF:2.0,"; "seg10.ts"].

(** A live media playlist with a target duration of 6 s (scenario S5). *)
Definition manifest6 : string :=
  joinLines ["#EXTM3U"; "#EXT-X-VERSION:3"; "#EXT-X-TARGETDURATION:6";
             "#EXT-X-MEDIA-SEQUENCE:10"; "#EXTINF:6.0,"; "seg10.ts"].

(** A media playlist whose target duration is a nanosecond. *)
Definition manifestTiny : string :=
  joinLines ["#EXTM3U"; "#EXT-X-TARGETDURATION:0.000000001";
             "#EXT-X-MEDIA-SEQUENCE:10"; "#EXTINF:2.0,"; "seg10.ts"].

(** A master playlist: two variants. *)
Definition masterManifest : string :=
  joinLines ["#EXTM3U";
             "#EXT-X-STREAM-INF:BANDWIDTH=1280000,RESOLUTION=640x360";
             "low/index.m3u8";
             "#EXT-X-STREAM-INF:BANDWIDTH=2560000,RESOLUTION=1280x720";
             "high/index.m3u8"].

Definition mediaURL : string := "http://up/live/index.m3u8".

(** What [manifest10] parses to. *)
Definition metadata10 : PlaylistMetadata :=
  {| TargetDuration := float2; MediaSequence := 10; Version := 3;
     IsEndlist := false; Segments := ["http://up/live/seg10.ts"];
     IsMaster := false |}.

(** What [manifest6] parses to. *)
Definition metadata6 : PlaylistMetadata :=
  {| TargetDuration := float64 6; MediaSequence := 10; Version := 3;
     IsEndlist := false; Segments := ["http://up/live/seg10.ts"];
     IsMaster := false |}.

(** The float64 nearest to 0.000000001. *)
Definition nano : spec_float := S754_finite false 4835703278458517 (-82).

(** What [manifestTiny] parses to. *)
Definition metadataTiny : PlaylistMetadata :=
  {| TargetDuration := nano; MediaSequence := 10; Version := 0;
     IsEndlist := false; Segments := ["http://up/live/seg10.ts"];
     IsMaster := false |}.

Definition tsResponse (code : Z) : SegmentResponse :=
  {| SegStatus := code; ContentType := ""; SegBody := "TS"; SegRead := ReadDone |}.

(** Every segment is served, the context stays alive. *)
Definition envServing : Env :=
  {| lib := demoLib;
     segFetch := λ _ _, FetchResp (tsResponse 200);
     ctxDone := λ _, false |}.

(** As [envServing], but [http://up/live/s2.ts] is gone (404). *)
Definition envGap : Env :=
  {| lib := demoLib;
     segFetch := λ _ u,
       if String.eqb u "http://up/live/s2.ts" then FetchResp (tsResponse 404)
       else FetchResp (tsResponse 200);
     ctxDone := λ _, false |}.

Definition threeSegments : list string :=
  ["http://up/live/s1.ts"; "http://up/live/s2.ts"; "http://up/live/s3.ts"].

Definition emptyWorld : World :=
  {| requested := []; written := []; m3uHeaderSet := false;
     WriterRespHeader := None; storedAt := None |}.

Definition cfg15 : Config := {| TimeoutSeconds := 15 |}.

(** The float64 value 0.5. *)
Definition half : spec_float := S754_finite false 4503599627370496 (-53).

(** The largest float64 below 1, the largest value of [rand.Float64()]. *)
Definition almostOne : spec_float := S754_finite false 9007199254740991 (-53).

(** The [i]-th tick of a ticker that fires every second from time 0 on,
    the random number being 0.5 (a jitter factor of 1). *)
Definition steadyPoll (i : nat) : Poll :=
  {| active := true; wake := Tick (Z.of_nat (S i) * second);
     rand := half;
     changeTime := Z.of_nat (S i) * second; ctxErrAfter := false |}.

Definition steadyPolls (from n : nat) : list Poll := map steadyPoll (seq from n).

(** Ticks at 1 s, 4 s and 7 s: a ticker that is set to 3 s at its first
    tick. *)
Definition tickAt (seconds : Z) : Poll :=
  {| active := true; wake := Tick (seconds * second); rand := half;
     changeTime := seconds * second; ctxErrAfter := false |}.

Definition slowPolls : list Poll := [tickAt 1; tickAt 4; tickAt 7].

(** The writer after [k] such polls of [manifest10], the last accepted
    sequence being [mseq]. *)
Definition steadyWriter (k : nat) (mseq : Z) : Writer :=
  {| lastErr := None; lastChangeTime := Z.of_nat k * second;
     lastMediaSeq := mseq; pollInterval := second;
     respBody := Some manifest10 |}.

(** *** Vocabulary of the further statements *)

(** The segment a line of a manifest contributes, if any: the case of the
    [switch] that appends to [metadata.Segments]. *)
Definition segmentOf (lib : GoLib) (base text : string) : option string :=
  let line := TrimSpace text in
  if HasPrefix line "#" || String.eqb line "" then None
  else match url_Parse lib line with
       | None => None
       | Some segURL =>
           Some (if url_IsAbs lib segURL then segURL
                 else url_ResolveReference lib base segURL)
       end.

(** The content type [streamSegment] stores for a response. *)
Definition contentTypeOf (r : SegmentResponse) : string :=
  if String.eqb (ContentType r) "" then "video/MP2T" else ContentType r.

(** How the stored response header may change from [w] to [w'], the chunks
    only growing.  Once set it stays as it is.  While it is not set no data
    chunk is written.  When it is set, it is set before the first data
    chunk: no chunk written until then is a data chunk; and its content
    type is that of a segment response with status 200, [video/MP2T] when
    the response has none. *)
Definition headerStep (env : Env) (w w' : World) : Prop :=
  (∃ more, written w' = written w ++ more) ∧
  if m3uHeaderSet w then
    m3uHeaderSet w' = true ∧ WriterRespHeader w' = WriterRespHeader w ∧
    storedAt w' = storedAt w
  else
    (m3uHeaderSet w' = false ∧ WriterRespHeader w' = WriterRespHeader w ∧
     storedAt w' = storedAt w ∧
     dataURLs (written w') = dataURLs (written w)) ∨
    (m3uHeaderSet w' = true ∧
     ∃ k r,
       storedAt w' = Some k ∧
       (length (written w) ≤ k ≤ length (written w'))%nat ∧
       dataURLs (take k (written w')) = dataURLs (written w) ∧
       WriterRespHeader w' = Some (contentTypeOf r) ∧
       contentTypeOf r ≠ "" ∧
       SegStatus r = 200 ∧
       ∃ n u, segFetch env n u = FetchResp r).

(** Polls of a writer that reads the manifest [md] at which the
    coordinator is active, the tick comes within the timeout and the update
    of the polling rate does not fail; [wr] is the writer before the first
    of them. *)
Fixpoint inTime (cfg : Config) (lib : GoLib) (md : PlaylistMetadata)
    (wr : Writer) (polls : list Poll) : Prop :=
  match polls with
  | [] => True
  | p :: rest =>
      active p = true ∧
      (∃ now, wake p = Tick now ∧ now - lastChangeTime wr ≤ timeoutLimit cfg wr) ∧
      ∃ wr1, retune lib p md wr = Some wr1 ∧
             inTime cfg lib md (accept (changeTime p) (MediaSequence md) wr1) rest
  end.

(** A poll at which the loop can leave without a word: the coordinator is
    no longer active, or the context is done. *)
Definition quiet (p : Poll) : bool :=
  negb (active p) || match wake p with CtxDone => true | Tick _ => false end.

(** What one turn or one run writes: data chunks, then, only when it
    leaves the loop, at most one terminal chunk. *)
Definition wrote (w : World) (out : Step * World) (silent : Prop) : Prop :=
  ∃ data, terminals data = [] ∧
    match out.1 with
    | Continue _ => written out.2 = written w ++ data
    | Exit => (∃ st, written out.2 = written w ++ data ++ [Terminal st]) ∨
              (written out.2 = written w ++ data ∧ silent)
    end.

End HLS.

Module MP4.

(** *** Data *)

(** [database.StreamURL] and [database.StreamInfo], as [mp4_handler.go]
    uses them. *)
Record StreamURL := { Content : string; M3UIndex : Z }.

Record StreamInfo := { URLs : list StreamURL }.

Record Response := { StatusCode : Z; Body : string }.

(** What [httpClient.Get] returns: a response and no error; no response and
    an error; or, when a redirect fails, the last response and an error. *)
Inductive GetOutcome :=
  | GetOk (r : Response)
  | GetErr
  | GetErrResp (r : Response).

Inductive error := ErrExhausted.

Record Env := {
  (** [os.LookupEnv] *)
  LookupEnv : string → option string;
  (** [database.GetConcurrency]; [None]: the call returns an error *)
  GetConcurrency : Z → option Z;
  (** the [n]-th call of [httpClient.Get] *)
  httpGet : nat → string → GetOutcome;
}.

(** [os.Getenv] *)
Definition Getenv (env : Env) (key : string) : string :=
  default "" (LookupEnv env key).

(** *** checkConcurrency *)

Definition maxConcurrencyOf (env : Env) (m3uIndex : Z) : Z :=
  match LookupEnv env ("M3U_MAX_CONCURRENCY_" +:+ itoa m3uIndex) with
  | Some rawMaxConcurrency =>
      match Atoi rawMaxConcurrency with
      | Some n => n
      | None => 1
      end
  | None => 1
  end.

Definition checkConcurrency (env : Env) (m3uIndex : Z) : bool :=
  let maxConcurrency := maxConcurrencyOf env m3uIndex in
  match GetConcurrency env m3uIndex with
  | None => false
  | Some count => maxConcurrency <=? count
  end.

(** *** loadBalancer *)

(** The URLs passed to [httpClient.Get] so far, oldest first. *)
Definition Gets := list string.

(** The named results [resp] and [selectedUrl] of [loadBalancer] while it
    runs ([None]: nil), and the requests sent so far.  The named result
    [err] is not kept: it is tested right after each call and every
    [return] sets it anew. *)
Record Locals := {
  resp : option Response;
  selectedUrl : option StreamURL;
  gets : Gets;
}.

Definition start : Locals := {| resp := None; selectedUrl := None; gets := [] |}.

(** The response that a call of [httpClient.Get] leaves in [resp]. *)
Definition responseOf (o : GetOutcome) : option Response :=
  match o with
  | GetOk r | GetErrResp r => Some r
  | GetErr => None
  end.

(** [resp, err = httpClient.Get(url.Content)] *)
Definition get (env : Env) (url : StreamURL) (st : Locals) : GetOutcome * Locals :=
  let o := httpGet env (length (gets st)) (Content url) in
  (o, {| resp := responseOf o; selectedUrl := selectedUrl st;
         gets := gets st ++ [Content url] |}).

(** [selectedUrl = &url] *)
Definition select (url : StreamURL) (st : Locals) : Locals :=
  {| resp := resp st; selectedUrl := Some url; gets := gets st |}.

(** [case "brute-force"] *)
Fixpoint bruteForce (env : Env) (urls : list StreamURL) (st : Locals) : Locals :=
  match urls with
  | [] => st
  | url :: rest =>
      if checkConcurrency env (M3UIndex url) then bruteForce env rest st
      else
        match get env url st with
        | (GetOk _, st) => select url st
        | (_, st) => bruteForce env rest st
        end
  end.

(** [case "round-robin"]: [todo] turns of the loop are left, [i] is the
    loop counter. *)
Fixpoint roundRobin (env : Env) (urls : list StreamURL) (todo i lastIndex : nat)
    (st : Locals) : Locals :=
  match todo with
  | O => st
  | S todo' =>
      let index := ((lastIndex + i) mod length urls)%nat in
      match urls !! index with
      | None => st
      | Some url =>
          if checkConcurrency env (M3UIndex url) then
            roundRobin env urls todo' (S i) lastIndex st
          else
            match get env url st with
            | (GetOk _, st) => select url st
            | (_, st) =>
                roundRobin env urls todo' (S i)
                  ((lastIndex + 1) mod length urls)%nat st
            end
      end
  end.

(** The [switch loadBalancingMode]. *)
Definition concurrencyPass (env : Env) (stream : StreamInfo) : Locals :=
  let loadBalancingMode := Getenv env "LOAD_BALANCING_MODE" in
  let loadBalancingMode :=
    if String.eqb loadBalancingMode "" then "brute-force" else loadBalancingMode in
  if String.eqb loadBalancingMode "round-robin" then
    roundRobin env (URLs stream) (length (URLs stream)) 0 0 start
  else if String.eqb loadBalancingMode "brute-force" then
    bruteForce env (URLs stream) start
  else start.

(** The loop of the connection check mode (lines 94-103). *)
Fixpoint connectionCheck (env : Env) (urls : list StreamURL) (st : Locals) : Locals :=
  match urls with
  | [] => st
  | url :: rest =>
      match get env url st with
      | (GetOk _, st) => select url st
      | (_, st) => connectionCheck env rest st
      end
  end.

(** [loadBalancer]: its three results, and the requests it has sent. *)
Definition loadBalancer (env : Env) (stream : StreamInfo)
    : (option Response * option StreamURL * option error) * Gets :=
  let st := concurrencyPass env stream in
  match selectedUrl st with
  | None =>
      let st := connectionCheck env (URLs stream) st in
      match resp st with
      | None => ((None, None, Some ErrExhausted), gets st)
      | Some _ => ((resp st, selectedUrl st, None), gets st)
      end
  | Some _ => ((resp st, selectedUrl st, None), gets st)
  end.

(** *** Vocabulary of the statements *)

(** A request that goes to a URL of the stream whose source is below its
    cap. *)
Definition belowCap (env : Env) (urls : list StreamURL) (u : string) : Prop :=
  ∃ url, url ∈ urls ∧ Content url = u ∧ checkConcurrency env (M3UIndex url) = false.

(** A call of [httpClient.Get] that returns an error. *)
Definition failed (o : GetOutcome) : Prop := ∀ r, o ≠ GetOk r.

(** What a pass that looks at concurrency leaves behind when it starts
    from [st] and has at most [turns] turns of its loop ahead: it has sent
    at most [turns] requests more, each to a source below its cap, and a
    pick is a URL of such a source that answered the last of them. *)
Definition passFrom (env : Env) (urls : list StreamURL) (turns : nat)
    (st out : Locals) : Prop :=
  ∃ more, gets out = gets st ++ more ∧ (length more ≤ turns)%nat ∧
    (∀ u, u ∈ more → belowCap env urls u) ∧
    match selectedUrl out with
    | Some url =>
        url ∈ urls ∧ checkConcurrency env (M3UIndex url) = false ∧
        ∃ r pre, resp out = Some r ∧ gets out = pre ++ [Content url] ∧
                 httpGet env (length pre) (Content url) = GetOk r
    | None => True
    end.

(** *** Scenarios *)

Definition hello : Response := {| StatusCode := 200; Body := "HELLO" |}.

Definition moved : Response := {| StatusCode := 302; Body := "" |}.

Definition onlySource : StreamInfo :=
  {| URLs := [ {| Content := "http://u1/a.mp4"; M3UIndex := 1 |} ] |}.

Definition twoSources : StreamInfo :=
  {| URLs := [ {| Content := "http://u1/a.mp4"; M3UIndex := 1 |};
               {| Content := "http://u2/a.mp4"; M3UIndex := 2 |} ] |}.

(** No variable is set, every source has one active connection, every
    upstream answers. *)
Definition envAtCap : Env :=
  {| LookupEnv := λ _, None;
     GetConcurrency := λ _, Some 1;
     httpGet := λ _ _, GetOk hello |}.

(** Source 1 has one active connection, source 2 none. *)
Definition envOneBusy : Env :=
  {| LookupEnv := λ _, None;
     GetConcurrency := λ i, Some (if i =? 1 then 1 else 0);
     httpGet := λ _ _, GetOk hello |}.

(** Round-robin mode, source 1 with one active connection, source 2 with
    none, every upstream answers. *)
Definition envRoundRobin : Env :=
  {| LookupEnv := λ key,
       if String.eqb key "LOAD_BALANCING_MODE" then Some "round-robin" else None;
     GetConcurrency := λ i, Some (if i =? 1 then 1 else 0);
     httpGet := λ _ _, GetOk hello |}.

(** The caps of sources 1 and 2 are set to 3 and to a word, source 1 has two
    active connections and source 2 none; the first upstream refuses
    connections, the second answers. *)
Definition envFirstDown : Env :=
  {| LookupEnv := λ key,
       if String.eqb key "M3U_MAX_CONCURRENCY_1" then Some "3"
       else if String.eqb key "M3U_MAX_CONCURRENCY_2" then Some "many"
       else None;
     GetConcurrency := λ i, Some (if i =? 1 then 2 else 0);
     httpGet := λ _ u,
       if String.eqb u "http://u1/a.mp4" then GetErr else GetOk hello |}.

(** Round-robin mode, no connection anywhere; the first upstream refuses
    connections, the second answers. *)
Definition envRoundRobinDown : Env :=
  {| LookupEnv := λ key,
       if String.eqb key "LOAD_BALANCING_MODE" then Some "round-robin" else None;
     GetConcurrency := λ _, Some 0;
     httpGet := λ _ u,
       if String.eqb u "http://u1/a.mp4" then GetErr else GetOk hello |}.

(** No connection anywhere; every upstream redirects without end. *)
Definition envRedirects : Env :=
  {| LookupEnv := λ _, None;
     GetConcurrency := λ _, Some 0;
     httpGet := λ _ _, GetErrResp moved |}.

End MP4.

Module Slug.

(** *** Data *)

(** [sourceproc.StreamInfo] (the [store] package's own declaration is not
    part of the repository files). *)
Record StreamInfo := {
  Title : string;
  TvgID : string;
  TvgChNo : string;
  TvgType : string;
  LogoURL : string;
  Group : string;
  URLs : gmap string (gmap string string);
  SourceM3U : string;
  SourceIndex : Z;
}.

(** What the codec takes from [goccy/go-json], [DataDog/zstd] and
    [encoding/base64]'s decoder; [None] stands for a non-nil error.  The
    zstd functions take the destination buffer first and return the buffer
    that holds the result. *)
Record Lib := {
  json_Marshal : StreamInfo → option (list byte);
  json_Unmarshal : list byte → option StreamInfo;
  zstd_CompressLevel : list byte → list byte → Z → option (list byte);
  zstd_Decompress : list byte → list byte → option (list byte);
  base64_DecodeString : string → option (list byte);
}.

(** [zstd.BestCompression] *)
Definition BestCompression : Z := 20.

(** *** base64.StdEncoding.EncodeToString *)

Definition encodeStd : string :=
  "ABCDEFGHIJKLMNOPQRSTUVWXYZabcdefghijklmnopqrstuvwxyz0123456789+/".

Definition sextet (n : N) : ascii :=
  default "A"%char (String.get (N.to_nat (n mod 64)) encodeStd).

Definition padChar : ascii := "="%char.

Fixpoint EncodeToString (src : list byte) : string :=
  match src with
  | [] => EmptyString
  | [a] =>
      let v := (Byte.to_N a * 65536)%N in
      String (sextet (v / 262144)) (String (sextet (v / 4096))
        (String padChar (String padChar EmptyString)))
  | [a; b] =>
      let v := (Byte.to_N a * 65536 + Byte.to_N b * 256)%N in
      String (sextet (v / 262144)) (String (sextet (v / 4096))
        (String (sextet (v / 64)) (String padChar EmptyString)))
  | a :: b :: c :: rest =>
      let v := (Byte.to_N a * 65536 + Byte.to_N b * 256 + Byte.to_N c)%N in
      String (sextet (v / 262144)) (String (sextet (v / 4096))
        (String (sextet (v / 64)) (String (sextet v) (EncodeToString rest))))
  end.

(** [strings.Replace(s, old, new, -1)] for a one-character [old] and a [new]
    of at most one character. *)
Fixpoint replaceChar (old : ascii) (new : option ascii) (s : string) : string :=
  match s with
  | EmptyString => EmptyString
  | String c s' =>
      if Ascii.eqb c old then
        match new with
        | Some n => String n (replaceChar old new s')
        | None => replaceChar old new s'
        end
      else String c (replaceChar old new s')
  end.

(** *** EncodeSlug *)

Definition EncodeSlug (lib : Lib) (stream : StreamInfo) : string :=
  match json_Marshal lib stream with
  | None => ""
  | Some jsonData =>
      let compressedData : list byte := [] in       (* var compressedData []byte *)
      match zstd_CompressLevel lib compressedData jsonData BestCompression with
      | None => ""
      | Some _out =>
          let encodedData := EncodeToString compressedData in
          let encodedData := replaceChar "+" (Some "-"%char) encodedData in
          let encodedData := replaceChar "/" (Some "_"%char) encodedData in
          let encodedData := replaceChar "=" None encodedData in
          encodedData
      end
  end.

(** *** DecodeSlug *)

Inductive error := ErrBase64 | ErrDecompress | ErrDeserialize.

Inductive result := Ok (s : StreamInfo) | Err (e : error).

Definition padSlug (encodedSlug : string) : string :=
  match (String.length encodedSlug mod 4)%nat with
  | 2%nat => encodedSlug +:+ "=="
  | 3%nat => encodedSlug +:+ "="
  | _ => encodedSlug
  end.

Definition DecodeSlug (lib : Lib) (encodedSlug : string) : result :=
  let encodedSlug := replaceChar "-" (Some "+"%char) encodedSlug in
  let encodedSlug := replaceChar "_" (Some "/"%char) encodedSlug in
  let encodedSlug := padSlug encodedSlug in
  match base64_DecodeString lib encodedSlug with
  | None => Err ErrBase64
  | Some decodedData =>
      let decompressedData : list byte := [] in     (* var decompressedData []byte *)
      match zstd_Decompress lib decompressedData decodedData with
      | None => Err ErrDecompress
      | Some _ =>
          match json_Unmarshal lib decompressedData with
          | None => Err ErrDeserialize
          | Some result => Ok result
          end
      end
  end.

(** *** Scenarios *)

Definition news : StreamInfo :=
  {| Title := "News"; TvgID := "news.tv"; TvgChNo := "7"; TvgType := "live";
     LogoURL := ""; Group := "Info";
     URLs := {[ "1" := {[ "0" := "http://u1/news" ]} ]};
     SourceM3U := "1"; SourceIndex := 0 |}.

Definition bytesOf (s : string) : list byte := list_byte_of_string s.

(** A stand-in for the three libraries on the inputs of the scenarios:
    the title as the serialized form, compression that copies,
    decompression that copies and rejects the empty input as
    [zstd.Decompress] does, a decoder that knows the empty string only, and
    a deserializer that rejects the empty input as both JSON libraries
    do. *)
Definition demoLib : Lib :=
  {| json_Marshal := λ s, Some (bytesOf (Title s));
     json_Unmarshal := λ b,
       match b with
       | [] => None
       | _ => Some news
       end;
     zstd_CompressLevel := λ _ src _, Some src;
     zstd_Decompress := λ _ src,
       match src with
       | [] => None
       | _ => Some src
       end;
     base64_DecodeString := λ s, if String.eqb s "" then Some [] else None |}.

(** *** Vocabulary of the further statements *)

(** The rewriting [EncodeSlug] applies to the base64 text (lines 36-41):
    [+] becomes [-], [/] becomes [_], the padding is dropped. *)
Definition urlSafe (encodedData : string) : string :=
  replaceChar "=" None
    (replaceChar "/" (Some "_"%char) (replaceChar "+" (Some "-"%char) encodedData)).

(** The text [DecodeSlug] hands to the base64 decoder (lines 47-55). *)
Definition decoderInput (encodedSlug : string) : string :=
  padSlug (replaceChar "_" (Some "/"%char) (replaceChar "-" (Some "+"%char) encodedSlug)).

(** A character of the base64 text that both rewritings treat alone: the
    encoder turns it into one character, which the decoder turns back. *)
Definition plain (c : ascii) : Prop :=
  (∀ s, urlSafe (String c s) =
        String (if Ascii.eqb c "+" then "-" else if Ascii.eqb c "/" then "_" else c)%char
          (urlSafe s)) ∧
  (∀ s, replaceChar "_" (Some "/"%char) (replaceChar "-" (Some "+"%char)
          (String (if Ascii.eqb c "+" then "-" else if Ascii.eqb c "/" then "_" else c)%char s))
        = String c (replaceChar "_" (Some "/"%char) (replaceChar "-" (Some "+"%char) s))) ∧
  (∀ s, replaceChar "_" (Some "/"%char) (replaceChar "-" (Some "+"%char) (String c s))
        = String c (replaceChar "_" (Some "/"%char) (replaceChar "-" (Some "+"%char) s))).


End Slug.

Module Sorter.

(** *** Data *)

(** [sourceproc.StreamInfo] *)
Record StreamInfo := {
  Title : string;
  TvgID : string;
  TvgChNo : string;
  TvgType : string;
  LogoURL : string;
  Group : string;
  URLs : gmap string (gmap string string);
  SourceM3U : string;
  SourceIndex : Z;
}.

(** *** sanitizeField *)

(** The characters the replacer turns into an underscore: slash, backslash,
    colon, star, question mark, double quote, less, greater, bar. *)
Definition unsafeChars : list ascii :=
  ascii_of_nat <$> [47; 92; 58; 42; 63; 34; 60; 62; 124]%nat.

Definition space : ascii := ascii_of_nat 32.
Definition underscore : ascii := ascii_of_nat 95.

Definition isUnsafe (c : ascii) : bool :=
  existsb (Ascii.eqb c) unsafeChars.

(** [strings.NewReplacer(...).Replace]: every old string is one byte, so the
    replacer rewrites byte by byte. *)
Fixpoint replaceUnsafe (value : string) : string :=
  match value with
  | EmptyString => EmptyString
  | String c rest =>
      if isUnsafe c then String underscore (replaceUnsafe rest)
      else if Ascii.eqb c space then replaceUnsafe rest
      else String c (replaceUnsafe rest)
  end.

Definition sanitizeField (value : string) : string :=
  let santized := replaceUnsafe value in
  if (100 <? String.length santized)%nat then String.substring 0 100 santized
  else santized.

(** *** mergeStreamInfoAttributes *)

(** [for subKey, subValue := range value { base.URLs[key][subKey] = subValue }],
    the entries of [value] taken in the order [entries]. *)
Definition mergeInner (inner : gmap string string)
    (entries : list (string * string)) : gmap string string :=
  fold_left (λ acc kv, <[kv.1 := kv.2]> acc) entries inner.

(** The order in which [range] yields the entries of a map is the
    runtime's: [outer] for [new.URLs], [innerOrder] for its values. *)
Definition mergeURLs (base : gmap string (gmap string string))
    (outer : list (string * gmap string string))
    (innerOrder : gmap string string → list (string * string))
    : gmap string (gmap string string) :=
  fold_left
    (λ acc kv,
       match acc !! kv.1 with
       | None => <[kv.1 := kv.2]> acc
       | Some inner => <[kv.1 := mergeInner inner (innerOrder kv.2)]> acc
       end)
    outer base.

Definition orElse (a b : string) : string :=
  if String.eqb a "" then b else a.

Definition mergeStreamInfoAttributes (base new : StreamInfo)
    (outer : list (string * gmap string string))
    (innerOrder : gmap string string → list (string * string)) : StreamInfo :=
  let newer :=
    String.ltb (SourceM3U new) (SourceM3U base) ||
    (String.eqb (SourceM3U new) (SourceM3U base) &&
     (SourceIndex new <? SourceIndex base)) in
  {| Title := orElse (Title base) (Title new);
     TvgID := orElse (TvgID base) (TvgID new);
     TvgChNo := orElse (TvgChNo base) (TvgChNo new);
     TvgType := orElse (TvgType base) (TvgType new);
     LogoURL := orElse (LogoURL base) (LogoURL new);
     Group := orElse (Group base) (Group new);
     URLs := mergeURLs (URLs base) outer innerOrder;
     SourceM3U := if newer then SourceM3U new else SourceM3U base;
     SourceIndex := if newer then SourceIndex new else SourceIndex base |}.

(** *** Scenarios *)

(** The same channel found in playlist 1 and, later, in playlists 1 and 2. *)
Definition sportsFirst : StreamInfo :=
  {| Title := "Sports"; TvgID := ""; TvgChNo := "12"; TvgType := "";
     LogoURL := ""; Group := "Live";
     URLs := {[ "1" := {[ "0" := "http://a/sports" ]} ]};
     SourceM3U := "1"; SourceIndex := 4 |}.

Definition sportsAgain : StreamInfo :=
  {| Title := "Sports"; TvgID := "sports.tv"; TvgChNo := ""; TvgType := "";
     LogoURL := ""; Group := "";
     URLs := {[ "1" := {[ "1" := "http://b/sports" ]};
                "2" := {[ "0" := "http://c/sports" ]} ]};
     SourceM3U := "1"; SourceIndex := 2 |}.

(** *** normalizeStringField *)

(** [fmt.Sprintf("~%s", value)] *)
Definition reverseLexicographical (value : string) : string := "~" +:+ value.

Definition normalizeStringField (value direction : string) : string :=
  if String.eqb direction "desc" then reverseLexicographical value
  else sanitizeField value.

(** *** Vocabulary of the further statements *)

(** The order of [mergeStreamInfoAttributes] on sources: by [SourceM3U] as
    a string, then by [SourceIndex]. *)
Definition sourceLe (a b : string * Z) : Prop :=
  String.ltb a.1 b.1 = true ∨ (a.1 = b.1 ∧ a.2 ≤ b.2).

Definition sourceOf (s : StreamInfo) : string * Z := (SourceM3U s, SourceIndex s).

(** *** normalizeNumericField *)

Definition digitChar (d : Z) : ascii := ascii_of_N (48 + Z.to_N d).

(** The decimal digits of [n], [width] of them, most significant first. *)
Fixpoint fixedDigits (width : nat) (n : Z) : string :=
  match width with
  | O => EmptyString
  | S width' =>
      String (digitChar (n / 10 ^ Z.of_nat width'))
        (fixedDigits width' (n mod 10 ^ Z.of_nat width'))
  end.

(** [fmt.Sprintf("%0*d", width, n)] for a width that is not negative: the
    digits of [n], at least one, padded with zeros on the left to [width]
    characters, a minus sign first and counted in the width; a number that
    needs more is printed in full. *)
Definition Sprintf_0d (width : nat) (n : Z) : string :=
  if 0 <=? n then
    if (0 <? Z.of_nat width) && (n <? 10 ^ Z.of_nat width)
    then fixedDigits width n else itoa n
  else
    "-" +:+ (if (0 <? Z.of_nat (width - 1)) && (- n <? 10 ^ Z.of_nat (width - 1))
             then fixedDigits (width - 1) (- n)
             else itoa (- n)).

(** An int64 computed in Go wraps around. *)
Definition int64 (x : Z) : Z := (x + 2 ^ 63) mod 2 ^ 64 - 2 ^ 63.

Definition maxValue : Z := 2 ^ 31 - 1.

Definition normalizeNumericField (value : string) (width : nat)
    (direction : string) : string :=
  match Atoi value with
  | None => sanitizeField value
  | Some num =>
      if String.eqb direction "desc" then Sprintf_0d width (int64 (maxValue - num))
      else Sprintf_0d width num
  end.

(** *** Vocabulary of the statements on sort keys *)

(** A number that [%0*d] prints in exactly [width] characters. *)
Definition fits (width : nat) (n : Z) : Prop :=
  (0 ≤ n < 10 ^ Z.of_nat width ∧ (0 < width)%nat) ∨
  (n < 0 ∧ - n < 10 ^ Z.of_nat (width - 1) ∧ (1 < width)%nat).

(** How the keys of two such numbers compare as strings: as the numbers
    do, but two negative numbers the other way round, their digits coming
    after the sign. *)
Definition keyOrder (x y : Z) : comparison :=
  if (x <? 0) && (y <? 0) then y ?= x else x ?= y.

End Sorter.

Module Fingerprint.

(** [*http.Request], as [GenerateFingerprint] reads it: the remote address
    and [r.Header.Get]. *)
Record Request := {
  RemoteAddr : string;
  Header_Get : string → string;
}.

(** [crypto/sha256], which belongs to Go's library. *)
Record Lib := {
  sha256_Sum256 : string → list byte;
}.

(** [hex.EncodeToString] *)
Definition hextable : string := "0123456789abcdef".

Definition hexDigit (n : N) : ascii :=
  default "0"%char (String.get (N.to_nat (n mod 16)) hextable).

Fixpoint hex_EncodeToString (src : list byte) : string :=
  match src with
  | [] => EmptyString
  | v :: rest =>
      String (hexDigit (Byte.to_N v / 16))
        (String (hexDigit (Byte.to_N v)) (hex_EncodeToString rest))
  end.

(** [fmt.Sprintf("%s|%s|%s|%s", ip, userAgent, accept, acceptLang)] *)
Definition fingerprintData (ip userAgent accept acceptLang : string) : string :=
  ip +:+ "|" +:+ userAgent +:+ "|" +:+ accept +:+ "|" +:+ acceptLang.

Definition GenerateFingerprint (lib : Lib) (r : Request) : string :=
  let ip := RemoteAddr r in
  let xff := Header_Get r "X-Forwarded-For" in
  let ip := if negb (String.eqb xff "") then xff else ip in
  let userAgent := Header_Get r "User-Agent" in
  let accept := Header_Get r "Accept" in
  let acceptLang := Header_Get r "Accept-Language" in
  let data := fingerprintData ip userAgent accept acceptLang in
  let hash := sha256_Sum256 lib data in
  hex_EncodeToString hash.

(** *** Scenarios *)

(** A request with the four headers the fingerprint reads. *)
Definition requestOf (remoteAddr xff userAgent accept acceptLang : string) : Request :=
  {| RemoteAddr := remoteAddr;
     Header_Get := λ key,
       if String.eqb key "X-Forwarded-For" then xff
       else if String.eqb key "User-Agent" then userAgent
       else if String.eqb key "Accept" then accept
       else if String.eqb key "Accept-Language" then acceptLang
       else "" |}.

End Fingerprint.

(** * Properties *)

Lemma slices_Contains_elem (l : list string) (x : string) :
  slices_Contains l x = true ↔ x ∈ l.
Proof.
  induction l as [|y l IH]; simpl.
  - split; [discriminate | intros H; inversion H].
  - destruct (String.eqb_spec y x) as [->|Hne].
    + split; [intros _; left | reflexivity].
    + rewrite IH. split; [intros H; by right|].
      intros H. inversion H; subst; [congruence | assumption].
Qed.

Lemma slices_Contains_false (l : list string) (x : string) :
  slices_Contains l x = false ↔ x ∉ l.
Proof.
  rewrite <- slices_Contains_elem. destruct (slices_Contains l x); split; congruence.
Qed.

(** ** Go's insertion sort under a priority: a stable sort *)

Section InsertionSort.
Context {A : Type} (prio : A → Z).
Local Abbreviation less := (higher prio).
Local Abbreviation asc := (ascending prio).
Local Abbreviation desc := (descending prio).

Lemma sift_perm x rp : sift less x rp ≡ₚ x :: rp.
Proof.
  induction rp as [|y rp IH]; simpl; [done|].
  destruct (less x y); [|done].
  rewrite IH. apply Permutation_swap.
Qed.

Lemma sift_sorted x rp :
  StronglySorted asc rp → StronglySorted asc (sift less x rp).
Proof.
  induction 1 as [|y rp Hs IH Hall]; simpl.
  - repeat constructor.
  - unfold higher at 1. destruct (Z.ltb_spec (prio y) (prio x)) as [Hlt|Hge].
    + constructor; [done|].
      rewrite sift_perm. constructor; [unfold ascending; lia | done].
    + constructor; [by constructor|].
      constructor; [done|].
      eapply Forall_impl; [exact Hall|]. unfold ascending. intros; simpl in *. lia.
Qed.

Lemma sift_filter p x rp :
  filter (λ a, prio a = p) (sift less x rp) = filter (λ a, prio a = p) (x :: rp).
Proof.
  induction rp as [|y rp IH]; simpl; [done|].
  unfold higher at 1. destruct (Z.ltb_spec (prio y) (prio x)) as [Hlt|Hge]; [|done].
  rewrite (filter_cons _ y), IH, !(filter_cons _ x), (filter_cons _ y).
  repeat case_decide; try done; lia.
Qed.

Lemma fold_sift_perm l acc :
  fold_left (λ rp x, sift less x rp) l acc ≡ₚ l ++ acc.
Proof.
  revert acc. induction l as [|x l IH]; intros acc; simpl; [done|].
  rewrite IH, sift_perm. by rewrite Permutation_middle.
Qed.

Lemma fold_sift_sorted l acc :
  StronglySorted asc acc →
  StronglySorted asc (fold_left (λ rp x, sift less x rp) l acc).
Proof.
  revert acc. induction l as [|x l IH]; intros acc H; simpl; [done|].
  apply IH, sift_sorted, H.
Qed.

Lemma fold_sift_filter p l acc :
  filter (λ a, prio a = p) (fold_left (λ rp x, sift less x rp) l acc) =
  reverse (filter (λ a, prio a = p) l) ++ filter (λ a, prio a = p) acc.
Proof.
  revert acc. induction l as [|x l IH]; intros acc; simpl; [done|].
  rewrite IH, sift_filter, !(filter_cons _ x).
  case_decide; [|done]. by rewrite reverse_cons, <- app_assoc.
Qed.

Lemma reverse_sorted_flip (l : list A) :
  StronglySorted asc l → StronglySorted desc (reverse l).
Proof.
  induction 1 as [|y l Hs IH Hall]; [apply SSorted_nil|].
  rewrite reverse_cons. apply StronglySorted_app_2; [|exact IH|repeat constructor].
  intros a b Ha Hb. apply list_elem_of_singleton in Hb as ->.
  rewrite elem_of_reverse in Ha.
  rewrite Forall_forall in Hall. unfold descending. apply (Hall a Ha).
Qed.

Lemma insertionSort_perm l : insertionSort less l ≡ₚ l.
Proof.
  unfold insertionSort. rewrite reverse_Permutation, fold_sift_perm.
  by rewrite app_nil_r.
Qed.

Lemma insertionSort_sorted l : StronglySorted desc (insertionSort less l).
Proof. apply reverse_sorted_flip, fold_sift_sorted. constructor. Qed.

Lemma insertionSort_stable p l :
  filter (λ a, prio a = p) (insertionSort less l) = filter (λ a, prio a = p) l.
Proof.
  unfold insertionSort.
  rewrite filter_reverse, fold_sift_filter, app_nil_r. apply reverse_involutive.
Qed.
End InsertionSort.

(** ** The load balancer *)

Module LoadBalancerFacts.
Import LoadBalancer.

(** **** The scenarios of the specification *)

(** S2: source 0 always answers 500; the balancer marks 0|a tested and
    succeeds on 1|a in the first lap. *)
Example scenario_S2 :
  ∃ w, Balance 5 envUp instDeadAndLive getNews freshWorld
       = Some (Ok {| LBResponse := ok200; URL := "http://u2";
                     Index := "1"; SubIndex := "a" |}, w) ∧
       TestedIndexes w = ["0|a"] ∧
       trace w = [EvDo "GET" "http://u2"; EvNewRequest "GET" "http://u2";
                  EvDo "GET" "http://dead"; EvNewRequest "GET" "http://dead"].
Proof. eexists. split; [vm_compute; reflexivity|]. split; reflexivity. Qed.

(** S3: both sources fail in the first lap and recover in the second; the
    balancer succeeds at lap index 1 after one wait of 200 ms. *)
Example scenario_S3 :
  ∃ w, Balance 5 envRecovering (instOf cmEven ["0"; "1"] 3) getNews freshWorld
       = Some (Ok {| LBResponse := ok200; URL := "http://u1";
                     Index := "0"; SubIndex := "a" |}, w) ∧
       TestedIndexes w = [] ∧
       trace w = [EvDo "GET" "http://u1"; EvNewRequest "GET" "http://u1";
                  EvWait 200;
                  EvDo "GET" "http://u2"; EvNewRequest "GET" "http://u2";
                  EvDo "GET" "http://u1"; EvNewRequest "GET" "http://u1"].
Proof. eexists. split; [vm_compute; reflexivity|]. split; reflexivity. Qed.

(** **** C2: what [tryStreamUrls] does with one (source, sub) pair *)

(** C2.  Let the [range] loop of [tryStreamUrls] over the map of a source
    yield the pairs [pre], then [(subIndex, url)], then [rest], none of
    [pre] being picked, and let [w1] be the world when the loop reaches the
    pair.  The key of the pair is the text [index|subIndex].  The pair is
    skipped, the world untouched and no request made, when the session
    holds the key or the source is at its cap.  Otherwise one request is
    built with the caller's method and, once built, sent once: a
    construction error, a transport error, a nil response and a status
    other than 200 each append the key to [TestedIndexes] and the loop goes
    on with [rest]; a 200 makes [tryStreamUrls] return the response, the
    URL, the source index and the sub index, the key not appended. *)
Theorem tryStreamUrls_pair (env : Env) (inst : LoadBalancerInstance)
    (method index : string) (urls : gmap string string) (w : World)
    (pre : list (string * string)) (subIndex url : string)
    (rest : list (string * string)) (w1 : World) :
  httpClient inst = true →
  rangeOrder env (ranged w) urls = pre ++ (subIndex, url) :: rest →
  tryEntries env (Cm inst) method index pre (countRange w)
    = (Err ErrAllUrlsFailed, w1) →
  let key := index +:+ "|" +:+ subIndex in
  let run := tryStreamUrls env inst method index urls w in
  let next w' := tryEntries env (Cm inst) method index rest w' in
  let built := emit (EvNewRequest method url) w1 in
  let sent1 := countDo (emit (EvDo method url) built) in
  ((key ∈ TestedIndexes w1 ∨ CheckConcurrency (Cm inst) index = true) →
     run = next w1) ∧
  (key ∉ TestedIndexes w1 → CheckConcurrency (Cm inst) index = false →
     match attemptOf env (sent w1) method url with
     | ConstructionError =>
         run = next (appendTested key built) ∧
         sent (appendTested key built) = sent w1
     | TransportError | NilResponse =>
         run = next (appendTested key sent1) ∧
         sent (appendTested key sent1) = S (sent w1)
     | Answered r =>
         if StatusCode r =? 200 then
           run = (Ok {| LBResponse := r; URL := url;
                        Index := index; SubIndex := subIndex |}, sent1) ∧
           TestedIndexes sent1 = TestedIndexes w1 ∧ sent sent1 = S (sent w1)
         else
           run = next (appendTested key sent1) ∧
           sent (appendTested key sent1) = S (sent w1)
     end) ∧
  (∀ w', TestedIndexes (appendTested key w') = TestedIndexes w' ++ [key] ∧
         trace (appendTested key w') = trace w') ∧
  trace built = EvNewRequest method url :: trace w1 ∧
  trace sent1 = EvDo method url :: EvNewRequest method url :: trace w1.
Proof.
  intros Hclient Horder Hpre key run next built sent1.
  assert (Hrun : run = match tryEntry env (Cm inst) method index subIndex url w1 with
                       | (Some r, w') => (Ok r, w')
                       | (None, w') => next w'
                       end).
  { subst run next. unfold tryStreamUrls. rewrite Hclient, Horder. simpl.
    clear Horder. revert Hpre. generalize (countRange w). intros w0.
    revert w0. induction pre as [|[s u] pre IH]; intros w0; simpl.
    - by intros [= <-].
    - destruct (tryEntry env (Cm inst) method index s u w0) as [[r|] w0']; [done|].
      apply IH. }
  subst key. split; [|split; [|split; [|split]]]; try done.
  - rewrite Hrun. unfold tryEntry, testedKey. intros [Hin | Hcap].
    + apply slices_Contains_elem in Hin. by rewrite Hin.
    + rewrite Hcap. by destruct (slices_Contains _ _).
  - intros Hnin Hcap. apply slices_Contains_false in Hnin.
    rewrite Hrun. unfold tryEntry, attemptOf, testedKey. rewrite Hnin, Hcap.
    destruct (newRequestOk env method url); simpl; [|done].
    destruct (doRequest env (sent w1) method url) as [| |r]; simpl; try done.
    destruct (StatusCode r =? 200); simpl; done.
Qed.

Lemma tryStreamUrls_pair_witness :
  httpClient (instOf cmIdle ["0"; "1"] 3) = true ∧
  rangeOrder envUp (ranged freshWorld) deadThenLive
    = [] ++ ("a", "http://dead") :: [("b", "http://u2")] ∧
  ("0" +:+ "|" +:+ "a" ∉ TestedIndexes (countRange freshWorld)) ∧
  CheckConcurrency (Cm (instOf cmIdle ["0"; "1"] 3)) "0" = false ∧
  attemptOf envUp (sent (countRange freshWorld)) "GET" "http://dead"
    = Answered fail500 ∧
  tryStreamUrls envUp (instOf cmIdle ["0"; "1"] 3) "GET" "0" deadThenLive freshWorld
    = tryEntries envUp cmIdle "GET" "0" [("b", "http://u2")]
        (appendTested "0|a"
           (countDo (emit (EvDo "GET" "http://dead")
              (emit (EvNewRequest "GET" "http://dead") (countRange freshWorld))))).
Proof.
  assert (Hclient : httpClient (instOf cmIdle ["0"; "1"] 3) = true) by reflexivity.
  assert (Horder : rangeOrder envUp (ranged freshWorld) deadThenLive
            = [] ++ ("a", "http://dead") :: [("b", "http://u2")])
    by (vm_compute; reflexivity).
  assert (Hnin : "0" +:+ "|" +:+ "a" ∉ TestedIndexes (countRange freshWorld))
    by apply not_elem_of_nil.
  assert (Hcap : CheckConcurrency (Cm (instOf cmIdle ["0"; "1"] 3)) "0" = false)
    by (vm_compute; reflexivity).
  split; [exact Hclient|]. split; [exact Horder|]. split; [exact Hnin|].
  split; [exact Hcap|]. split; [reflexivity|].
  destruct (tryStreamUrls_pair envUp (instOf cmIdle ["0"; "1"] 3) "GET" "0"
              deadThenLive freshWorld [] "a" "http://dead" [("b", "http://u2")]
              (countRange freshWorld) Hclient Horder eq_refl) as (_ & H & _).
  specialize (H Hnin Hcap).
  change (attemptOf envUp (sent (countRange freshWorld)) "GET" "http://dead")
    with (Answered fail500) in H.
  change (StatusCode fail500 =? 200) with false in H.
  exact (proj1 H).
Defined.

(** **** C5: the order in which [tryAllStreams] tries the sources *)

Lemma sort_valid_envUp : sort_valid envUp.
Proof.
  intros prio l. split; [apply (insertionSort_perm prio)|apply (insertionSort_sorted prio)].
Qed.




(** **** C6: the order of the sub-indexes *)

Lemma testedKey_inj index s1 s2 : testedKey index s1 = testedKey index s2 → s1 = s2.
Proof.
  unfold testedKey. intros H.
  apply (inj (String.app index)) in H. simpl in H. by injection H.
Qed.

Section Entries.
Context (env : Env) (cm : ConcurrencyManager) (method index : string).

(** [tryEntry] only ever appends the entry's own key. *)
Lemma tryEntry_tested subIndex url w :
  let out := tryEntry env cm method index subIndex url w in
  TestedIndexes out.2 = TestedIndexes w ∨
  (out.1 = None ∧ TestedIndexes out.2 = TestedIndexes w ++ [testedKey index subIndex]).
Proof.
  unfold tryEntry.
  repeat (case_match; simpl; auto).
Qed.

Lemma tryEntry_pick subIndex url w r :
  (tryEntry env cm method index subIndex url w).1 = Some r →
  r = {| LBResponse := LBResponse r; URL := url; Index := index; SubIndex := subIndex |} ∧
  StatusCode (LBResponse r) = 200 ∧
  attemptOf env (sent w) method url = Answered (LBResponse r) ∧
  (testedKey index subIndex ∉ TestedIndexes w) ∧
  CheckConcurrency cm index = false.
Proof.
  unfold tryEntry, attemptOf.
  destruct (slices_Contains _ _) eqn:Hc; [done|].
  apply slices_Contains_false in Hc.
  destruct (CheckConcurrency cm index); [done|].
  destruct (newRequestOk env method url); [|done]. simpl.
  destruct (doRequest env (sent w) method url) as [| |resp]; try done.
  destruct (Z.eqb_spec (StatusCode resp) 200); simpl; [|done].
  intros [= <-]. done.
Qed.

Lemma tryEntry_none subIndex url w :
  (tryEntry env cm method index subIndex url w).1 = None →
  testedKey index subIndex ∈ TestedIndexes w ∨
  CheckConcurrency cm index = true ∨
  (∀ r, attemptOf env (sent w) method url = Answered r → StatusCode r ≠ 200).
Proof.
  unfold tryEntry, attemptOf.
  destruct (slices_Contains _ _) eqn:Hc.
  { apply slices_Contains_elem in Hc. auto. }
  destruct (CheckConcurrency cm index); [auto|].
  destruct (newRequestOk env method url); simpl; [|by auto].
  destruct (doRequest env (sent w) method url) as [| |resp]; try by auto.
  destruct (Z.eqb_spec (StatusCode resp) 200); simpl; [done|].
  intros _. right. right. intros r [= <-]. done.
Qed.

Lemma tryEntries_pick entries w r :
  NoDup entries.*1 →
  (tryEntries env cm method index entries w).1 = Ok r →
  Index r = index ∧ (SubIndex r, URL r) ∈ entries ∧
  StatusCode (LBResponse r) = 200 ∧
  (testedKey index (SubIndex r) ∉ TestedIndexes w) ∧
  CheckConcurrency cm index = false.
Proof.
  revert w. induction entries as [|[s u] rest IH]; intros w Hnd; simpl; [done|].
  apply NoDup_cons in Hnd as [Hs Hnd].
  pose proof (tryEntry_tested s u w) as Ht.
  pose proof (tryEntry_pick s u w) as Hp.
  destruct (tryEntry env cm method index s u w) as [[r'|] w']; simpl in *.
  - intros [= ->]. destruct (Hp r eq_refl) as (-> & H200 & _ & Hnin & Hcap).
    simpl. repeat split; try done. left.
  - intros Hr. destruct (IH w' Hnd Hr) as (Hi & Hin & H200 & Hnin & Hcap).
    repeat split; try done; [by right|].
    destruct Ht as [Ht | [_ Ht]]; rewrite Ht in Hnin; [done|].
    intros Hin'. apply Hnin. apply elem_of_app. by left.
Qed.

Lemma tryEntries_ok_iff entries w :
  time_independent env → NoDup entries.*1 →
  isOk (tryEntries env cm method index entries w).1 = true ↔
  ∃ subIndex url, (subIndex, url) ∈ entries ∧ healthy env cm method index w subIndex url.
Proof.
  intros Hti. revert w.
  assert (Hat : ∀ n url, attemptOf env n method url = attemptOf env 0 method url).
  { intros n url. unfold attemptOf. by rewrite Hti. }
  induction entries as [|[s u] rest IH]; intros w Hnd; simpl.
  { split; [done|]. intros (? & ? & Hin & _). inversion Hin. }
  apply NoDup_cons in Hnd as [Hs Hnd].
  pose proof (tryEntry_tested s u w) as Ht.
  pose proof (tryEntry_pick s u w) as Hp.
  pose proof (tryEntry_none s u w) as Hn.
  destruct (tryEntry env cm method index s u w) as [[r'|] w']; simpl in *.
  - split; [intros _|done].
    destruct (Hp r' eq_refl) as (_ & H200 & Ha & Hnin & Hcap).
    exists s, u. split; [left|]. rewrite Hat in Ha.
    repeat split; eauto.
  - rewrite (IH w' Hnd). specialize (Hn eq_refl).
    assert (Hsame : ∀ s' u', (s', u') ∈ rest →
              (healthy env cm method index w' s' u' ↔ healthy env cm method index w s' u')).
    { intros s' u' Hin. unfold healthy.
      destruct Ht as [Ht | [_ Ht]]; rewrite Ht; [done|].
      rewrite not_elem_of_app, not_elem_of_cons.
      assert (testedKey index s' ≠ testedKey index s).
      { intros ->%testedKey_inj. apply Hs. apply list_elem_of_fmap.
        by exists (s, u'). }
      pose proof (@not_elem_of_nil string (testedKey index s')). tauto. }
    split.
    + intros (s' & u' & Hin & Hh). exists s', u'. split; [by right|by apply Hsame].
    + intros (s' & u' & Hin & Hh).
      apply elem_of_cons in Hin as [[= -> ->]|Hin].
      * exfalso. destruct Hh as (Hnin & Hcap & r & Ha & H200).
        destruct Hn as [Hn|[Hn|Hn]]; [done|congruence|].
        rewrite <- (Hat (sent w)) in Ha. by apply (Hn r).
      * exists s', u'. split; [done|by apply Hsame].
Qed.
End Entries.

(** C6, amended.  [tryStreamUrls] ranges over the sub-index map in the
    order Go's runtime yields, which the code neither fixes nor sorts.
    Whatever that order: a pick is an entry of the map, answered 200, whose
    key was not in [TestedIndexes] and whose source is below its cap; and
    when the upstream's answers do not depend on when it is asked, whether
    [tryStreamUrls] succeeds is the same for every order: it succeeds iff
    the map holds such an entry. *)
Theorem tryStreamUrls_any_order (env : Env) (inst : LoadBalancerInstance)
    (method index : string) (urls : gmap string string) (w : World) :
  range_valid env → httpClient inst = true →
  let out := tryStreamUrls env inst method index urls w in
  (∀ r, out.1 = Ok r →
     Index r = index ∧ urls !! SubIndex r = Some (URL r) ∧
     StatusCode (LBResponse r) = 200 ∧
     (testedKey index (SubIndex r) ∉ TestedIndexes w) ∧
     CheckConcurrency (Cm inst) index = false) ∧
  (time_independent env →
     isOk out.1 = true ↔
     ∃ subIndex url, urls !! subIndex = Some url ∧
                     healthy env (Cm inst) method index w subIndex url).
Proof.
  intros Hrange Hclient out. subst out. unfold tryStreamUrls. rewrite Hclient. simpl.
  specialize (Hrange (ranged w) urls).
  assert (Hnd : NoDup (rangeOrder env (ranged w) urls).*1).
  { rewrite Hrange. apply NoDup_fst_map_to_list. }
  split.
  - intros r Hr.
    destruct (tryEntries_pick env (Cm inst) method index _ _ r Hnd Hr)
      as (Hi & Hin & H200 & Hnin & Hcap).
    rewrite Hrange in Hin. apply elem_of_map_to_list in Hin. done.
  - intros Hti. rewrite (tryEntries_ok_iff env (Cm inst) method index _ _ Hti Hnd).
    split; intros (s & u & Hin & Hh); exists s, u; (split; [|exact Hh]).
    + rewrite Hrange in Hin. by apply elem_of_map_to_list in Hin.
    + rewrite Hrange. by apply elem_of_map_to_list.
Qed.

Lemma range_valid_envUp : range_valid envUp.
Proof. intros n m. reflexivity. Qed.

Lemma range_valid_envUpRev : range_valid envUpRev.
Proof. intros n m. apply reverse_Permutation. Qed.

Lemma tryStreamUrls_any_order_witness :
  range_valid envUpRev ∧
  httpClient (instOf cmIdle ["0"; "1"] 3) = true ∧
  time_independent envUpRev ∧
  isOk (tryStreamUrls envUpRev (instOf cmIdle ["0"; "1"] 3) "GET" "0"
          twoSubs freshWorld).1 = true.
Proof.
  assert (Hti : time_independent envUpRev) by (intros n method url; reflexivity).
  split; [apply range_valid_envUpRev|]. split; [reflexivity|].
  split; [exact Hti|].
  destruct (tryStreamUrls_any_order envUpRev (instOf cmIdle ["0"; "1"] 3) "GET" "0"
              twoSubs freshWorld range_valid_envUpRev eq_refl) as [_ H].
  apply (H Hti). exists "a", "http://u1". split; [vm_compute; reflexivity|].
  split; [apply not_elem_of_nil|]. split; [vm_compute; reflexivity|].
  exists ok200. split; vm_compute; reflexivity.
Defined.

(** C6, as stated, fails: the same session, concurrency table, URL map and
    upstream answers, two orders the runtime may range over the map in, and
    two different picks. *)
Lemma range_order_changes_pick :
  range_valid envUp ∧ range_valid envUpRev ∧
  ∃ r1 r2 w1 w2,
    tryStreamUrls envUp (instOf cmIdle ["0"; "1"] 3) "GET" "0" twoSubs freshWorld
      = (Ok r1, w1) ∧
    tryStreamUrls envUpRev (instOf cmIdle ["0"; "1"] 3) "GET" "0" twoSubs freshWorld
      = (Ok r2, w2) ∧
    SubIndex r1 = "a" ∧ SubIndex r2 = "b".
Proof.
  split; [apply range_valid_envUp|]. split; [apply range_valid_envUpRev|].
  do 4 eexists. repeat split; vm_compute; reflexivity.
Qed.

(** **** C1: the laps of [Balance] *)

Lemma inBudget_spec n k : inBudget n k = true ↔ n = 0 ∨ Z.of_nat k < n.
Proof. unfold inBudget. rewrite orb_true_iff, Z.ltb_lt, Z.eqb_eq. tauto. Qed.

Lemma inBudget_earlier n j k : (j ≤ k)%nat → inBudget n k = true → inBudget n j = true.
Proof. rewrite !inBudget_spec. lia. Qed.

Section Laps.
Context (env : Env) (inst : LoadBalancerInstance) (method : string).
Context (b0 : BackoffStrategy) (w0 : World).

(** Running the loop up to lap [k] is running on from the state at lap [k]. *)
Lemma lapBody_cases k b w :
  lapBody env inst method k b w =
  match tryAllStreams env inst (ctxDoneAtTry env k) method w with
  | (Ok r, w1) => (Return (Ok r), w1)
  | (Err e, w1) =>
      let w3 := emit (EvWait (current b)) (SetTestedIndexes [] w1) in
      if isCanceled e then (Return (Err ErrCancelling), w1)
      else if ctxDoneInWait env k then (Return (Err ErrCancelling), w3)
      else (NextLap (Next b).2, w3)
  end.
Proof.
  unfold lapBody.
  destruct (tryAllStreams env inst (ctxDoneAtTry env k) method w) as [[r|e] w1]; [done|].
  simpl. destruct (isCanceled e); [done|]. by destruct (ctxDoneInWait env k).
Qed.

Lemma stateAfter_S k :
  stateAfter env inst method (S k) b0 w0 =
  match stateAfter env inst method k b0 w0 with
  | Some (b, w) =>
      match lapBody env inst method k b w with
      | (NextLap b', w') => Some (b', w')
      | (Return _, _) => None
      end
  | None => None
  end.
Proof. reflexivity. Qed.

Lemma laps_S fuel k b w :
  laps (S fuel) env inst method k b w =
  if inBudget (MaxRetries (config inst)) k then
    match lapBody env inst method k b w with
    | (Return r, w') => Some (r, w')
    | (NextLap b', w') => laps fuel env inst method (S k) b' w'
    end
  else Some (Err ErrExhausted, w).
Proof. reflexivity. Qed.

(** Running the loop up to lap [k] is running on from the state at lap [k]. *)
Lemma laps_stateAfter k : ∀ fuel b w,
  stateAfter env inst method k b0 w0 = Some (b, w) →
  (∀ j, (j < k)%nat → inBudget (MaxRetries (config inst)) j = true) →
  laps (k + fuel) env inst method 0 b0 w0 = laps fuel env inst method k b w.
Proof.
  induction k as [|k IH]; intros fuel b w Hst Hbud.
  - simpl in Hst. by injection Hst as -> ->.
  - rewrite stateAfter_S in Hst.
    destruct (stateAfter env inst method k b0 w0) as [[b1 w1]|] eqn:Hk; [|done].
    destruct (lapBody env inst method k b1 w1) as [[r|b2] w2] eqn:Hlap; [done|].
    injection Hst as -> ->.
    replace (S k + fuel)%nat with (k + S fuel)%nat by lia.
    rewrite (IH (S fuel) b1 w1 eq_refl) by (intros; apply Hbud; lia).
    rewrite laps_S, (Hbud k) by lia. by rewrite Hlap.
Qed.

Lemma laps_at k fuel b w :
  stateAfter env inst method k b0 w0 = Some (b, w) →
  (∀ j, (j < k)%nat → inBudget (MaxRetries (config inst)) j = true) →
  (k < fuel)%nat →
  laps fuel env inst method 0 b0 w0 = laps (fuel - k) env inst method k b w.
Proof.
  intros Hst Hbud Hlt. rewrite <- (laps_stateAfter k (fuel - k) b w Hst Hbud).
  f_equal. lia.
Qed.
End Laps.

(** Past its checks of the arguments and of the channel, [Balance] is the
    loop, started at lap 0 with the backoff at 200 ms. *)
Lemma Balance_enters_laps fuel env inst args w r stream :
  ctxNil args = false → sessionNil args = false → req args = Some r →
  Method r ≠ "" →
  beforeFirstDot (path_Base (default "/" (URLPath r))) ≠ "" →
  fetchBackendUrls inst
    (trimSlashPrefix (beforeFirstDot (path_Base (default "/" (URLPath r)))))
    = Ok stream →
  Balance fuel env inst args w =
  laps fuel env (setInfo inst stream) (Method r) 0 (NewBackoffStrategy 200 2000) w.
Proof.
  intros Hctx Hsess Hreq Hmethod Hid Hfetch. unfold Balance.
  rewrite Hctx, Hsess, Hreq.
  destruct (String.eqb_spec (Method r) ""); [done|].
  destruct (String.eqb_spec (beforeFirstDot (path_Base (default "/" (URLPath r)))) "");
    [done|].
  by rewrite Hfetch.
Qed.

(** With a retry budget other than 0 the loop returns within the budget:
    fuel above [MaxRetries] is always enough. *)
Lemma laps_within_budget env inst method : ∀ fuel lap b w,
  MaxRetries (config inst) ≠ 0 →
  (Z.to_nat (MaxRetries (config inst)) - lap < fuel)%nat →
  ∃ r w', laps fuel env inst method lap b w = Some (r, w').
Proof.
  induction fuel as [|fuel IH]; intros lap b w Hn Hfuel; [lia|].
  rewrite laps_S.
  destruct (inBudget (MaxRetries (config inst)) lap) eqn:Hb; [|by eauto].
  apply inBudget_spec in Hb.
  destruct (lapBody env inst method lap b w) as [[r|b'] w']; [by eauto|].
  apply IH; [done|lia].
Qed.

(** The only error of the loop over the sources is "no available streams":
    [context.Canceled] comes from the [select] before it, with the world
    untouched. *)
Lemma tryIndexes_err env inst method indexes : ∀ w e w',
  tryIndexes env inst method indexes w = (Err e, w') → e = ErrNoAvailableStreams.
Proof.
  induction indexes as [|i idx IH]; intros w e w'; simpl; [by intros [= <- _]|].
  destruct (URLs (Info inst) !! i) as [urls|]; [|apply IH].
  destruct (tryStreamUrls env inst method i urls w) as [[r|e1] w1]; [done|apply IH].
Qed.

Lemma tryAllStreams_canceled env inst ctxDone method w w' :
  tryAllStreams env inst ctxDone method w = (Err ContextCanceled, w') → w' = w.
Proof.
  unfold tryAllStreams.
  destruct (indexProvider inst) as [l|]; [|done].
  destruct (length l =? 0)%nat; [done|].
  destruct ctxDone; [by intros [= <-]|].
  intros H. by apply tryIndexes_err in H.
Qed.

(** C1, amended.  A call of [Balance] whose arguments pass the checks and
    whose channel is found runs laps 0, 1, ... while [lap < MaxRetries] or
    [MaxRetries = 0].  Let lap [k] be reached, every earlier lap having
    failed and waited without cancellation.  If the budget is spent at [k]
    the call returns the "exhausted all streams" error.  Otherwise: a lap
    whose [tryAllStreams] succeeds makes [Balance] return its result at
    once; a lap that fails with [context.Canceled] makes it return the
    cancellation error at once, [TestedIndexes] left as they are and
    without waiting; after any other failure [TestedIndexes] is set to the
    empty list and the balancer waits [Backoff.Next()], [Balance] returning
    the cancellation error if the context is done during the wait and
    going on to lap [k+1] if not. *)
Theorem Balance_laps (env : Env) (inst : LoadBalancerInstance) (args : BalanceArgs)
    (rq : Request) (stream : StreamInfo) (w0 : World)
    (k : nat) (bk : BackoffStrategy) (wk : World) :
  ctxNil args = false → sessionNil args = false → req args = Some rq →
  Method rq ≠ "" →
  beforeFirstDot (path_Base (default "/" (URLPath rq))) ≠ "" →
  fetchBackendUrls inst (streamUrlOf (default "/" (URLPath rq))) = Ok stream →
  let live := setInfo inst stream in
  let method := Method rq in
  stateAfter env live method k (NewBackoffStrategy 200 2000) w0 = Some (bk, wk) →
  let n := MaxRetries (config inst) in
  let run fuel := Balance fuel env inst args w0 in
  (n ≠ 0 → Z.of_nat k = Z.max 0 n →
     ∀ fuel, (k < fuel)%nat → run fuel = Some (Err ErrExhausted, wk)) ∧
  ((n = 0 ∨ Z.of_nat k < n) →
     ∀ fuel, (k < fuel)%nat →
     match tryAllStreams env live (ctxDoneAtTry env k) method wk with
     | (Ok r, w') => run fuel = Some (Ok r, w')
     | (Err ContextCanceled, w') =>
         run fuel = Some (Err ErrCancelling, w') ∧
         TestedIndexes w' = TestedIndexes wk ∧ trace w' = trace wk
     | (Err _, w') =>
         let w'' := emit (EvWait (current bk)) (SetTestedIndexes [] w') in
         TestedIndexes w'' = [] ∧
         if ctxDoneInWait env k then run fuel = Some (Err ErrCancelling, w'')
         else stateAfter env live method (S k) (NewBackoffStrategy 200 2000) w0
              = Some ((Next bk).2, w'')
     end).
Proof.
  intros Hctx Hsess Hreq Hmethod Hid Hfetch live method Hst n run.
  assert (Hrun : ∀ fuel, run fuel =
            laps fuel env live method 0 (NewBackoffStrategy 200 2000) w0).
  { intros fuel. subst run. by apply Balance_enters_laps. }
  assert (Hn : MaxRetries (config live) = n) by reflexivity.
  split.
  - intros Hn0 Hk fuel Hfuel. rewrite Hrun.
    rewrite (laps_at env live method _ w0 k fuel bk wk Hst); [| |done].
    + destruct (fuel - k)%nat as [|f] eqn:Hf; [lia|]. rewrite laps_S.
      destruct (inBudget (MaxRetries (config live)) k) eqn:Hb; [|done].
      apply inBudget_spec in Hb. rewrite Hn in Hb. lia.
    + intros j Hj. apply inBudget_spec. rewrite Hn. lia.
  - intros Hin fuel Hfuel. rewrite Hrun.
    assert (Hb : inBudget n k = true) by by apply inBudget_spec.
    rewrite (laps_at env live method _ w0 k fuel bk wk Hst); [| |done].
    2:{ intros j Hj. rewrite Hn. apply (inBudget_earlier n j k); [lia|done]. }
    destruct (fuel - k)%nat as [|f] eqn:Hf; [lia|].
    rewrite laps_S, stateAfter_S, Hst, Hn, Hb.
    rewrite lapBody_cases.
    pose proof (tryAllStreams_canceled env live (ctxDoneAtTry env k) method wk)
      as Hcancel.
    destruct (tryAllStreams env live (ctxDoneAtTry env k) method wk) as [[r|e] w']
      eqn:Htry; [done|].
    destruct e; simpl; try done; try (split; [done|]; by destruct (ctxDoneInWait env k)).
    by rewrite (Hcancel w' eq_refl).
Qed.

Lemma Balance_laps_witness :
  ∃ bk wk,
    stateAfter envDown (setInfo (instOf cmIdle ["0"; "1"] 2) twoSources) "GET" 2
      (NewBackoffStrategy 200 2000) freshWorld = Some (bk, wk) ∧
    Balance 5 envDown (instOf cmIdle ["0"; "1"] 2) getNews freshWorld
      = Some (Err ErrExhausted, wk).
Proof.
  destruct (stateAfter envDown (setInfo (instOf cmIdle ["0"; "1"] 2) twoSources)
              "GET" 2 (NewBackoffStrategy 200 2000) freshWorld)
    as [[bk wk]|] eqn:Hst; [|vm_compute in Hst; discriminate].
  exists bk, wk. split; [reflexivity|].
  destruct (Balance_laps envDown (instOf cmIdle ["0"; "1"] 2) getNews
              {| Method := "GET"; URLPath := Some "/stream/news.mp4";
                 RemoteAddr := "10.0.0.7:5000" |}
              twoSources freshWorld 2 bk wk)
    as [H _]; try reflexivity; try discriminate.
  - exact Hst.
  - apply H; [discriminate | reflexivity | lia].
Defined.

(** C1, as stated, fails: the context is cancelled when lap 0 starts.  The
    lap fails, and [Balance] returns the cancellation error with the session's
    [TestedIndexes] still holding "0|a" and without any wait. *)
Lemma Balance_cancelled_lap_keeps_tested :
  tryAllStreams envCancelled (instOf cmIdle ["0"; "1"] 3)
    (ctxDoneAtTry envCancelled 0) "GET" testedWorld
    = (Err ContextCanceled, testedWorld) ∧
  Balance 5 envCancelled (instOf cmIdle ["0"; "1"] 3) getNews testedWorld
    = Some (Err ErrCancelling, testedWorld) ∧
  TestedIndexes testedWorld = ["0|a"] ∧
  trace testedWorld = [].
Proof. repeat split; vm_compute; reflexivity. Qed.

(** X1.  With a retry budget other than 0, [Balance] returns: whatever the
    upstreams and the context do, fuel above [MaxRetries] is enough for the
    call to end with a result or an error. *)
Theorem Balance_returns_within_budget (fuel : nat) (env : Env)
    (inst : LoadBalancerInstance) (args : BalanceArgs) (w : World) :
  MaxRetries (config inst) ≠ 0 →
  (Z.to_nat (MaxRetries (config inst)) < fuel)%nat →
  ∃ r w', Balance fuel env inst args w = Some (r, w').
Proof.
  intros Hn Hfuel. unfold Balance.
  destruct (ctxNil args); [by eauto|].
  destruct (sessionNil args); [by eauto|].
  destruct (req args) as [r|]; [|by eauto].
  destruct (String.eqb (Method r) ""); [by eauto|].
  destruct (String.eqb _ ""); [by eauto|].
  destruct (fetchBackendUrls inst _) as [stream|e]; [|by eauto].
  apply laps_within_budget; simpl; [done|lia].
Qed.

Lemma Balance_returns_within_budget_witness :
  MaxRetries (config (instOf cmIdle ["0"; "1"] 2)) ≠ 0 ∧
  ∃ r w', Balance 3 envDown (instOf cmIdle ["0"; "1"] 2) getNews freshWorld
          = Some (r, w').
Proof.
  assert (Hn : MaxRetries (config (instOf cmIdle ["0"; "1"] 2)) ≠ 0) by discriminate.
  split; [exact Hn|].
  apply (Balance_returns_within_budget 3 envDown (instOf cmIdle ["0"; "1"] 2)
           getNews freshWorld Hn).
  simpl. lia.
Defined.

(** **** Further properties of the balancer *)

Lemma range_valid_envDown : range_valid envDown.
Proof. intros n m. reflexivity. Qed.

Lemma lapStep_refl inst method w b : lapStep inst method w w b.
Proof.
  exists [], []. rewrite app_nil_r. repeat split; try done.
  - intros e He. inversion He.
  - simpl. lia.
Qed.

Lemma lapStep_trans inst method w1 w2 w3 b :
  lapStep inst method w1 w2 false → lapStep inst method w2 w3 b →
  lapStep inst method w1 w3 b.
Proof.
  intros (e1 & a1 & Ht1 & He1 & Ha1 & Hn1 & Hs1) (e2 & a2 & Ht2 & He2 & Ha2 & Hn2 & Hs2).
  exists (e2 ++ e1), (a1 ++ a2). repeat split.
  - by rewrite Ht2, Ht1, app_assoc.
  - intros e [H|H]%elem_of_app; auto.
  - by rewrite Ha2, Ha1, app_assoc.
  - auto.
  - rewrite length_app. lia.
Qed.

Section Step.
Context (env : Env) (inst : LoadBalancerInstance) (method index : string).
Context (urls : gmap string string) (Hurls : URLs (Info inst) !! index = Some urls).

Lemma tryEntry_lapStep subIndex url w :
  urls !! subIndex = Some url →
  let out := tryEntry env (Cm inst) method index subIndex url w in
  lapStep inst method w out.2 (match out.1 with Some _ => true | None => false end) ∧
  ranged out.2 = ranged w.
Proof.
  intros Hu. unfold tryEntry.
  destruct (slices_Contains _ _) eqn:Hc; [split; [apply lapStep_refl|done]|].
  apply slices_Contains_false in Hc.
  destruct (CheckConcurrency (Cm inst) index) eqn:Hcap; [split; [apply lapStep_refl|done]|].
  assert (Hreq : ∀ e, e ∈ [EvDo method url; EvNewRequest method url] →
                      requestBelowCap inst method e).
  { intros e He. exists index, urls, subIndex, url. repeat split; try done.
    apply elem_of_cons in He as [->|He]; [by right|].
    apply list_elem_of_singleton in He as ->. by left. }
  assert (Hnd : NoDup (TestedIndexes w) →
                NoDup (TestedIndexes w ++ [testedKey index subIndex])).
  { intros H. apply NoDup_app. repeat split; [done| |apply NoDup_singleton].
    intros x Hx ->%list_elem_of_singleton. done. }
  destruct (newRequestOk env method url); simpl.
  - destruct (doRequest env (sent w) method url) as [| |r]; simpl.
    1,2: split; [|done];
      exists [EvDo method url; EvNewRequest method url], [testedKey index subIndex];
      simpl; repeat split; try done; lia.
    destruct (StatusCode r =? 200); simpl; (split; [|done]).
    + exists [EvDo method url; EvNewRequest method url], [].
      simpl. rewrite app_nil_r. repeat split; try done. lia.
    + exists [EvDo method url; EvNewRequest method url], [testedKey index subIndex].
      simpl. repeat split; try done. lia.
  - split; [|done]. exists [EvNewRequest method url], [testedKey index subIndex].
    simpl. repeat split; try done; [|lia].
    intros e He. apply Hreq. by right.
Qed.

Lemma tryEntries_lapStep entries : ∀ w,
  (∀ s u, (s, u) ∈ entries → urls !! s = Some u) →
  let out := tryEntries env (Cm inst) method index entries w in
  lapStep inst method w out.2 (isOk out.1) ∧ ranged out.2 = ranged w.
Proof.
  induction entries as [|[s u] rest IH]; intros w Hin; simpl.
  - split; [apply lapStep_refl|done].
  - destruct (tryEntry_lapStep s u w) as [Hstep Hr]; [apply Hin; left|].
    destruct (tryEntry env (Cm inst) method index s u w) as [[r|] w1]; simpl in *.
    + split; [|done]. exact Hstep.
    + destruct (IH w1) as [Hrest Hr2]; [intros; apply Hin; by right|].
      split; [|congruence]. eapply lapStep_trans; eauto.
Qed.
End Step.

Lemma lapStep_count inst method w w' b :
  sent w' = sent w → TestedIndexes w' = TestedIndexes w → trace w' = trace w →
  lapStep inst method w w' b.
Proof.
  intros Hs Ht Htr. exists [], []. rewrite app_nil_r. repeat split; try done.
  - intros e He. inversion He.
  - by rewrite Ht.
  - simpl. lia.
Qed.

Lemma tryStreamUrls_lapStep env inst method index urls w :
  range_valid env → URLs (Info inst) !! index = Some urls →
  let out := tryStreamUrls env inst method index urls w in
  lapStep inst method w out.2 (isOk out.1).
Proof.
  intros Hrange Hurls. unfold tryStreamUrls.
  destruct (httpClient inst); simpl; [|apply lapStep_refl].
  destruct (tryEntries_lapStep env inst method index urls Hurls
              (rangeOrder env (ranged w) urls) (countRange w)) as [Hstep _].
  { intros s u Hin. rewrite (Hrange (ranged w) urls) in Hin.
    by apply elem_of_map_to_list in Hin. }
  eapply lapStep_trans; [|exact Hstep]. by apply lapStep_count.
Qed.

Lemma tryIndexes_lapStep env inst method indexes : ∀ w,
  range_valid env →
  let out := tryIndexes env inst method indexes w in
  lapStep inst method w out.2 (isOk out.1).
Proof.
  induction indexes as [|index rest IH]; intros w Hrange; simpl.
  - apply lapStep_refl.
  - destruct (URLs (Info inst) !! index) as [urls|] eqn:Hurls; [|by apply IH].
    pose proof (tryStreamUrls_lapStep env inst method index urls w Hrange Hurls) as Hs.
    destruct (tryStreamUrls env inst method index urls w) as [[r|e] w1]; simpl in *.
    + done.
    + eapply lapStep_trans; [exact Hs|]. by apply IH.
Qed.

Lemma tryAllStreams_lapStep env inst ctxDone method w :
  range_valid env →
  let out := tryAllStreams env inst ctxDone method w in
  lapStep inst method w out.2 (isOk out.1).
Proof.
  intros Hrange. unfold tryAllStreams.
  destruct (indexProvider inst) as [l|]; [|apply lapStep_refl].
  destruct (length l =? 0)%nat; [apply lapStep_refl|].
  destruct ctxDone; [apply lapStep_refl|]. by apply tryIndexes_lapStep.
Qed.

(** X5.  One pass of [tryAllStreams] only ever builds or sends requests to
    URLs the channel lists under a source that is below its cap: every
    event it adds to the trace is such a request. *)
Theorem tryAllStreams_requests_below_cap (env : Env) (inst : LoadBalancerInstance)
    (ctxDone : bool) (method : string) (w : World) :
  range_valid env →
  ∃ evs, trace (tryAllStreams env inst ctxDone method w).2 = evs ++ trace w ∧
         ∀ e, e ∈ evs → requestBelowCap inst method e.
Proof.
  intros Hrange.
  destruct (tryAllStreams_lapStep env inst ctxDone method w Hrange)
    as (evs & added & Ht & He & _).
  by exists evs.
Qed.

Lemma tryAllStreams_requests_below_cap_witness :
  range_valid envUp ∧
  ∃ evs, trace (tryAllStreams envUp instDeadAndLive false "GET" freshWorld).2
           = evs ++ trace freshWorld ∧
         ∀ e, e ∈ evs → requestBelowCap instDeadAndLive "GET" e.
Proof.
  split; [apply range_valid_envUp|].
  apply (tryAllStreams_requests_below_cap envUp instDeadAndLive false "GET"
           freshWorld range_valid_envUp).
Defined.

(** X6.  One pass of [tryAllStreams] only appends to [TestedIndexes], never
    introduces a duplicate key, and sends at most one request per key it
    appends, plus one for the entry it picks. *)
Theorem tryAllStreams_session (env : Env) (inst : LoadBalancerInstance)
    (ctxDone : bool) (method : string) (w : World) :
  range_valid env →
  let out := tryAllStreams env inst ctxDone method w in
  ∃ added,
    TestedIndexes out.2 = TestedIndexes w ++ added ∧
    (NoDup (TestedIndexes w) → NoDup (TestedIndexes out.2)) ∧
    (sent out.2 ≤ sent w + length added + (if isOk out.1 then 1 else 0))%nat.
Proof.
  intros Hrange out.
  destruct (tryAllStreams_lapStep env inst ctxDone method w Hrange)
    as (evs & added & _ & _ & Ha & Hn & Hs).
  by exists added.
Qed.

Lemma tryAllStreams_session_witness :
  range_valid envUp ∧
  ∃ added,
    TestedIndexes (tryAllStreams envUp instDeadAndLive false "GET" freshWorld).2
      = TestedIndexes freshWorld ++ added ∧
    (NoDup (TestedIndexes freshWorld) →
     NoDup (TestedIndexes
              (tryAllStreams envUp instDeadAndLive false "GET" freshWorld).2)) ∧
    (sent (tryAllStreams envUp instDeadAndLive false "GET" freshWorld).2
     ≤ sent freshWorld + length added +
       (if isOk (tryAllStreams envUp instDeadAndLive false "GET" freshWorld).1
        then 1 else 0))%nat.
Proof.
  split; [apply range_valid_envUp|].
  apply (tryAllStreams_session envUp instDeadAndLive false "GET" freshWorld
           range_valid_envUp).
Defined.

Lemma waits_requests inst method evs t :
  (∀ e, e ∈ evs → requestBelowCap inst method e) → waits (evs ++ t) = waits t.
Proof.
  induction evs as [|e evs IH]; intros H; [done|]. simpl.
  assert (IH' : waits (evs ++ t) = waits t)
    by (apply IH; intros e' He'; apply H; by right).
  destruct (H e (list_elem_of_here _ _)) as (? & ? & ? & ? & _ & _ & _ & [-> | ->]);
    exact IH'.
Qed.

Lemma lapBody_next env inst method lap b w b' w' :
  range_valid env →
  lapBody env inst method lap b w = (NextLap b', w') →
  TestedIndexes w' = [] ∧ ∃ d, waits (trace w') = d :: waits (trace w).
Proof.
  intros Hrange. rewrite lapBody_cases.
  destruct (tryAllStreams_lapStep env inst (ctxDoneAtTry env lap) method w Hrange)
    as (evs & added & Ht & He & _).
  destruct (tryAllStreams env inst (ctxDoneAtTry env lap) method w) as [[r|e] w1];
    [done|]. simpl in *.
  destruct (isCanceled e); [done|]. destruct (ctxDoneInWait env lap); [done|].
  intros [= _ <-]. split; [done|]. exists (current b). simpl.
  by rewrite Ht, (waits_requests inst method).
Qed.

Lemma lapBody_return env inst method lap b w r w' :
  lapBody env inst method lap b w = (Return r, w') →
  isOk r = true ∨ r = Err ErrCancelling.
Proof.
  rewrite lapBody_cases.
  destruct (tryAllStreams env inst (ctxDoneAtTry env lap) method w) as [[r0|e] w1].
  - intros [= <- _]. by left.
  - simpl. destruct (isCanceled e); [intros [= <- _]; by right|].
    destruct (ctxDoneInWait env lap); [intros [= <- _]; by right|done].
Qed.

Lemma laps_exhausted env inst method : ∀ fuel lap b w w',
  range_valid env → MaxRetries (config inst) ≠ 0 →
  laps fuel env inst method lap b w = Some (Err ErrExhausted, w') →
  (lap ≤ Z.to_nat (MaxRetries (config inst)))%nat →
  ((lap < Z.to_nat (MaxRetries (config inst)))%nat ∨ TestedIndexes w = []) →
  TestedIndexes w' = [] ∧
  length (waits (trace w')) =
    (length (waits (trace w)) + (Z.to_nat (MaxRetries (config inst)) - lap))%nat.
Proof.
  induction fuel as [|fuel IH]; intros lap b w w' Hrange Hn Hl Hle Hpre; [done|].
  rewrite laps_S in Hl.
  destruct (inBudget (MaxRetries (config inst)) lap) eqn:Hb.
  - apply inBudget_spec in Hb.
    destruct (lapBody env inst method lap b w) as [[r|b1] w1] eqn:Hlap.
    + injection Hl as -> ->.
      by destruct (lapBody_return _ _ _ _ _ _ _ _ Hlap).
    + destruct (lapBody_next _ _ _ _ _ _ _ _ Hrange Hlap) as (Ht & d & Hw).
      destruct (IH (S lap) b1 w1 w' Hrange Hn Hl) as [H1 H2]; [lia|by right|].
      split; [done|]. rewrite H2, Hw. simpl. lia.
  - injection Hl as <-.
    assert (Hnb : ¬ (MaxRetries (config inst) = 0 ∨
                     Z.of_nat lap < MaxRetries (config inst))).
    { rewrite <- inBudget_spec. congruence. }
    destruct Hpre as [Hlt|Hpre]; [lia|]. split; [done|]. lia.
Qed.

Lemma laps_errors env inst method : ∀ fuel lap b w e w',
  laps fuel env inst method lap b w = Some (Err e, w') →
  e = ErrCancelling ∨ e = ErrExhausted.
Proof.
  induction fuel as [|fuel IH]; intros lap b w e w' Hl; [done|].
  rewrite laps_S in Hl.
  destruct (inBudget (MaxRetries (config inst)) lap); [|injection Hl as <-; by right].
  destruct (lapBody env inst method lap b w) as [[r|b1] w1] eqn:Hlap.
  - injection Hl as -> ->.
    destruct (lapBody_return _ _ _ _ _ _ _ _ Hlap) as [|[= ->]]; [done|by left].
  - by eapply IH.
Qed.

(** X8.  The errors of [Balance]: a setup error, returned with the world
    untouched, or cancellation, or the exhausted budget.  The errors of the
    passes themselves never reach the caller. *)
Theorem Balance_errors (fuel : nat) (env : Env) (inst : LoadBalancerInstance)
    (args : BalanceArgs) (w : World) (e : error) (w' : World) :
  Balance fuel env inst args w = Some (Err e, w') →
  (isSetupError e = true ∧ w' = w) ∨ e = ErrCancelling ∨ e = ErrExhausted.
Proof.
  unfold Balance.
  destruct (ctxNil args); [intros [= <- <-]; by left|].
  destruct (sessionNil args); [intros [= <- <-]; by left|].
  destruct (req args) as [r|]; [|intros [= <- <-]; by left].
  destruct (String.eqb (Method r) ""); [intros [= <- <-]; by left|].
  destruct (String.eqb _ ""); [intros [= <- <-]; by left|].
  destruct (fetchBackendUrls inst _) as [stream|e0]; [|intros [= <- <-]; by left].
  intros Hl. right. by eapply laps_errors.
Qed.

Lemma Balance_errors_witness :
  ∃ w', Balance 3 envDown (instOf cmIdle ["0"; "1"] 2) getNews freshWorld
          = Some (Err ErrExhausted, w') ∧
        ((isSetupError ErrExhausted = true ∧ w' = freshWorld) ∨
         ErrExhausted = ErrCancelling ∨ ErrExhausted = ErrExhausted).
Proof.
  assert (H : ∃ w', Balance 3 envDown (instOf cmIdle ["0"; "1"] 2) getNews freshWorld
                      = Some (Err ErrExhausted, w'))
    by (eexists; vm_compute; reflexivity).
  destruct H as [w' H]. exists w'. split; [exact H|].
  apply (Balance_errors 3 envDown (instOf cmIdle ["0"; "1"] 2) getNews freshWorld
           ErrExhausted w' H).
Defined.

(** X7.  When [Balance] gives up on a positive budget, it has waited
    exactly [MaxRetries] times and leaves [TestedIndexes] empty. *)
Theorem Balance_exhausted (fuel : nat) (env : Env) (inst : LoadBalancerInstance)
    (args : BalanceArgs) (w w' : World) :
  range_valid env → 0 < MaxRetries (config inst) →
  Balance fuel env inst args w = Some (Err ErrExhausted, w') →
  TestedIndexes w' = [] ∧
  length (waits (trace w')) =
    (length (waits (trace w)) + Z.to_nat (MaxRetries (config inst)))%nat.
Proof.
  intros Hrange Hn. unfold Balance.
  destruct (ctxNil args); [done|]. destruct (sessionNil args); [done|].
  destruct (req args) as [r|]; [|done].
  destruct (String.eqb (Method r) ""); [done|].
  destruct (String.eqb _ ""); [done|].
  destruct (fetchBackendUrls inst _) as [stream|e0]; [|done].
  intros Hl.
  assert (Hn' : MaxRetries (config (setInfo inst stream)) ≠ 0) by (simpl; lia).
  assert (Hpos : (0 < Z.to_nat (MaxRetries (config (setInfo inst stream))))%nat)
    by (simpl; lia).
  destruct (laps_exhausted env (setInfo inst stream) (Method r) fuel 0
              (NewBackoffStrategy 200 2000) w w' Hrange Hn' Hl) as [H1 H2];
    [lia | by left |].
  split; [done|]. rewrite H2. simpl. lia.
Qed.

Lemma Balance_exhausted_witness :
  range_valid envDown ∧
  0 < MaxRetries (config (instOf cmIdle ["0"; "1"] 2)) ∧
  ∃ w', Balance 3 envDown (instOf cmIdle ["0"; "1"] 2) getNews freshWorld
          = Some (Err ErrExhausted, w') ∧
        TestedIndexes w' = [] ∧
        length (waits (trace w')) =
          (length (waits (trace freshWorld)) +
           Z.to_nat (MaxRetries (config (instOf cmIdle ["0"; "1"] 2))))%nat.
Proof.
  assert (Hpos : 0 < MaxRetries (config (instOf cmIdle ["0"; "1"] 2)))
    by (simpl; lia).
  split; [apply range_valid_envDown|]. split; [exact Hpos|].
  assert (H : ∃ w', Balance 3 envDown (instOf cmIdle ["0"; "1"] 2) getNews freshWorld
                      = Some (Err ErrExhausted, w'))
    by (eexists; vm_compute; reflexivity).
  destruct H as [w' H]. exists w'. split; [exact H|].
  apply (Balance_exhausted 3 envDown (instOf cmIdle ["0"; "1"] 2) getNews
           freshWorld w' range_valid_envDown Hpos H).
Defined.

Lemma hasSlash_app a b : hasSlash (a +:+ b) = hasSlash a || hasSlash b.
Proof. induction a as [|c a IH]; simpl; [done|]. by rewrite IH, orb_assoc. Qed.

Lemma strip_no_slash s : hasSlash s = false → stripTrailingSlashes s = s.
Proof.
  induction s as [|c s IH]; simpl; [done|].
  intros [Hc Hs]%orb_false_iff. rewrite (IH Hs), Hc. by rewrite andb_false_r.
Qed.

Lemma strip_app a b :
  b ≠ "" → stripTrailingSlashes b = b → stripTrailingSlashes (a +:+ b) = a +:+ b.
Proof.
  intros Hb Hs. induction a as [|c a IH]; simpl; [done|].
  rewrite IH. destruct (String.eqb_spec (a +:+ b) "") as [He|]; [|done].
  destruct a; simpl in He; [done|discriminate].
Qed.

Lemma lastElement_no_slash s : hasSlash s = false → lastElement s = s.
Proof.
  destruct s as [|c s]; simpl; [done|].
  intros [Hc Hs]%orb_false_iff. by rewrite Hs, Hc.
Qed.

Lemma lastElement_app dir s :
  hasSlash s = false → lastElement (dir +:+ "/" +:+ s) = s.
Proof.
  intros Hs. induction dir as [|c dir IH].
  - change (lastElement (String "/" s) = s). cbn [lastElement]. by rewrite Hs.
  - change (lastElement (String c (dir +:+ "/" +:+ s)) = s). cbn [lastElement].
    rewrite hasSlash_app. cbn [hasSlash String.append]. simpl. rewrite orb_true_r. exact IH.
Qed.

Lemma path_Base_last dir s :
  s ≠ "" → hasSlash s = false → path_Base (dir +:+ "/" +:+ s) = s.
Proof.
  intros Hne Hs. unfold path_Base.
  destruct (String.eqb_spec (dir +:+ "/" +:+ s) "") as [He|_].
  { destruct dir; discriminate. }
  rewrite strip_app.
  - rewrite lastElement_app by done. by destruct (String.eqb_spec s "").
  - done.
  - change (stripTrailingSlashes (String "/" s) = String "/" s).
    cbn [stripTrailingSlashes]. rewrite strip_no_slash by done.
    by destruct (String.eqb_spec s "").
Qed.

Lemma beforeFirstDot_no_dot s : hasDot s = false → beforeFirstDot s = s.
Proof.
  induction s as [|c s IH]; simpl; [done|].
  intros [Hc Hs]%orb_false_iff. by rewrite Hc, IH.
Qed.

Lemma beforeFirstDot_app s ext :
  hasDot s = false → beforeFirstDot (s +:+ "." +:+ ext) = s.
Proof.
  induction s as [|c s IH]; simpl; [done|].
  intros [Hc Hs]%orb_false_iff. by rewrite Hc, IH.
Qed.

Lemma trimSlashPrefix_no_slash s : hasSlash s = false → trimSlashPrefix s = s.
Proof.
  destruct s as [|c s]; simpl; [done|]. intros [Hc _]%orb_false_iff. by rewrite Hc.
Qed.

(** X9.  The channel id of a request: for a path [dir/id.ext] or [dir/id],
    with [id] free of slashes and dots, [Balance] looks up exactly [id]. *)
Theorem streamUrlOf_path (dir id ext : string) :
  id ≠ "" → hasSlash id = false → hasDot id = false → hasSlash ext = false →
  streamUrlOf (dir +:+ "/" +:+ id +:+ "." +:+ ext) = id ∧
  streamUrlOf (dir +:+ "/" +:+ id) = id ∧
  ∀ fuel env inst w ctx r,
    ctxNil ctx = false → sessionNil ctx = false → req ctx = Some r →
    Method r ≠ "" → URLPath r = Some (dir +:+ "/" +:+ id +:+ "." +:+ ext) →
    Balance fuel env inst ctx w =
    match fetchBackendUrls inst id with
    | Ok stream =>
        laps fuel env (setInfo inst stream) (Method r) 0
          (NewBackoffStrategy 200 2000) w
    | Err _ => Some (Err ErrFetchingSources, w)
    end.
Proof.
  intros Hne Hs Hd He.
  assert (Hlast : hasSlash (id +:+ "." +:+ ext) = false).
  { rewrite hasSlash_app, Hs. simpl. exact He. }
  assert (Hlne : id +:+ "." +:+ ext ≠ "") by (destruct id; [done|discriminate]).
  assert (Hb1 : beforeFirstDot (path_Base (dir +:+ "/" +:+ id +:+ "." +:+ ext)) = id).
  { rewrite (path_Base_last dir (id +:+ "." +:+ ext)) by done.
    by apply beforeFirstDot_app. }
  split; [|split].
  - unfold streamUrlOf. rewrite Hb1. by apply trimSlashPrefix_no_slash.
  - unfold streamUrlOf. rewrite path_Base_last, beforeFirstDot_no_dot by done.
    by apply trimSlashPrefix_no_slash.
  - intros fuel env inst w ctx r Hc Hss Hr Hm Hp. unfold Balance.
    rewrite Hc, Hss, Hr, Hp. simpl. rewrite Hb1.
    destruct (String.eqb_spec (Method r) ""); [done|].
    destruct (String.eqb_spec id ""); [done|].
    by rewrite trimSlashPrefix_no_slash.
Qed.

Lemma streamUrlOf_path_witness :
  "news" ≠ "" ∧ hasSlash "news" = false ∧ hasDot "news" = false ∧
  hasSlash "mp4" = false ∧
  streamUrlOf ("/stream" +:+ "/" +:+ "news" +:+ "." +:+ "mp4") = "news".
Proof.
  assert (H1 : "news" ≠ "") by discriminate.
  assert (H2 : hasSlash "news" = false) by reflexivity.
  assert (H3 : hasDot "news" = false) by reflexivity.
  assert (H4 : hasSlash "mp4" = false) by reflexivity.
  split; [exact H1|]. split; [exact H2|]. split; [exact H3|]. split; [exact H4|].
  exact (proj1 (streamUrlOf_path "/stream" "news" "mp4" H1 H2 H3 H4)).
Defined.

Lemma forallb_false_elem {A} (f : A → bool) (l : list A) :
  forallb f l = false → ∃ x, x ∈ l ∧ f x = false.
Proof.
  induction l as [|a l IH]; simpl; [done|].
  destruct (f a) eqn:Ha; simpl.
  - intros (x & Hx & Hf)%IH. exists x. split; [by apply list_elem_of_further|done].
  - intros _. exists a. split; [apply list_elem_of_here|done].
Qed.

(** X10.  [fetchBackendUrls] returns the channel of the slug exactly when
    the slug resolves and the channel lists at least one URL under some
    source. *)
Theorem fetchBackendUrls_ok (inst : LoadBalancerInstance) (slug : string)
    (stream : StreamInfo) :
  fetchBackendUrls inst slug = Ok stream ↔
  slugParser inst slug = Some stream ∧
  ∃ index urls subIndex url,
    URLs stream !! index = Some urls ∧ urls !! subIndex = Some url.
Proof.
  unfold fetchBackendUrls. destruct (slugParser inst slug) as [s|]; [|split; [done|by intros [? _]]].
  destruct (size (URLs s) =? 0)%nat eqn:Hsz.
  { apply Nat.eqb_eq, map_size_empty_iff in Hsz. split; [done|].
    intros [[= ->] (i & u & _ & _ & Hi & _)]. rewrite Hsz in Hi. by rewrite lookup_empty in Hi. }
  destruct (forallb _ _) eqn:Hall.
  - split; [done|]. intros [[= ->] (i & u & si & url & Hi & Hu)].
    rewrite forallb_forall in Hall.
    specialize (Hall (i, u)). simpl in Hall.
    assert (Hin : In (i, u) (map_to_list (URLs stream))).
    { apply list_elem_of_In, elem_of_map_to_list, Hi. }
    apply Hall, Nat.eqb_eq, map_size_empty_iff in Hin. rewrite Hin in Hu.
    by rewrite lookup_empty in Hu.
  - split.
    + intros [= ->]. split; [done|].
      apply forallb_false_elem in Hall as ([i u] & Hin & Hsize).
      apply elem_of_map_to_list in Hin. simpl in Hsize.
      apply Nat.eqb_neq in Hsize.
      destruct (map_choose u) as (si & url & Hu).
      { intros ->. by rewrite map_size_empty in Hsize. }
      by exists i, u, si, url.
    + by intros [[= ->] _].
Qed.

Lemma tryEntry_picked env cm method index subIndex url w r w' :
  tryEntry env cm method index subIndex url w = (Some r, w') →
  TestedIndexes w' = TestedIndexes w ∧
  trace w' = EvDo method url :: EvNewRequest method url :: trace w.
Proof.
  unfold tryEntry. repeat (case_match; try done); by intros [= <- <-].
Qed.

Lemma tryEntries_picked env cm method index entries : ∀ w r w',
  NoDup entries.*1 →
  tryEntries env cm method index entries w = (Ok r, w') →
  Index r = index ∧ (SubIndex r, URL r) ∈ entries ∧
  StatusCode (LBResponse r) = 200 ∧
  CheckConcurrency cm index = false ∧
  (testedKey index (SubIndex r) ∉ TestedIndexes w') ∧
  ∃ t, trace w' = EvDo method (URL r) :: t.
Proof.
  induction entries as [|[s u] rest IH]; intros w r w' Hnd; simpl; [done|].
  apply NoDup_cons in Hnd as [Hs Hnd].
  pose proof (tryEntry_pick env cm method index s u w) as Hp.
  pose proof (tryEntry_picked env cm method index s u w) as Hq.
  destruct (tryEntry env cm method index s u w) as [[r'|] w1].
  - intros [= -> ->]. destruct (Hp r eq_refl) as (Hr & H200 & _ & Hnin & Hcap).
    destruct (Hq r w' eq_refl) as [Ht Htr].
    rewrite Hr. simpl. rewrite Ht.
    repeat split; try done; [left|by eexists].
  - intros Hr. destruct (IH w1 r w' Hnd Hr) as (Hi & Hin & H200 & Hcap & Hnin & Ht).
    repeat split; try done. by right.
Qed.

Lemma tryStreamUrls_picked env inst method index urls w r w' :
  range_valid env → URLs (Info inst) !! index = Some urls →
  tryStreamUrls env inst method index urls w = (Ok r, w') →
  picked inst method r w'.
Proof.
  intros Hrange Hurls. unfold tryStreamUrls.
  destruct (httpClient inst); [|done]. simpl. intros Hr.
  specialize (Hrange (ranged w) urls).
  assert (Hnd : NoDup (rangeOrder env (ranged w) urls).*1).
  { rewrite Hrange. apply NoDup_fst_map_to_list. }
  destruct (tryEntries_picked _ _ _ _ _ _ _ _ Hnd Hr)
    as (Hi & Hin & H200 & Hcap & Hnin & Ht).
  rewrite Hrange in Hin. apply elem_of_map_to_list in Hin.
  unfold picked. rewrite Hi. repeat split; try done. by exists urls.
Qed.

Lemma tryIndexes_picked env inst method indexes : ∀ w r w',
  range_valid env →
  tryIndexes env inst method indexes w = (Ok r, w') → picked inst method r w'.
Proof.
  induction indexes as [|index rest IH]; intros w r w' Hrange; simpl; [done|].
  destruct (URLs (Info inst) !! index) as [urls|] eqn:Hurls; [|by apply IH].
  pose proof (tryStreamUrls_picked env inst method index urls w) as Hp.
  destruct (tryStreamUrls env inst method index urls w) as [[r'|e] w1].
  - intros [= -> ->]. by apply Hp.
  - by apply IH.
Qed.

Lemma tryAllStreams_picked env inst ctxDone method w r w' :
  range_valid env →
  tryAllStreams env inst ctxDone method w = (Ok r, w') → picked inst method r w'.
Proof.
  intros Hrange. unfold tryAllStreams.
  destruct (indexProvider inst) as [m|]; [|done].
  destruct (length m =? 0)%nat; [done|]. destruct ctxDone; [done|].
  by apply tryIndexes_picked.
Qed.

Lemma laps_picked env inst method : ∀ fuel lap b w r w',
  range_valid env →
  laps fuel env inst method lap b w = Some (Ok r, w') → picked inst method r w'.
Proof.
  induction fuel as [|fuel IH]; intros lap b w r w' Hrange Hl; [done|].
  rewrite laps_S in Hl.
  destruct (inBudget (MaxRetries (config inst)) lap); [|done].
  destruct (lapBody env inst method lap b w) as [[r0|b1] w1] eqn:Hlap.
  - injection Hl as -> ->. rewrite lapBody_cases in Hlap.
    pose proof (tryAllStreams_picked env inst (ctxDoneAtTry env lap) method w) as Hp.
    destruct (tryAllStreams env inst (ctxDoneAtTry env lap) method w) as [[r1|e] w2].
    + injection Hlap as -> ->. by apply Hp.
    + simpl in Hlap. destruct (isCanceled e); [done|].
      by destruct (ctxDoneInWait env lap).
  - by eapply IH.
Qed.

(** X11.  A result of [Balance] is an entry of the requested channel,
    answered 200 by a source below its cap; its key is left out of
    [TestedIndexes], and the request that fetched it is the last thing
    [Balance] did. *)
Theorem Balance_ok (fuel : nat) (env : Env) (inst : LoadBalancerInstance)
    (args : BalanceArgs) (w : World) (r : LoadBalancerResult) (w' : World) :
  range_valid env →
  Balance fuel env inst args w = Some (Ok r, w') →
  ∃ rq stream,
    req args = Some rq ∧
    fetchBackendUrls inst (streamUrlOf (default "/" (URLPath rq))) = Ok stream ∧
    picked (setInfo inst stream) (Method rq) r w'.
Proof.
  intros Hrange. unfold Balance.
  destruct (ctxNil args); [done|]. destruct (sessionNil args); [done|].
  destruct (req args) as [rq|]; [|done].
  destruct (String.eqb (Method rq) ""); [done|].
  destruct (String.eqb _ ""); [done|].
  fold (streamUrlOf (default "/" (URLPath rq))).
  destruct (fetchBackendUrls inst _) as [stream|e0] eqn:Hf; [|done].
  intros Hl. exists rq, stream. split; [done|]. split; [done|].
  by eapply laps_picked.
Qed.

Lemma Balance_ok_witness :
  range_valid envUp ∧
  ∃ r w', Balance 3 envUp instDeadAndLive getNews freshWorld = Some (Ok r, w') ∧
    ∃ rq stream,
      req getNews = Some rq ∧
      fetchBackendUrls instDeadAndLive (streamUrlOf (default "/" (URLPath rq)))
        = Ok stream ∧
      picked (setInfo instDeadAndLive stream) (Method rq) r w'.
Proof.
  split; [apply range_valid_envUp|].
  assert (H : ∃ r w', Balance 3 envUp instDeadAndLive getNews freshWorld
                        = Some (Ok r, w'))
    by (do 2 eexists; vm_compute; reflexivity).
  destruct H as (r & w' & H). exists r, w'. split; [exact H|].
  apply (Balance_ok 3 envUp instDeadAndLive getNews freshWorld r w'
           range_valid_envUp H).
Defined.

End LoadBalancerFacts.

(** ** The HLS writer *)

Module HLSFacts.
Import HLS.

(** **** C7: master playlists *)

Lemma parseLine_IsMaster lib base md text :
  IsMaster (parseLine lib base md text) = IsMaster md.
Proof.
  unfold parseLine.
  repeat (case_match; simpl; try reflexivity).
Qed.

Lemma parseLines_IsMaster lib base lines md :
  IsMaster (fold_left (parseLine lib base) lines md) = IsMaster md.
Proof.
  revert md. induction lines as [|l lines IH]; intros md; simpl; [done|].
  by rewrite IH, parseLine_IsMaster.
Qed.

(** [parsePlaylist] never reports a master playlist, whatever the manifest. *)
Lemma parsePlaylist_IsMaster lib url content :
  match (parsePlaylist lib url content).1 with
  | Some md => IsMaster md = false
  | None => True
  end.
Proof.
  unfold parsePlaylist. destruct (url_Parse lib url) as [base|]; [|done].
  destruct (scanLines content) as [lines err]. simpl.
  by rewrite parseLines_IsMaster.
Qed.

(** C7 fails on the code.  The [#EXT-X-STREAM-INF] case of [parsePlaylist]
    is a bare [continue] and nothing else assigns [IsMaster], so the metadata
    of every manifest has [IsMaster = false] and the "master playlist not
    supported" branch of the writer is never taken.  On a master playlist
    with two variants the variant URIs come back as segments, and the
    writer's first poll requests them as segments and goes on, without a
    terminal ServerError chunk. *)
Theorem master_playlist_not_rejected :
  (∀ lib url content md,
     (parsePlaylist lib url content).1 = Some md → IsMaster md = false) ∧
  (parsePlaylist demoLib mediaURL masterManifest).1
    = Some {| TargetDuration := float2; MediaSequence := 0; Version := 0;
              IsEndlist := false;
              Segments := ["http://up/live/low/index.m3u8";
                           "http://up/live/high/index.m3u8"];
              IsMaster := false |} ∧
  ∃ wr w,
    StartHLSWriter cfg15 envServing mediaURL (steadyPolls 0 1)
      (initWriter 0 (Some masterManifest)) emptyWorld = (Continue wr, w) ∧
    requested w = ["http://up/live/low/index.m3u8";
                   "http://up/live/high/index.m3u8"] ∧
    Terminal StatusServerError ∉ written w.
Proof.
  split; [|split].
  - intros lib url content md H.
    pose proof (parsePlaylist_IsMaster lib url content) as Hm.
    by rewrite H in Hm.
  - vm_compute. reflexivity.
  - do 2 eexists. split; [vm_compute; reflexivity|].
    split; [reflexivity|].
    intros Hin. repeat (apply elem_of_cons in Hin as [Hin|Hin]; [discriminate|]).
    inversion Hin.
Qed.

(** **** Segments never publish a terminal chunk *)

Lemma written_storeHeader ct w : written (storeHeader ct w) = written w.
Proof. unfold storeHeader. by destruct (m3uHeaderSet w). Qed.

Lemma requested_storeHeader ct w : requested (storeHeader ct w) = requested w.
Proof. unfold storeHeader. by destruct (m3uHeaderSet w). Qed.

Lemma terminals_app l1 l2 : terminals (l1 ++ l2) = terminals l1 ++ terminals l2.
Proof. apply omap_app. Qed.

Lemma streamSegment_terminals env u w :
  terminals (written (streamSegment env u w).2) = terminals (written w).
Proof.
  unfold streamSegment.
  destruct (segFetch env (fetchCount w) u) as [| | |r]; try reflexivity.
  destruct (SegStatus r =? 200); simpl; [|reflexivity].
  assert (H : ∀ w0 ct, terminals (written (write (Data u (SegBody r))
                         (storeHeader ct (request u w0)))) = terminals (written w0)).
  { intros w0 ct. simpl. rewrite written_storeHeader, terminals_app. simpl.
    apply app_nil_r. }
  destruct (SegRead r); apply H.
Qed.

Lemma processSegments_terminals env segs w :
  terminals (written (processSegments env segs w).2) = terminals (written w).
Proof.
  revert w. induction segs as [|u segs IH]; intros w; simpl; [done|].
  destruct (ctxDone env (fetchCount w)); [done|].
  pose proof (streamSegment_terminals env u w) as Hs.
  destruct (streamSegment env u w) as [[e|] w']; simpl in *.
  - destruct (isEOF e); [by rewrite IH|done].
  - by rewrite IH.
Qed.

(** **** C4: a segment that is not served *)

Lemma dataURLs_app l1 l2 : dataURLs (l1 ++ l2) = dataURLs l1 ++ dataURLs l2.
Proof. apply omap_app. Qed.

Lemma streamSegment_served env u w :
  served env u →
  let out := streamSegment env u w in
  (out.1 = None ∨ out.1 = Some EOF) ∧
  requested out.2 = requested w ++ [u] ∧
  dataURLs (written out.2) = dataURLs (written w) ++ [u].
Proof.
  intros Hs. destruct (Hs (fetchCount w)) as (r & Hf & H200 & Hread).
  unfold streamSegment. rewrite Hf, H200. simpl.
  assert (H : ∀ ct,
    requested (write (Data u (SegBody r)) (storeHeader ct (request u w)))
      = requested w ++ [u] ∧
    dataURLs (written (write (Data u (SegBody r)) (storeHeader ct (request u w))))
      = dataURLs (written w) ++ [u]).
  { intros ct. simpl. rewrite requested_storeHeader, written_storeHeader.
    by rewrite dataURLs_app. }
  destruct (SegRead r); simpl; try (split; [auto|apply H]). done.
Qed.

Lemma streamSegment_non200 env u w code :
  (∀ n, ∃ r, segFetch env n u = FetchResp r ∧ SegStatus r = code) → code ≠ 200 →
  streamSegment env u w = (Some (ErrNon200 code u), request u w).
Proof.
  intros Hf Hc. destruct (Hf (fetchCount w)) as (r & Hr & <-).
  unfold streamSegment. rewrite Hr.
  by destruct (Z.eqb_spec (SegStatus r) 200).
Qed.

(** C4, amended.  In the segment list of one playlist, let the segments
    before [s] be served and the fetch of [s] return a status other than
    200, the context staying alive.  Then [processSegments] ends at [s]: it
    returns the non-200 error, the segments before [s] have been requested
    and relayed in playlist order, [s] has been requested, and no segment
    after [s] is requested or relayed.  What the writer does next depends
    on the playlist: one that carries the end tag makes it publish the
    terminal EOF chunk and return; one that does not, its sequence being
    accepted, makes it keep the error as [lastErr] and go on polling, or,
    when its context has ended meanwhile, publish a server error and
    return. *)
Theorem processSegments_stops_at_failure (env : Env) (pre : list string)
    (s : string) (post : list string) (w : World) (code : Z) :
  (∀ n, ctxDone env n = false) →
  (∀ u, u ∈ pre → served env u) →
  (∀ n, ∃ r, segFetch env n s = FetchResp r ∧ SegStatus r = code) →
  code ≠ 200 →
  let out := processSegments env (pre ++ s :: post) w in
  out.1 = Some (ErrNon200 code s) ∧
  requested out.2 = requested w ++ pre ++ [s] ∧
  dataURLs (written out.2) = dataURLs (written w) ++ pre ∧
  ∀ p md wr,
    IsMaster md = false → Segments md = pre ++ s :: post →
    follow env p md wr w =
    if IsEndlist md then (Exit, writeError StatusEOF out.2)
    else if lastMediaSeq wr <=? MediaSequence md then
      if ctxErrAfter p then (Exit, writeError StatusServerError out.2)
      else (Continue (setLastErr (ErrNon200 code s)
                        (accept (changeTime p) (MediaSequence md) wr)), out.2)
    else (Continue wr, w).
Proof.
  intros Hctx Hpre Hs Hcode out.
  assert (Hout : out.1 = Some (ErrNon200 code s) ∧
                 requested out.2 = requested w ++ pre ++ [s] ∧
                 dataURLs (written out.2) = dataURLs (written w) ++ pre).
  { subst out. revert w. induction pre as [|u pre IH]; intros w; simpl.
    - rewrite Hctx, (streamSegment_non200 env s w code Hs Hcode). simpl.
      by rewrite app_nil_r.
    - rewrite Hctx.
      destruct (streamSegment_served env u w) as (Hres & Hreq & Hdata).
      { apply Hpre. left. }
      destruct (IH (λ v Hv, Hpre v (list_elem_of_further _ _ _ Hv))
                  (streamSegment env u w).2) as (IH1 & IH2 & IH3).
      destruct (streamSegment env u w) as [[e|] w']; simpl in *.
      + destruct Hres as [|[= ->]]; [done|]. simpl.
        rewrite IH1, IH2, IH3, Hreq, Hdata, <- !app_assoc. done.
      + rewrite IH1, IH2, IH3, Hreq, Hdata, <- !app_assoc. done. }
  destruct Hout as (H1 & H2 & H3). repeat split; try done.
  intros p md wr Hm Hsegs. unfold follow.
  rewrite Hm, Hsegs. fold out.
  destruct out as [o w']. simpl in H1. subst o. simpl.
  destruct (IsEndlist md); [done|].
  by destruct (lastMediaSeq wr <=? MediaSequence md).
Qed.

Lemma processSegments_stops_at_failure_witness :
  (∀ n, ctxDone envGap n = false) ∧
  served envGap "http://up/live/s1.ts" ∧
  (processSegments envGap threeSegments emptyWorld).1
    = Some (ErrNon200 404 "http://up/live/s2.ts") ∧
  requested (processSegments envGap threeSegments emptyWorld).2
    = ["http://up/live/s1.ts"; "http://up/live/s2.ts"].
Proof.
  assert (Hctx : ∀ n, ctxDone envGap n = false) by reflexivity.
  assert (Hs1 : served envGap "http://up/live/s1.ts").
  { intros n. exists (tsResponse 200). repeat split; discriminate. }
  destruct (processSegments_stops_at_failure envGap ["http://up/live/s1.ts"]
              "http://up/live/s2.ts" ["http://up/live/s3.ts"] emptyWorld 404 Hctx)
    as (H1 & H2 & _).
  - intros u Hu. apply list_elem_of_singleton in Hu as ->. exact Hs1.
  - intros n. exists (tsResponse 404). split; reflexivity.
  - discriminate.
  - split; [exact Hctx|]. split; [exact Hs1|]. split; [exact H1 | exact H2].
Defined.

(** C4, as stated, fails: of three segments the second answers 404.  The
    third is neither fetched nor relayed, and [processSegments] returns the
    error. *)
Lemma non200_segment_ends_playlist :
  ∃ w,
    processSegments envGap threeSegments emptyWorld
      = (Some (ErrNon200 404 "http://up/live/s2.ts"), w) ∧
    requested w = ["http://up/live/s1.ts"; "http://up/live/s2.ts"] ∧
    dataURLs (written w) = ["http://up/live/s1.ts"] ∧
    "http://up/live/s3.ts" ∈ threeSegments.
Proof.
  eexists. split; [vm_compute; reflexivity|].
  repeat split. do 2 right. left.
Qed.

(** **** C3: the idle timeout *)

(** From any state of the writer: a tick at which the time since the last
    change exceeds [TimeoutSeconds] seconds plus the poll interval
    publishes a terminal EOF chunk, and the writer returns. *)
Lemma iteration_timeout (cfg : Config) (env : Env) (url : string) (p : Poll)
    (wr : Writer) (w : World) (now : Z) :
  active p = true → wake p = Tick now →
  timeoutLimit cfg wr < now - lastChangeTime wr →
  iteration cfg env url p wr w = (Exit, writeError StatusEOF w) ∧
  written (writeError StatusEOF w) = written w ++ [Terminal StatusEOF].
Proof.
  intros Ha Hw Hlt. unfold iteration. rewrite Ha, Hw. simpl.
  by apply Z.ltb_lt in Hlt as ->.
Qed.

Lemma parse_manifest10 :
  parsePlaylist demoLib mediaURL manifest10 = (Some metadata10, false).
Proof. vm_compute. reflexivity. Qed.

Lemma iteration_follow cfg env url p wr w now body md wr1 :
  active p = true → wake p = Tick now →
  now - lastChangeTime wr ≤ timeoutLimit cfg wr →
  respBody wr = Some body →
  parsePlaylist (lib env) url body = (Some md, false) →
  retune (lib env) p md wr = Some wr1 →
  iteration cfg env url p wr w = follow env p md wr1 w.
Proof.
  intros Ha Hw Hle Hb Hp Hs. unfold iteration. rewrite Ha, Hw, Hb, Hp, Hs. simpl.
  by destruct (Z.ltb_spec (timeoutLimit cfg wr) (now - lastChangeTime wr)); [lia|].
Qed.

(** With the default target duration of 2 s and a random number of 0.5 the
    candidate is the second the ticker starts with: nothing changes. *)
Lemma retune_steady p wr :
  rand p = half → pollInterval wr = second →
  retune demoLib p metadata10 wr = Some wr.
Proof.
  intros Hr Hp. unfold retune. rewrite Hr, Hp.
  change (isPositive (TargetDuration metadata10)) with true. cbv iota.
  by change (significant (jitterOf demoLib (TargetDuration metadata10) half) second)
    with false.
Qed.

Lemma follow_accept env p md wr w :
  IsMaster md = false → IsEndlist md = false →
  lastMediaSeq wr ≤ MediaSequence md →
  (processSegments env (Segments md) w).1 = None →
  follow env p md wr w =
  (Continue (accept (changeTime p) (MediaSequence md) wr),
   (processSegments env (Segments md) w).2).
Proof.
  intros Hm He Hseq Hps. unfold follow. rewrite Hm, He.
  destruct (Z.leb_spec (lastMediaSeq wr) (MediaSequence md)); [|lia].
  destruct (processSegments env (Segments md) w) as [[e|] w']; [done|done].
Qed.

Lemma steady_iteration k mseq w :
  mseq ≤ 10 →
  ∃ w', iteration cfg15 envServing mediaURL (steadyPoll k) (steadyWriter k mseq) w
        = (Continue (steadyWriter (S k) 10), w') ∧
        terminals (written w') = terminals (written w).
Proof.
  intros Hseq.
  rewrite (iteration_follow cfg15 envServing mediaURL (steadyPoll k)
             (steadyWriter k mseq) w (Z.of_nat (S k) * second) manifest10 metadata10
             (steadyWriter k mseq) eq_refl eq_refl);
    [| |reflexivity|exact parse_manifest10|by apply retune_steady].
  2:{ change (timeoutLimit cfg15 (steadyWriter k mseq)) with (16 * second).
      cbn [lastChangeTime steadyWriter]. unfold second. lia. }
  rewrite follow_accept.
  2:{ reflexivity. }
  2:{ reflexivity. }
  2:{ exact Hseq. }
  2:{ reflexivity. }
  eexists. split; [reflexivity|].
  apply processSegments_terminals.
Qed.

Lemma steady_run n : ∀ k mseq w,
  mseq ≤ 10 →
  ∃ wr' w',
    StartHLSWriter cfg15 envServing mediaURL (steadyPolls k n) (steadyWriter k mseq) w
      = (Continue wr', w') ∧
    lastChangeTime wr' = Z.of_nat (k + n) * second ∧
    terminals (written w') = terminals (written w).
Proof.
  induction n as [|n IH]; intros k mseq w Hseq.
  - exists (steadyWriter k mseq), w. rewrite Nat.add_0_r. done.
  - destruct (steady_iteration k mseq w Hseq) as (w1 & Hit & Hw1).
    destruct (IH (S k) 10 w1) as (wr' & w' & Hrun & Ht & Hw'); [lia|].
    exists wr', w'. unfold steadyPolls in *. cbn [seq map StartHLSWriter].
    rewrite Hit, Hrun. split; [done|]. split; [rewrite Ht; f_equal; lia|congruence].
Qed.

(** C3 fails on the code.  The writer of scenario S6: the manifest stays
    at media sequence 10, the ticker fires every second, the idle timeout
    is 15 s.  The test [MediaSequence >= lastMediaSeq] accepts the unchanged
    sequence at every poll and moves [lastChangeTime] to that poll, so
    however many polls go by, the writer is still running, it has published
    no terminal chunk, and the last change is dated at the latest poll. *)
Theorem steady_sequence_never_times_out (n : nat) :
  ∃ wr w,
    StartHLSWriter cfg15 envServing mediaURL (steadyPolls 0 n)
      (initWriter 0 (Some manifest10)) emptyWorld = (Continue wr, w) ∧
    lastChangeTime wr = Z.of_nat n * second ∧
    terminals (written w) = [].
Proof.
  destruct (steady_run n 0 (-1) emptyWorld) as (wr & w & Hrun & Ht & Hw); [lia|].
  exists wr, w. split; [exact Hrun|]. split; [exact Ht|exact Hw].
Qed.

(** **** C9: the polling rate *)

Lemma parse_manifestTiny :
  parsePlaylist demoLib mediaURL manifestTiny = (Some metadataTiny, false).
Proof. vm_compute. reflexivity. Qed.

(** Half a nanosecond is cut to 0 ns, and 0 ns times any factor converts to
    0, or to the least int64 when the factor is not a number. *)
Lemma jitterOf_nano r :
  jitterOf demoLib nano r = 0 ∨ jitterOf demoLib nano r = - 2 ^ 63.
Proof.
  unfold jitterOf.
  change (newIntervalOf demoLib nano) with 0.
  change (float64 0) with (S754_zero false).
  destruct (jitterFactor demoLib r) as [s|s| |s m e]; simpl; auto.
Qed.

Lemma iteration_retune cfg env url p wr w now body md :
  active p = true → wake p = Tick now →
  now - lastChangeTime wr ≤ timeoutLimit cfg wr →
  respBody wr = Some body →
  parsePlaylist (lib env) url body = (Some md, false) →
  iteration cfg env url p wr w =
  match retune (lib env) p md wr with
  | None => (Exit, writeError StatusServerError w)
  | Some wr1 => follow env p md wr1 w
  end.
Proof.
  intros Ha Hw Hle Hb Hp. unfold iteration. rewrite Ha, Hw, Hb, Hp. simpl.
  by destruct (Z.ltb_spec (timeoutLimit cfg wr) (now - lastChangeTime wr)); [lia|].
Qed.

(** C9 fails on the code.  On a poll whose target duration is positive the
    candidate interval is [jitterOf]: the float64 product of the target
    duration and 1e9, halved and cut to whole nanoseconds, then multiplied
    by 0.9 + 0.2 * rand.Float64() and cut again.  When the candidate is not
    more than a tenth of the current interval away from it, the interval
    stays; when it is, and it is positive, it becomes the interval (a target
    of 6 s gives a candidate of 2.7 s, 3 s and 3.3 s for the random numbers
    0, 0.5 and the largest below 1, and 3 s replaces the initial second; the
    default target of 2 s leaves it).  But a candidate that is that far away
    and is not positive is passed to [ticker.Reset], which panics: the
    writer publishes a terminal server error and returns, no segment having
    been requested.  So it is for the playlist [manifestTiny], whose target
    duration of a nanosecond is positive and whose candidate is 0 or less
    whatever the random number: the first poll ends the writer. *)
Theorem tiny_target_duration_stops_writer :
  (∀ cfg env url p wr w now body md,
     active p = true → wake p = Tick now →
     now - lastChangeTime wr ≤ timeoutLimit cfg wr →
     respBody wr = Some body →
     parsePlaylist (lib env) url body = (Some md, false) →
     isPositive (TargetDuration md) = true →
     let candidate := jitterOf (lib env) (TargetDuration md) (rand p) in
     iteration cfg env url p wr w =
     if significant candidate (pollInterval wr) then
       if candidate <=? 0 then (Exit, writeError StatusServerError w)
       else follow env p md (setPollInterval candidate wr) w
     else follow env p md wr w) ∧
  (jitterOf demoLib (float64 6) (S754_zero false) = 2700000000 ∧
   jitterOf demoLib (float64 6) half = 3000000000 ∧
   jitterOf demoLib (float64 6) almostOne = 3300000000 ∧
   significant 3000000000 second = true ∧
   jitterOf demoLib float2 half = second ∧
   significant second second = false) ∧
  (parsePlaylist demoLib mediaURL manifestTiny = (Some metadataTiny, false) ∧
   isPositive (TargetDuration metadataTiny) = true ∧
   newIntervalOf demoLib (TargetDuration metadataTiny) = 0) ∧
  (∀ cfg p polls w now,
     active p = true → wake p = Tick now →
     now ≤ timeoutLimit cfg (initWriter 0 (Some manifestTiny)) →
     let candidate := jitterOf demoLib (TargetDuration metadataTiny) (rand p) in
     candidate ≤ 0 ∧
     significant candidate second = true ∧
     StartHLSWriter cfg envServing mediaURL (p :: polls)
       (initWriter 0 (Some manifestTiny)) w
     = (Exit, writeError StatusServerError w)) ∧
  StartHLSWriter cfg15 envServing mediaURL slowPolls
    (initWriter 0 (Some manifestTiny)) emptyWorld
  = (Exit, {| requested := []; written := [Terminal StatusServerError];
              m3uHeaderSet := false; WriterRespHeader := None;
              storedAt := None |}).
Proof.
  split.
  { intros cfg env url p wr w now body md Ha Hw Hle Hb Hp Hpos candidate.
    rewrite (iteration_retune cfg env url p wr w now body md Ha Hw Hle Hb Hp).
    unfold retune. rewrite Hpos. fold candidate.
    destruct (significant candidate (pollInterval wr)); [|done].
    by destruct (candidate <=? 0). }
  split; [by vm_compute|].
  split; [split; [exact parse_manifestTiny|by vm_compute]|].
  split; [|by vm_compute].
  intros cfg p polls w now Ha Hw Hle candidate.
  assert (Hc : candidate ≤ 0 ∧ significant candidate second = true).
  { subst candidate. simpl.
    destruct (jitterOf_nano (rand p)) as [-> | ->]; by vm_compute. }
  destruct Hc as [Hc Hs]. split; [exact Hc|]. split; [exact Hs|].
  cbn [StartHLSWriter].
  rewrite (iteration_retune cfg envServing mediaURL p _ w now manifestTiny
             metadataTiny Ha Hw); [| simpl; lia | done | exact parse_manifestTiny].
  unfold retune.
  change (isPositive (TargetDuration metadataTiny)) with true. cbv iota.
  change (lib envServing) with demoLib. fold candidate.
  change (pollInterval (initWriter 0 (Some manifestTiny))) with second.
  rewrite Hs. by destruct (Z.leb_spec candidate 0); [|lia].
Qed.

(** **** Further properties of the writer *)

Lemma served_envServing u : served envServing u.
Proof. intros n. exists (tsResponse 200). repeat split. discriminate. Qed.

(** **** What the segments of a playlist leave behind *)

Lemma streamSegment_shape env u w :
  let out := streamSegment env u w in
  (∃ e, out.1 = Some e ∧ isEOF e = false ∧
        dataURLs (written out.2) = dataURLs (written w) ∧
        (requested out.2 = requested w ∨ requested out.2 = requested w ++ [u])) ∨
  (requested out.2 = requested w ++ [u] ∧
   dataURLs (written out.2) = dataURLs (written w) ++ [u]).
Proof.
  unfold streamSegment.
  destruct (segFetch env (fetchCount w) u) as [| | |r]; simpl.
  1-3: left; eexists; repeat split; eauto.
  destruct (SegStatus r =? 200); simpl.
  - right.
    assert (H : ∀ ct,
      requested (write (Data u (SegBody r)) (storeHeader ct (request u w)))
        = requested w ++ [u] ∧
      dataURLs (written (write (Data u (SegBody r)) (storeHeader ct (request u w))))
        = dataURLs (written w) ++ [u]).
    { intros ct. simpl. rewrite requested_storeHeader, written_storeHeader.
      by rewrite dataURLs_app. }
    destruct (SegRead r); apply H.
  - left. eexists. repeat split; eauto.
Qed.

(** X12.  Whatever the upstream and the context do, [processSegments]
    requests a prefix of the segment list, in order and once each, and
    relays a prefix of it: every segment before the last one requested has
    been relayed, and it returns nil only when it has relayed them all. *)
Theorem processSegments_prefix (env : Env) (segments : list string) (w : World) :
  let out := processSegments env segments w in
  ∃ k j : nat,
    requested out.2 = requested w ++ take k segments ∧
    dataURLs (written out.2) = dataURLs (written w) ++ take j segments ∧
    (j ≤ k ≤ S j)%nat ∧ (k ≤ length segments)%nat ∧
    (out.1 = None → j = length segments).
Proof.
  revert w. induction segments as [|u rest IH]; intros w; simpl.
  { exists 0%nat, 0%nat. simpl. rewrite !app_nil_r. repeat split; auto. }
  destruct (ctxDone env (fetchCount w)).
  { exists 0%nat, 0%nat. simpl. rewrite !app_nil_r. repeat split; auto; try lia. done. }
  pose proof (streamSegment_shape env u w) as Hs.
  destruct (streamSegment env u w) as [o w1]. simpl in Hs.
  assert (Hgo : let out := processSegments env rest w1 in
            requested w1 = requested w ++ [u] →
            dataURLs (written w1) = dataURLs (written w) ++ [u] →
            ∃ k j : nat,
              requested out.2 = requested w ++ take k (u :: rest) ∧
              dataURLs (written out.2) = dataURLs (written w) ++ take j (u :: rest) ∧
              (j ≤ k ≤ S j)%nat ∧ (k ≤ length (u :: rest))%nat ∧
              (out.1 = None → j = length (u :: rest))).
  { intros out Hr Hd. destruct (IH w1) as (k & j & Hk & Hj & Hle & Hlen & Hn).
    exists (S k), (S j). subst out. rewrite Hk, Hj, Hr, Hd. simpl.
    rewrite <- !app_assoc. simpl.
    split; [done|]. split; [done|]. split; [lia|]. split; [lia|].
    intros H. by rewrite Hn. }
  destruct Hs as [(e & -> & He & Hd & Hr) | [Hr Hd]].
  - rewrite He. simpl. destruct Hr as [Hr|Hr].
    + exists 0%nat, 0%nat. simpl. rewrite !app_nil_r. repeat split; auto; try lia. done.
    + exists 1%nat, 0%nat. simpl. rewrite app_nil_r. repeat split; auto; try lia. done.
  - destruct o as [e|]; [|by apply Hgo].
    destruct (isEOF e); [by apply Hgo|].
    exists 1%nat, 1%nat. simpl. repeat split; auto; try lia. done.
Qed.

Lemma processSegments_served (env : Env) (segments : list string) (w : World) :
  (∀ n, ctxDone env n = false) →
  (∀ u, u ∈ segments → served env u) →
  let out := processSegments env segments w in
  out.1 = None ∧
  requested out.2 = requested w ++ segments ∧
  dataURLs (written out.2) = dataURLs (written w) ++ segments.
Proof.
  intros Hctx. revert w. induction segments as [|u rest IH]; intros w Hs; simpl.
  { by rewrite !app_nil_r. }
  rewrite Hctx.
  destruct (streamSegment_served env u w) as (Ho & Hr & Hd); [apply Hs; left|].
  destruct (streamSegment env u w) as [o w1]. simpl in *.
  destruct (IH w1) as (H1 & H2 & H3); [intros; apply Hs; by right|].
  assert (Hgoal : (processSegments env rest w1).1 = None ∧
    requested (processSegments env rest w1).2 = requested w ++ u :: rest ∧
    dataURLs (written (processSegments env rest w1).2)
      = dataURLs (written w) ++ u :: rest).
  { rewrite H2, H3, Hr, Hd, <- !app_assoc. done. }
  destruct Ho as [-> | ->]; exact Hgoal.
Qed.

(** **** The stored header *)

Lemma headerStep_same env w w' more :
  m3uHeaderSet w' = m3uHeaderSet w → WriterRespHeader w' = WriterRespHeader w →
  storedAt w' = storedAt w → written w' = written w ++ more → dataURLs more = [] →
  headerStep env w w'.
Proof.
  intros H1 H2 H3 H4 H5. unfold headerStep. split; [by exists more|].
  rewrite H1. destruct (m3uHeaderSet w); [done|]. left.
  by rewrite H4, dataURLs_app, H5, app_nil_r.
Qed.

Lemma headerStep_refl env w : headerStep env w w.
Proof. apply (headerStep_same env w w []); try done. by rewrite app_nil_r. Qed.

Lemma headerStep_trans env w1 w2 w3 :
  headerStep env w1 w2 → headerStep env w2 w3 → headerStep env w1 w3.
Proof.
  unfold headerStep. intros [[m1 Hm1] H1] [[m2 Hm2] H2].
  split; [exists (m1 ++ m2); by rewrite Hm2, Hm1, app_assoc|].
  destruct (m3uHeaderSet w1).
  - destruct H1 as (E1 & Eh1 & Es1). rewrite E1 in H2.
    destruct H2 as (E2 & Eh2 & Es2). split; [done|]. split; congruence.
  - destruct H1 as [(E1 & Eh1 & Es1 & Ed1) | (E1 & k & r & Hk & Hle & Hd & Hrest)].
    + rewrite E1 in H2.
      destruct H2 as [(E2 & Eh2 & Es2 & Ed2) | (E2 & k & r & Hk & Hle & Hd & Hrest)].
      * left. split; [done|]. split; [congruence|]. split; congruence.
      * right. split; [done|]. exists k, r. split; [done|].
        split; [rewrite Hm1, length_app in Hle; lia|].
        split; [congruence|done].
    + rewrite E1 in H2. destruct H2 as (E2 & Eh2 & Es2).
      destruct Hrest as (Hct & Hrest).
      right. split; [done|]. exists k, r. split; [congruence|].
      split; [rewrite Hm2, length_app; lia|].
      split; [by rewrite Hm2, take_app_le by lia|].
      split; [congruence|done].
Qed.

Lemma headerStep_write_terminal env st w : headerStep env w (writeError st w).
Proof. by apply (headerStep_same env w _ [Terminal st]). Qed.

Lemma contentTypeOf_nonempty r : contentTypeOf r ≠ "".
Proof. unfold contentTypeOf. by destruct (String.eqb_spec (ContentType r) ""). Qed.

Lemma streamSegment_header env u w : headerStep env w (streamSegment env u w).2.
Proof.
  unfold streamSegment.
  destruct (segFetch env (fetchCount w) u) as [| | |r] eqn:Hf; simpl;
    try (apply (headerStep_same env w _ []); try done; by rewrite app_nil_r).
  destruct (Z.eqb_spec (SegStatus r) 200) as [H200|]; simpl;
    [|apply (headerStep_same env w _ []); try done; by rewrite app_nil_r].
  fold (contentTypeOf r).
  assert (H : headerStep env w
                (write (Data u (SegBody r)) (storeHeader (contentTypeOf r) (request u w)))).
  { unfold headerStep, storeHeader. simpl.
    destruct (m3uHeaderSet w) eqn:Hset; simpl.
    - rewrite Hset. split; [by eexists|done].
    - split; [by eexists|]. right. split; [done|].
      exists (length (written w)), r. split; [done|].
      rewrite length_app. split; [simpl; lia|].
      rewrite take_app_length. split; [done|]. split; [done|].
      split; [apply contentTypeOf_nonempty|]. split; [done|]. by eauto. }
  destruct (SegRead r); exact H.
Qed.

Lemma processSegments_header env segs : ∀ w,
  headerStep env w (processSegments env segs w).2.
Proof.
  induction segs as [|u segs IH]; intros w; simpl; [apply headerStep_refl|].
  destruct (ctxDone env (fetchCount w)); [apply headerStep_refl|].
  pose proof (streamSegment_header env u w) as Hs.
  destruct (streamSegment env u w) as [[e|] w1]; simpl in *.
  - destruct (isEOF e); [|done]. eapply headerStep_trans; eauto.
  - eapply headerStep_trans; eauto.
Qed.

Lemma follow_header env p md wr w : headerStep env w (follow env p md wr w).2.
Proof.
  unfold follow.
  destruct (IsMaster md); [apply headerStep_write_terminal|].
  pose proof (processSegments_header env (Segments md) w) as Hp.
  destruct (IsEndlist md).
  { destruct (processSegments env (Segments md) w) as [o w1]. simpl in *.
    eapply headerStep_trans; [exact Hp|apply headerStep_write_terminal]. }
  destruct (lastMediaSeq wr <=? MediaSequence md); [|apply headerStep_refl].
  destruct (processSegments env (Segments md) w) as [[e|] w1]; simpl in *; [|done].
  destruct (ctxErrAfter p); simpl; [|done].
  eapply headerStep_trans; [exact Hp|apply headerStep_write_terminal].
Qed.

Lemma iteration_header cfg env url p wr w :
  headerStep env w (iteration cfg env url p wr w).2.
Proof.
  unfold iteration.
  destruct (active p); simpl; [|apply headerStep_refl].
  destruct (wake p) as [|now].
  { destruct (lastErr wr); [apply headerStep_refl|apply headerStep_write_terminal]. }
  destruct (timeoutLimit cfg wr <? now - lastChangeTime wr);
    [apply headerStep_write_terminal|].
  destruct (respBody wr) as [body|]; [|apply headerStep_write_terminal].
  destruct (parsePlaylist (lib env) url body) as [[md|] [|]];
    try apply headerStep_write_terminal.
  destruct (retune (lib env) p md wr) as [wr1|];
    [apply follow_header|apply headerStep_write_terminal].
Qed.

(** X13.  When every segment of the list is served and the context stays
    alive, [processSegments] requests and relays the whole list, in order
    and once each, and returns nil; it writes no terminal chunk, and once a
    segment has been relayed the response header is stored. *)
Theorem processSegments_all_served (env : Env) (segments : list string) (w : World) :
  (∀ n, ctxDone env n = false) →
  (∀ u, u ∈ segments → served env u) →
  let out := processSegments env segments w in
  out.1 = None ∧
  requested out.2 = requested w ++ segments ∧
  dataURLs (written out.2) = dataURLs (written w) ++ segments ∧
  terminals (written out.2) = terminals (written w) ∧
  (segments ≠ [] → m3uHeaderSet out.2 = true).
Proof.
  intros Hctx Hs out.
  destruct (processSegments_served env segments w Hctx Hs) as (H1 & H2 & H3).
  split; [exact H1|]. split; [exact H2|]. split; [exact H3|].
  split; [apply processSegments_terminals|].
  intros Hne. pose proof (processSegments_header env segments w) as [_ Hh].
  fold out in Hh, H3.
  destruct (m3uHeaderSet w); [by destruct Hh|].
  destruct Hh as [(_ & _ & _ & Hd) | [Hset _]]; [|exact Hset].
  rewrite Hd in H3. apply (f_equal length) in H3.
  rewrite length_app in H3. destruct segments; [done|simpl in H3; lia].
Qed.

Lemma processSegments_all_served_witness :
  (∀ n, ctxDone envServing n = false) ∧
  (∀ u, u ∈ threeSegments → served envServing u) ∧
  (processSegments envServing threeSegments emptyWorld).1 = None ∧
  requested (processSegments envServing threeSegments emptyWorld).2
    = requested emptyWorld ++ threeSegments ∧
  dataURLs (written (processSegments envServing threeSegments emptyWorld).2)
    = dataURLs (written emptyWorld) ++ threeSegments ∧
  terminals (written (processSegments envServing threeSegments emptyWorld).2)
    = terminals (written emptyWorld) ∧
  (threeSegments ≠ [] →
   m3uHeaderSet (processSegments envServing threeSegments emptyWorld).2 = true).
Proof.
  assert (Hctx : ∀ n, ctxDone envServing n = false) by reflexivity.
  assert (Hs : ∀ u, u ∈ threeSegments → served envServing u)
    by (intros u _; apply served_envServing).
  split; [exact Hctx|]. split; [exact Hs|].
  apply (processSegments_all_served envServing threeSegments emptyWorld Hctx Hs).
Defined.

(** X14.  Over a whole run of the writer the response header is stored at
    most once.  Once set, it and the place it was stored at never change.
    While it is not set, no data chunk is written.  When the run sets it,
    it does so before the first data chunk it hands to the coordinator: of
    the chunks written up to the place it was stored at, none is a data
    chunk of the run.  The content type it holds is that of a segment
    response with status 200, [video/MP2T] when that response names none,
    and so never empty. *)
Theorem StartHLSWriter_header (cfg : Config) (env : Env) (url : string)
    (polls : list Poll) (wr : Writer) (w : World) :
  let w' := (StartHLSWriter cfg env url polls wr w).2 in
  (∃ more, written w' = written w ++ more) ∧
  (m3uHeaderSet w = true →
     m3uHeaderSet w' = true ∧ WriterRespHeader w' = WriterRespHeader w ∧
     storedAt w' = storedAt w) ∧
  (m3uHeaderSet w = false → m3uHeaderSet w' = false →
     WriterRespHeader w' = WriterRespHeader w ∧
     dataURLs (written w') = dataURLs (written w)) ∧
  (m3uHeaderSet w = false → m3uHeaderSet w' = true →
     ∃ k r,
       storedAt w' = Some k ∧
       (length (written w) ≤ k ≤ length (written w'))%nat ∧
       dataURLs (take k (written w')) = dataURLs (written w) ∧
       WriterRespHeader w' =
         Some (if String.eqb (ContentType r) "" then "video/MP2T" else ContentType r) ∧
       (if String.eqb (ContentType r) "" then "video/MP2T" else ContentType r) ≠ "" ∧
       SegStatus r = 200 ∧
       ∃ n u, segFetch env n u = FetchResp r).
Proof.
  intros w'.
  assert (H : headerStep env w w').
  { subst w'. revert wr w. induction polls as [|p rest IH]; intros wr w; simpl;
      [apply headerStep_refl|].
    pose proof (iteration_header cfg env url p wr w) as Hi.
    destruct (iteration cfg env url p wr w) as [[wr'|] w1]; simpl in *; [|done].
    eapply headerStep_trans; [exact Hi|apply IH]. }
  destruct H as [Hmore H]. split; [exact Hmore|].
  destruct (m3uHeaderSet w).
  - split; [done|]. split; intros; done.
  - split; [done|]. destruct H as [(E & H1 & H2 & H3) | (E & H)].
    + split; [done|]. intros _. by rewrite E.
    + split; [by rewrite E|]. done.
Qed.

(** **** Terminal chunks *)

Lemma streamSegment_written env u w :
  ∃ data, written (streamSegment env u w).2 = written w ++ data ∧ terminals data = [].
Proof.
  unfold streamSegment.
  destruct (segFetch env (fetchCount w) u) as [| | |r]; simpl;
    try (exists []; by rewrite app_nil_r).
  destruct (SegStatus r =? 200); simpl; [|exists []; by rewrite app_nil_r].
  exists [Data u (SegBody r)].
  destruct (SegRead r); simpl; by rewrite written_storeHeader.
Qed.

Lemma processSegments_written env segs : ∀ w,
  ∃ data, written (processSegments env segs w).2 = written w ++ data ∧
          terminals data = [].
Proof.
  induction segs as [|u segs IH]; intros w; simpl.
  { exists []. by rewrite app_nil_r. }
  destruct (ctxDone env (fetchCount w)); [exists []; by rewrite app_nil_r|].
  destruct (streamSegment_written env u w) as (d1 & H1 & Ht1).
  destruct (streamSegment env u w) as [o w1]. simpl in *.
  destruct (IH w1) as (d2 & H2 & Ht2).
  assert (Hgo : ∃ data, written (processSegments env segs w1).2 = written w ++ data ∧
                        terminals data = []).
  { exists (d1 ++ d2). rewrite H2, H1, <- app_assoc, terminals_app, Ht1, Ht2. done. }
  destruct o as [e|]; [|exact Hgo].
  destruct (isEOF e); [exact Hgo|]. by exists d1.
Qed.


Lemma wrote_terminal st w silent : wrote w (Exit, writeError st w) silent.
Proof. exists []. split; [done|]. left. by exists st. Qed.

Lemma follow_wrote env p md wr w silent : wrote w (follow env p md wr w) silent.
Proof.
  unfold follow.
  destruct (IsMaster md); [apply wrote_terminal|].
  destruct (processSegments_written env (Segments md) w) as (d & Hd & Ht).
  destruct (IsEndlist md).
  { destruct (processSegments env (Segments md) w) as [o w1]. simpl in *.
    exists d. split; [done|]. left. exists StatusEOF. simpl. by rewrite Hd, app_assoc. }
  destruct (lastMediaSeq wr <=? MediaSequence md).
  2:{ exists []. split; [done|]. simpl. by rewrite app_nil_r. }
  destruct (processSegments env (Segments md) w) as [[e|] w1]; simpl in *.
  - destruct (ctxErrAfter p); exists d; (split; [done|]); simpl; [|done].
    left. exists StatusServerError. by rewrite Hd, app_assoc.
  - by exists d.
Qed.

Lemma iteration_wrote cfg env url p wr w :
  wrote w (iteration cfg env url p wr w) (quiet p = true).
Proof.
  unfold iteration, quiet.
  destruct (active p); simpl.
  2:{ exists []. split; [done|]. right. by rewrite app_nil_r. }
  destruct (wake p) as [|now].
  { destruct (lastErr wr); [|apply wrote_terminal].
    exists []. split; [done|]. right. by rewrite app_nil_r. }
  destruct (timeoutLimit cfg wr <? now - lastChangeTime wr); [apply wrote_terminal|].
  destruct (respBody wr) as [body|]; [|apply wrote_terminal].
  destruct (parsePlaylist (lib env) url body) as [[md|] [|]];
    try apply wrote_terminal.
  destruct (retune (lib env) p md wr) as [wr1|];
    [apply follow_wrote|apply wrote_terminal].
Qed.

(** X15.  A run of the writer writes data chunks and then, only when it
    leaves its loop, at most one terminal chunk, which is the last chunk it
    writes.  It leaves without a terminal chunk only at a poll where the
    coordinator is no longer active or the context is done. *)
Theorem StartHLSWriter_terminal (cfg : Config) (env : Env) (url : string)
    (polls : list Poll) (wr : Writer) (w : World) :
  let out := StartHLSWriter cfg env url polls wr w in
  ∃ data, terminals data = [] ∧
    match out.1 with
    | Continue _ => written out.2 = written w ++ data
    | Exit => (∃ st, written out.2 = written w ++ data ++ [Terminal st]) ∨
              (written out.2 = written w ++ data ∧ ∃ p, p ∈ polls ∧ quiet p = true)
    end.
Proof.
  revert wr w. induction polls as [|p rest IH]; intros wr w; simpl.
  { exists []. split; [done|]. by rewrite app_nil_r. }
  destruct (iteration_wrote cfg env url p wr w) as (d1 & Ht1 & H1).
  destruct (iteration cfg env url p wr w) as [[wr'|] w1]; simpl in *.
  - destruct (IH wr' w1) as (d2 & Ht2 & H2).
    exists (d1 ++ d2). split; [by rewrite terminals_app, Ht1, Ht2|].
    destruct (StartHLSWriter cfg env url rest wr' w1) as [[wr2|] w2]; simpl in *.
    + by rewrite H2, H1, app_assoc.
    + destruct H2 as [[st H2] | [H2 (q & Hq & Hquiet)]].
      * left. exists st. by rewrite H2, H1, <- !app_assoc.
      * right. split; [by rewrite H2, H1, app_assoc|].
        exists q. split; [by right|done].
  - exists d1. split; [done|]. destruct H1 as [H1 | [H1 Hq]]; [by left|].
    right. split; [done|]. exists p. split; [left|done].
Qed.

(** **** The sequence number of the writer *)

Lemma follow_seq env p md wr w wr' w' :
  follow env p md wr w = (Continue wr', w') →
  lastMediaSeq wr ≤ lastMediaSeq wr' ∧ respBody wr' = respBody wr ∧
  pollInterval wr' = pollInterval wr.
Proof.
  unfold follow. destruct (IsMaster md); [done|]. destruct (IsEndlist md).
  { by destruct (processSegments env (Segments md) w). }
  destruct (Z.leb_spec (lastMediaSeq wr) (MediaSequence md)).
  - destruct (processSegments env (Segments md) w) as [[e|] w1].
    + destruct (ctxErrAfter p); [done|]. by intros [= <- <-].
    + by intros [= <- <-].
  - intros [= <- <-]. split; [lia|done].
Qed.

Lemma retune_state lib p md wr wr1 :
  retune lib p md wr = Some wr1 →
  lastErr wr1 = lastErr wr ∧ lastChangeTime wr1 = lastChangeTime wr ∧
  lastMediaSeq wr1 = lastMediaSeq wr ∧ respBody wr1 = respBody wr ∧
  (0 < pollInterval wr → 0 < pollInterval wr1).
Proof.
  unfold retune. destruct (isPositive (TargetDuration md)); [|by intros [= <-]].
  destruct (significant _ _); [|by intros [= <-]].
  destruct (Z.leb_spec (jitterOf lib (TargetDuration md) (rand p)) 0); [done|].
  intros [= <-]. simpl. do 4 (split; [done|]). intros _. lia.
Qed.

(** X16.  While the writer runs, the media sequence it has accepted never
    goes back, the manifest it reads is the body of the first response, and
    a positive poll interval stays positive. *)
Theorem StartHLSWriter_state (cfg : Config) (env : Env) (url : string)
    (polls : list Poll) (wr : Writer) (w : World) (wr' : Writer) (w' : World) :
  StartHLSWriter cfg env url polls wr w = (Continue wr', w') →
  lastMediaSeq wr ≤ lastMediaSeq wr' ∧
  respBody wr' = respBody wr ∧
  (0 < pollInterval wr → 0 < pollInterval wr').
Proof.
  revert wr w. induction polls as [|p rest IH]; intros wr w; simpl.
  { intros [= <- <-]. split; [lia|done]. }
  destruct (iteration cfg env url p wr w) as [[wr1|] w1] eqn:Hi; [|done].
  intros Hrun. destruct (IH wr1 w1 Hrun) as (Hs & Hb & Hp).
  assert (H1 : lastMediaSeq wr ≤ lastMediaSeq wr1 ∧ respBody wr1 = respBody wr ∧
               (0 < pollInterval wr → 0 < pollInterval wr1)).
  { revert Hi. unfold iteration.
    destruct (active p); simpl; [|done].
    destruct (wake p) as [|now]; [by destruct (lastErr wr)|].
    destruct (timeoutLimit cfg wr <? now - lastChangeTime wr); [done|].
    destruct (respBody wr) as [body|] eqn:Hbody; [|done].
    destruct (parsePlaylist (lib env) url body) as [[md|] [|]]; try done.
    destruct (retune (lib env) p md wr) as [wr2|] eqn:Hret; [|done].
    apply retune_state in Hret as (_ & _ & R1 & R2 & R3).
    intros (H1 & H2 & H3)%follow_seq. rewrite H3.
    split; [lia|]. split; [congruence|done]. }
  destruct H1 as (H1 & H2 & H3). split; [lia|]. split; [congruence|auto].
Qed.

Lemma StartHLSWriter_state_witness :
  ∃ wr' w',
    StartHLSWriter cfg15 envServing mediaURL (steadyPolls 0 2)
      (initWriter 0 (Some manifest10)) emptyWorld = (Continue wr', w') ∧
    lastMediaSeq (initWriter 0 (Some manifest10)) ≤ lastMediaSeq wr' ∧
    respBody wr' = respBody (initWriter 0 (Some manifest10)) ∧
    (0 < pollInterval (initWriter 0 (Some manifest10)) → 0 < pollInterval wr').
Proof.
  assert (H : ∃ wr' w',
    StartHLSWriter cfg15 envServing mediaURL (steadyPolls 0 2)
      (initWriter 0 (Some manifest10)) emptyWorld = (Continue wr', w'))
    by (do 2 eexists; vm_compute; reflexivity).
  destruct H as (wr' & w' & H). exists wr', w'. split; [exact H|].
  apply (StartHLSWriter_state cfg15 envServing mediaURL (steadyPolls 0 2)
           (initWriter 0 (Some manifest10)) emptyWorld wr' w' H).
Defined.

(** **** A manifest that is served again and again *)

(** X17.  The writer reads the same manifest at every tick.  Let that
    manifest be a media playlist without an end tag, whose sequence number
    is not below the one the writer last accepted and whose segments are
    all served; let the context stay alive, every tick come within the
    timeout, and no update of the polling rate fail (the rate itself may
    change).  Then every tick fetches and relays all of its segments
    again: after [n] ticks the requests and the relayed chunks are [n]
    copies of the segment list, and no terminal chunk has been written. *)
Theorem StartHLSWriter_replays (cfg : Config) (env : Env) (url body : string)
    (md : PlaylistMetadata) (polls : list Poll) (wr : Writer) (w : World) :
  respBody wr = Some body →
  parsePlaylist (lib env) url body = (Some md, false) →
  IsEndlist md = false →
  lastMediaSeq wr ≤ MediaSequence md →
  (∀ n, ctxDone env n = false) →
  (∀ u, u ∈ Segments md → served env u) →
  inTime cfg (lib env) md wr polls →
  ∃ wr' w',
    StartHLSWriter cfg env url polls wr w = (Continue wr', w') ∧
    requested w' = requested w ++ mjoin (replicate (length polls) (Segments md)) ∧
    dataURLs (written w') =
      dataURLs (written w) ++ mjoin (replicate (length polls) (Segments md)) ∧
    terminals (written w') = terminals (written w).
Proof.
  intros Hbody Hparse Hend Hseq Hctx Hserved.
  assert (Hm : IsMaster md = false).
  { pose proof (parsePlaylist_IsMaster (lib env) url body) as H.
    by rewrite Hparse in H. }
  revert wr w Hbody Hseq.
  induction polls as [|p rest IH]; intros wr w Hbody Hseq Hin; simpl.
  { exists wr, w. by rewrite !app_nil_r. }
  destruct Hin as (Ha & (now & Hw & Hle) & wr1 & Hret & Hrest).
  rewrite (iteration_follow cfg env url p wr w now body md wr1
             Ha Hw Hle Hbody Hparse Hret).
  destruct (retune_state _ _ _ _ _ Hret) as (_ & _ & R1 & R2 & _).
  destruct (processSegments_served env (Segments md) w Hctx Hserved)
    as (Hnone & Hreq & Hdata).
  rewrite (follow_accept env p md wr1 w Hm Hend); [|lia|exact Hnone].
  pose proof (processSegments_terminals env (Segments md) w) as Hterm.
  destruct (IH (accept (changeTime p) (MediaSequence md) wr1)
              (processSegments env (Segments md) w).2) as (wr' & w' & Hrun & Hr & Hd & Ht).
  { simpl. congruence. } { simpl. lia. } { exact Hrest. }
  exists wr', w'. split; [exact Hrun|].
  rewrite Hr, Hd, Ht, Hreq, Hdata, Hterm, <- !app_assoc. done.
Qed.

Lemma parse_manifest6 :
  parsePlaylist demoLib mediaURL manifest6 = (Some metadata6, false).
Proof. vm_compute. reflexivity. Qed.

Lemma StartHLSWriter_replays_witness :
  respBody (initWriter 0 (Some manifest6)) = Some manifest6 ∧
  parsePlaylist (lib envServing) mediaURL manifest6 = (Some metadata6, false) ∧
  IsEndlist metadata6 = false ∧
  lastMediaSeq (initWriter 0 (Some manifest6)) ≤ MediaSequence metadata6 ∧
  inTime cfg15 (lib envServing) metadata6 (initWriter 0 (Some manifest6)) slowPolls ∧
  ∃ wr' w',
    StartHLSWriter cfg15 envServing mediaURL slowPolls
      (initWriter 0 (Some manifest6)) emptyWorld = (Continue wr', w') ∧
    requested w' = requested emptyWorld ++
      mjoin (replicate (length slowPolls) (Segments metadata6)) ∧
    dataURLs (written w') = dataURLs (written emptyWorld) ++
      mjoin (replicate (length slowPolls) (Segments metadata6)) ∧
    terminals (written w') = terminals (written emptyWorld).
Proof.
  assert (Hctx : ∀ n, ctxDone envServing n = false) by reflexivity.
  assert (Hs : ∀ u, u ∈ Segments metadata6 → served envServing u)
    by (intros u _; apply served_envServing).
  assert (Hseq : lastMediaSeq (initWriter 0 (Some manifest6)) ≤ MediaSequence metadata6)
    by (simpl; lia).
  assert (Hin : inTime cfg15 (lib envServing) metadata6
                  (initWriter 0 (Some manifest6)) slowPolls).
  { unfold slowPolls. cbn [inTime].
    repeat (split; [reflexivity|];
            split; [eexists; split; [reflexivity|vm_compute; discriminate]|];
            eexists; split; [vm_compute; reflexivity|]).
    exact I. }
  split; [reflexivity|]. split; [exact parse_manifest6|]. split; [reflexivity|].
  split; [exact Hseq|]. split; [exact Hin|].
  apply (StartHLSWriter_replays cfg15 envServing mediaURL manifest6 metadata6
           slowPolls (initWriter 0 (Some manifest6)) emptyWorld
           eq_refl parse_manifest6 eq_refl Hseq Hctx Hs Hin).
Defined.

(** **** The segments of a manifest *)

Lemma parseLine_Segments lib base md text :
  Segments (parseLine lib base md text) =
  Segments md ++ option_list (segmentOf lib base text).
Proof.
  unfold parseLine, segmentOf.
  assert (Hpre : ∀ p, HasPrefix (TrimSpace text) p = true →
                 HasPrefix p "#" = true → HasPrefix (TrimSpace text) "#" = true).
  { intros p. unfold HasPrefix.
    destruct p as [|c' p']; [done|]. destruct (TrimSpace text) as [|c s]; [done|].
    cbn [String.prefix]. destruct (Ascii.ascii_dec c' c) as [->|]; [|done].
    intros _. destruct (Ascii.ascii_dec "#" c); [intros _; by destruct s|done]. }
  destruct (HasPrefix (TrimSpace text) "#EXTM3U") eqn:H1.
  { rewrite (Hpre _ H1 eq_refl). simpl. by rewrite app_nil_r. }
  destruct (HasPrefix (TrimSpace text) "#EXT-X-STREAM-INF") eqn:H2.
  { rewrite (Hpre _ H2 eq_refl). simpl. by rewrite app_nil_r. }
  destruct (HasPrefix (TrimSpace text) "#EXT-X-VERSION:") eqn:H3.
  { rewrite (Hpre _ H3 eq_refl). simpl. destruct (scanInt _); simpl; by rewrite app_nil_r. }
  destruct (HasPrefix (TrimSpace text) "#EXT-X-TARGETDURATION:") eqn:H4.
  { rewrite (Hpre _ H4 eq_refl). simpl. destruct (scanFloat _ _); simpl; by rewrite app_nil_r. }
  destruct (HasPrefix (TrimSpace text) "#EXT-X-MEDIA-SEQUENCE:") eqn:H5.
  { rewrite (Hpre _ H5 eq_refl). simpl. destruct (scanInt _); simpl; by rewrite app_nil_r. }
  destruct (String.eqb_spec (TrimSpace text) "#EXT-X-ENDLIST") as [->|H6].
  { simpl. by rewrite app_nil_r. }
  destruct (HasPrefix (TrimSpace text) "#"); simpl; [by rewrite app_nil_r|].
  destruct (String.eqb (TrimSpace text) ""); simpl; [by rewrite app_nil_r|].
  destruct (url_Parse lib (TrimSpace text)) as [seg|]; simpl; [|by rewrite app_nil_r].
  by destruct (url_IsAbs lib seg).
Qed.

Lemma parseLine_IsEndlist lib base md text :
  IsEndlist (parseLine lib base md text) =
  IsEndlist md || String.eqb (TrimSpace text) "#EXT-X-ENDLIST".
Proof.
  unfold parseLine.
  assert (Hpre : ∀ p, HasPrefix (TrimSpace text) p = true →
                 HasPrefix "#EXT-X-ENDLIST" p = false →
                 String.eqb (TrimSpace text) "#EXT-X-ENDLIST" = false).
  { intros p Hp Hn. destruct (String.eqb_spec (TrimSpace text) "#EXT-X-ENDLIST") as [He|];
      [|done]. rewrite He in Hp. congruence. }
  destruct (HasPrefix (TrimSpace text) "#EXTM3U") eqn:H1.
  { rewrite (Hpre _ H1 eq_refl). by rewrite orb_false_r. }
  destruct (HasPrefix (TrimSpace text) "#EXT-X-STREAM-INF") eqn:H2.
  { rewrite (Hpre _ H2 eq_refl). by rewrite orb_false_r. }
  destruct (HasPrefix (TrimSpace text) "#EXT-X-VERSION:") eqn:H3.
  { rewrite (Hpre _ H3 eq_refl). destruct (scanInt _); simpl; by rewrite orb_false_r. }
  destruct (HasPrefix (TrimSpace text) "#EXT-X-TARGETDURATION:") eqn:H4.
  { rewrite (Hpre _ H4 eq_refl). destruct (scanFloat _ _); simpl; by rewrite orb_false_r. }
  destruct (HasPrefix (TrimSpace text) "#EXT-X-MEDIA-SEQUENCE:") eqn:H5.
  { rewrite (Hpre _ H5 eq_refl). destruct (scanInt _); simpl; by rewrite orb_false_r. }
  destruct (String.eqb_spec (TrimSpace text) "#EXT-X-ENDLIST") as [He|H6].
  { simpl. by rewrite orb_true_r. }
  rewrite orb_false_r.
  destruct (negb _ && negb _); [|done].
  destruct (url_Parse lib (TrimSpace text)); [|done]. done.
Qed.

Lemma parseLines_Segments lib base lines : ∀ md,
  Segments (fold_left (parseLine lib base) lines md) =
  Segments md ++ omap (segmentOf lib base) lines.
Proof.
  induction lines as [|l lines IH]; intros md; simpl; [by rewrite app_nil_r|].
  rewrite IH, parseLine_Segments, <- app_assoc.
  by destruct (segmentOf lib base l).
Qed.

Lemma parseLines_IsEndlist lib base lines : ∀ md,
  IsEndlist (fold_left (parseLine lib base) lines md) =
  IsEndlist md || existsb (λ l, String.eqb (TrimSpace l) "#EXT-X-ENDLIST") lines.
Proof.
  induction lines as [|l lines IH]; intros md; simpl; [by rewrite orb_false_r|].
  by rewrite IH, parseLine_IsEndlist, orb_assoc.
Qed.

(** X18.  The segments [parsePlaylist] returns are those of the lines of
    the manifest that are neither blank nor a tag and that parse as a URL,
    in manifest order, a relative one resolved against the playlist URL;
    the playlist is ended iff one of its lines is the end tag. *)
Theorem parsePlaylist_segments (lib : GoLib) (mediaURL content : string) :
  match url_Parse lib mediaURL with
  | None => parsePlaylist lib mediaURL content = (None, true)
  | Some base =>
      ∃ md, parsePlaylist lib mediaURL content = (Some md, (scanLines content).2) ∧
        Segments md = omap (segmentOf lib base) (scanLines content).1 ∧
        IsEndlist md =
          existsb (λ l, String.eqb (TrimSpace l) "#EXT-X-ENDLIST") (scanLines content).1
  end.
Proof.
  unfold parsePlaylist. destruct (url_Parse lib mediaURL) as [base|]; [|done].
  destruct (scanLines content) as [lines err]. simpl.
  eexists. split; [reflexivity|].
  by rewrite parseLines_Segments, parseLines_IsEndlist.
Qed.

End HLSFacts.

(** ** The MP4 handler *)

Module MP4Facts.
Import MP4.

Lemma passFrom_refl env urls turns st :
  selectedUrl st = None → passFrom env urls turns st st.
Proof.
  intros Hsel. exists []. rewrite app_nil_r, Hsel.
  split; [done|]. split; [simpl; lia|]. split; [|done].
  intros u Hu. inversion Hu.
Qed.

Lemma passFrom_select env urls turns url st r :
  url ∈ urls → checkConcurrency env (M3UIndex url) = false →
  httpGet env (length (gets st)) (Content url) = GetOk r →
  passFrom env urls (S turns) st (select url (get env url st).2).
Proof.
  intros Hin Hc Hg. exists [Content url]. simpl.
  split; [done|]. split; [lia|]. split.
  - intros u Hu%list_elem_of_singleton. exists url. by subst.
  - split; [done|]. split; [done|]. exists r, (gets st). by rewrite Hg.
Qed.

Lemma passFrom_step env urls turns url st out :
  url ∈ urls → checkConcurrency env (M3UIndex url) = false →
  passFrom env urls turns (get env url st).2 out →
  passFrom env urls (S turns) st out.
Proof.
  intros Hin Hc (more & H1 & H2 & H3 & H4). exists (Content url :: more).
  simpl in H1. split; [by rewrite H1, <- app_assoc|]. split; [simpl; lia|].
  split; [|exact H4].
  intros u [->|Hu]%elem_of_cons; [by exists url|by apply H3].
Qed.

Lemma passFrom_skip env urls turns st out :
  passFrom env urls turns st out → passFrom env urls (S turns) st out.
Proof.
  intros (more & H1 & H2 & H3). exists more. split; [done|]. split; [lia|done].
Qed.

Lemma bruteForce_pass env urls : ∀ sub st,
  sub ⊆ urls → selectedUrl st = None →
  passFrom env urls (length sub) st (bruteForce env sub st).
Proof.
  induction sub as [|url sub IH]; intros st Hsub Hsel; cbn [bruteForce length].
  - by apply passFrom_refl.
  - assert (Hurl : url ∈ urls) by (apply Hsub; left).
    assert (Hsub' : sub ⊆ urls) by (intros x Hx; apply Hsub; by right).
    destruct (checkConcurrency env (M3UIndex url)) eqn:Hc.
    { by apply passFrom_skip, IH. }
    destruct (get env url st) as [o st1] eqn:Hget.
    assert (Ho : o = httpGet env (length (gets st)) (Content url))
      by (by injection Hget as <- _).
    assert (Hst1 : st1 = (get env url st).2) by (by rewrite Hget).
    destruct o as [r| |r].
    + rewrite Hst1. by apply (passFrom_select env urls _ url st r).
    + apply passFrom_step with url; [done|done|]. rewrite <- Hst1.
      apply IH; [done|]. by rewrite Hst1.
    + apply passFrom_step with url; [done|done|]. rewrite <- Hst1.
      apply IH; [done|]. by rewrite Hst1.
Qed.

Lemma roundRobin_pass env urls : ∀ todo i lastIndex st,
  selectedUrl st = None →
  passFrom env urls todo st (roundRobin env urls todo i lastIndex st).
Proof.
  induction todo as [|todo IH]; intros i lastIndex st Hsel; cbn [roundRobin].
  - by apply passFrom_refl.
  - destruct (urls !! ((lastIndex + i) mod length urls)%nat) as [url|] eqn:Hl;
      [|by apply passFrom_refl].
    assert (Hurl : url ∈ urls) by (eapply list_elem_of_lookup_2; exact Hl).
    destruct (checkConcurrency env (M3UIndex url)) eqn:Hc.
    { by apply passFrom_skip, IH. }
    destruct (get env url st) as [o st1] eqn:Hget.
    assert (Ho : o = httpGet env (length (gets st)) (Content url))
      by (by injection Hget as <- _).
    assert (Hst1 : st1 = (get env url st).2) by (by rewrite Hget).
    destruct o as [r| |r].
    + rewrite Hst1. by apply (passFrom_select env urls _ url st r).
    + apply passFrom_step with url; [done|done|]. rewrite <- Hst1.
      apply IH. by rewrite Hst1.
    + apply passFrom_step with url; [done|done|]. rewrite <- Hst1.
      apply IH. by rewrite Hst1.
Qed.

Lemma concurrencyPass_pass env stream :
  passFrom env (URLs stream) (length (URLs stream)) start (concurrencyPass env stream).
Proof.
  unfold concurrencyPass.
  set (mode := if String.eqb (Getenv env "LOAD_BALANCING_MODE") "" then _ else _).
  destruct (String.eqb mode "round-robin"); [by apply roundRobin_pass|].
  destruct (String.eqb mode "brute-force"); [by apply bruteForce_pass|].
  by apply passFrom_refl.
Qed.

Lemma connectionCheck_tries env : ∀ urls st,
  selectedUrl st = None →
  let out := connectionCheck env urls st in
  (∃ pre url post r,
     urls = pre ++ url :: post ∧
     (∀ j u, pre !! j = Some u →
        failed (httpGet env (length (gets st) + j) (Content u))) ∧
     httpGet env (length (gets st) + length pre) (Content url) = GetOk r ∧
     out = {| resp := Some r; selectedUrl := Some url;
              gets := gets st ++ (Content <$> pre) ++ [Content url] |}) ∨
  ((∀ j u, urls !! j = Some u →
      failed (httpGet env (length (gets st) + j) (Content u))) ∧
   selectedUrl out = None ∧
   gets out = gets st ++ (Content <$> urls) ∧
   ((urls = [] ∧ resp out = resp st) ∨
    ∃ init u, urls = init ++ [u] ∧
      resp out = responseOf (httpGet env (length (gets st) + length init) (Content u)))).
Proof.
  induction urls as [|url urls IH]; intros st Hsel; cbn [connectionCheck].
  - right. split; [intros j u Hj; inversion Hj|].
    simpl. rewrite app_nil_r. by auto.
  - destruct (get env url st) as [o st1] eqn:Hget.
    assert (Ho : httpGet env (length (gets st)) (Content url) = o)
      by (by injection Hget as -> _).
    assert (Hst1 : st1 = {| resp := responseOf o; selectedUrl := None;
                            gets := gets st ++ [Content url] |}).
    { injection Hget as Ho' <-. by rewrite Ho', Hsel. }
    assert (Hrest : failed o →
      (∃ pre url0 post r,
         url :: urls = pre ++ url0 :: post ∧
         (∀ j u, pre !! j = Some u →
            failed (httpGet env (length (gets st) + j) (Content u))) ∧
         httpGet env (length (gets st) + length pre) (Content url0) = GetOk r ∧
         connectionCheck env urls st1
         = {| resp := Some r; selectedUrl := Some url0;
              gets := gets st ++ (Content <$> pre) ++ [Content url0] |}) ∨
      ((∀ j u, (url :: urls) !! j = Some u →
          failed (httpGet env (length (gets st) + j) (Content u))) ∧
       selectedUrl (connectionCheck env urls st1) = None ∧
       gets (connectionCheck env urls st1) = gets st ++ (Content <$> url :: urls) ∧
       ((url :: urls = [] ∧ resp (connectionCheck env urls st1) = resp st) ∨
        ∃ init u, url :: urls = init ++ [u] ∧
          resp (connectionCheck env urls st1)
          = responseOf (httpGet env (length (gets st) + length init) (Content u))))).
    { intros Hfail.
      assert (Hlen : length (gets st1) = S (length (gets st))).
      { rewrite Hst1. simpl. rewrite length_app. simpl. lia. }
      assert (Hshift : ∀ j, (S (length (gets st)) + j = length (gets st) + S j)%nat)
        by (intros; lia).
      destruct (IH st1) as [(pre & url0 & post & r & Hu & Hpre & Hg & Hout)
                           |(Hall & Hs & Hgets & Hresp)].
      { by rewrite Hst1. }
      - left. exists (url :: pre), url0, post, r.
        split; [by rewrite Hu|]. split.
        { intros [|j] u Hj; simpl in Hj.
          - injection Hj as <-. by rewrite Nat.add_0_r, Ho.
          - specialize (Hpre j u Hj). by rewrite Hlen, Hshift in Hpre. }
        split; [by rewrite Hlen, Hshift in Hg|].
        rewrite Hout. f_equal. rewrite Hst1. simpl. by rewrite <- app_assoc.
      - right. split.
        { intros [|j] u Hj; simpl in Hj.
          - injection Hj as <-. by rewrite Nat.add_0_r, Ho.
          - specialize (Hall j u Hj). by rewrite Hlen, Hshift in Hall. }
        split; [done|]. split.
        { rewrite Hgets, Hst1. simpl. by rewrite <- app_assoc. }
        right. destruct Hresp as [[-> Hr]|(init & u & -> & Hr)].
        + exists [], url. split; [done|].
          rewrite Hr, Hst1. simpl. by rewrite Nat.add_0_r, Ho.
        + exists (url :: init), u. split; [done|].
          by rewrite Hr, Hlen, Hshift. }
    destruct o as [r| |r].
    + left. exists [], url, urls, r. simpl. rewrite Nat.add_0_r.
      split; [done|]. split; [intros j u Hj; inversion Hj|]. split; [done|].
      by rewrite Hst1.
    + by apply Hrest.
    + by apply Hrest.
Qed.

Lemma concurrencyPass_empty env stream :
  URLs stream = [] → concurrencyPass env stream = start.
Proof.
  intros Hu. unfold concurrencyPass. rewrite Hu. simpl.
  by repeat destruct (String.eqb _ _).
Qed.

Lemma loadBalancer_picked env stream url :
  selectedUrl (concurrencyPass env stream) = Some url →
  url ∈ URLs stream ∧ checkConcurrency env (M3UIndex url) = false ∧
  ∃ r pre, gets (concurrencyPass env stream) = pre ++ [Content url] ∧
           httpGet env (length pre) (Content url) = GetOk r ∧
           loadBalancer env stream
           = ((Some r, Some url, None), gets (concurrencyPass env stream)).
Proof.
  intros Hsel. destruct (concurrencyPass_pass env stream) as (more & _ & _ & _ & H).
  rewrite Hsel in H. destruct H as (Hin & Hc & r & pre & Hr & Hg & Hget).
  split; [done|]. split; [done|]. exists r, pre. split; [done|]. split; [done|].
  unfold loadBalancer. by rewrite Hsel, Hr.
Qed.

(** C8, amended.  The cap of a source is the integer in
    [M3U_MAX_CONCURRENCY_<i>], and 1 when the variable is absent or does not
    parse; a source whose count can be read is at its cap iff the count has
    reached it, and one whose count cannot be read is taken as below its
    cap.  In the pass that looks at concurrency (round-robin or brute
    force) every URL of a source at its cap is skipped: each request of the
    pass goes to a source below its cap, and so does its pick, which
    [loadBalancer] returns with the response to the last request.  When
    that pass picks nothing, [loadBalancer] falls back to the connection
    check, which requests the URLs in list order whatever their caps: it
    returns the first URL whose request succeeds, the requests to the URLs
    before it having failed, and picks nothing when every request fails. *)
Theorem loadBalancer_cap (env : Env) (stream : StreamInfo) :
  let pass := concurrencyPass env stream in
  let variable i := "M3U_MAX_CONCURRENCY_" +:+ itoa i in
  (∀ i raw n, LookupEnv env (variable i) = Some raw → Atoi raw = Some n →
     maxConcurrencyOf env i = n) ∧
  (∀ i, (LookupEnv env (variable i) = None ∨
         ∃ raw, LookupEnv env (variable i) = Some raw ∧ Atoi raw = None) →
        maxConcurrencyOf env i = 1) ∧
  (∀ i count, GetConcurrency env i = Some count →
     (checkConcurrency env i = true ↔ maxConcurrencyOf env i ≤ count)) ∧
  (∀ i, GetConcurrency env i = None → checkConcurrency env i = false) ∧
  (∀ u, u ∈ gets pass →
     ∃ url, url ∈ URLs stream ∧ Content url = u ∧
            checkConcurrency env (M3UIndex url) = false) ∧
  (∀ url, selectedUrl pass = Some url →
     url ∈ URLs stream ∧ checkConcurrency env (M3UIndex url) = false ∧
     ∃ r pre, gets pass = pre ++ [Content url] ∧
              httpGet env (length pre) (Content url) = GetOk r ∧
              loadBalancer env stream = ((Some r, Some url, None), gets pass)) ∧
  (selectedUrl pass = None →
     (∃ pre url post r,
        URLs stream = pre ++ url :: post ∧
        (∀ j u, pre !! j = Some u →
           failed (httpGet env (length (gets pass) + j) (Content u))) ∧
        httpGet env (length (gets pass) + length pre) (Content url) = GetOk r ∧
        loadBalancer env stream
        = ((Some r, Some url, None),
           gets pass ++ (Content <$> pre) ++ [Content url])) ∨
     ((∀ j u, URLs stream !! j = Some u →
         failed (httpGet env (length (gets pass) + j) (Content u))) ∧
      (loadBalancer env stream).2 = gets pass ++ (Content <$> URLs stream) ∧
      (loadBalancer env stream).1.1.2 = None)).
Proof.
  intros pass variable. split; [|split; [|split; [|split; [|split; [|split]]]]].
  - intros i raw n Hraw Hparse. unfold maxConcurrencyOf.
    fold (variable i). by rewrite Hraw, Hparse.
  - intros i [Hnone | (raw & Hraw & Hparse)]; unfold maxConcurrencyOf;
      fold (variable i).
    + by rewrite Hnone.
    + by rewrite Hraw, Hparse.
  - intros i count Hcount. unfold checkConcurrency. rewrite Hcount.
    apply Z.leb_le.
  - intros i Hcount. unfold checkConcurrency. by rewrite Hcount.
  - destruct (concurrencyPass_pass env stream) as (more & Hg & _ & Hbelow & _).
    fold pass in Hg. simpl in Hg. rewrite Hg. exact Hbelow.
  - apply loadBalancer_picked.
  - intros Hsel.
    destruct (connectionCheck_tries env (URLs stream) pass Hsel)
      as [(pre & url & post & r & Hu & Hpre & Hg & Hout)|(Hall & Hs & Hgets & _)].
    + left. exists pre, url, post, r. split; [done|]. split; [done|]. split; [done|].
      unfold loadBalancer. fold pass. by rewrite Hsel, Hout.
    + right. split; [done|]. unfold loadBalancer. fold pass. rewrite Hsel.
      by destruct (resp (connectionCheck env (URLs stream) pass)).
Qed.

Lemma loadBalancer_cap_witness :
  maxConcurrencyOf envFirstDown 1 = 3 ∧
  maxConcurrencyOf envFirstDown 2 = 1 ∧
  checkConcurrency envFirstDown 1 = false ∧
  checkConcurrency envFirstDown 2 = false ∧
  loadBalancer envFirstDown twoSources
  = ((Some hello, Some {| Content := "http://u2/a.mp4"; M3UIndex := 2 |}, None),
     ["http://u1/a.mp4"; "http://u2/a.mp4"]).
Proof.
  destruct (loadBalancer_cap envFirstDown twoSources)
    as (Hcap & Hdefault & _ & _ & _ & Hpick & _).
  split; [by apply (Hcap 1 "3" 3)|].
  split; [apply (Hdefault 2); right; by exists "many"|].
  destruct (Hpick {| Content := "http://u2/a.mp4"; M3UIndex := 2 |})
    as (_ & Hc & r & pre & _ & Hget & Hlb); [reflexivity|].
  change (GetOk hello = GetOk r) in Hget. injection Hget as <-.
  split; [reflexivity|]. split; [exact Hc|].
  rewrite Hlb. reflexivity.
Defined.

(** C8, as stated, fails: the only source has one active connection and no
    cap configured, so it is at its cap of 1; the concurrency pass skips it,
    and the connection check then requests it and returns it as the pick. *)
Lemma fallback_picks_source_at_cap :
  GetConcurrency envAtCap 1 = Some 1 ∧
  maxConcurrencyOf envAtCap 1 = 1 ∧
  checkConcurrency envAtCap 1 = true ∧
  concurrencyPass envAtCap onlySource = start ∧
  loadBalancer envAtCap onlySource
    = ((Some hello, Some {| Content := "http://u1/a.mp4"; M3UIndex := 1 |}, None),
       ["http://u1/a.mp4"]).
Proof. repeat split; vm_compute; reflexivity. Qed.

(** **** Further properties of the MP4 balancer *)

Lemma roundRobin_no_failure env urls : ∀ todo i st,
  (∀ n url, url ∈ urls → ∃ r, httpGet env n (Content url) = GetOk r) →
  (i + todo = length urls)%nat →
  roundRobin env urls todo i 0 st = bruteForce env (drop i urls) st.
Proof.
  induction todo as [|todo IH]; intros i st Hget Hlen.
  - simpl. rewrite drop_ge by lia. done.
  - cbn [roundRobin]. rewrite Nat.add_0_l, Nat.mod_small by lia.
    destruct (lookup_lt_is_Some_2 urls i) as [url Hurl]; [lia|].
    rewrite Hurl, (drop_S _ _ _ Hurl). cbn [bruteForce].
    destruct (checkConcurrency env (M3UIndex url)); [apply IH; [done|lia]|].
    unfold get.
    destruct (Hget (length (gets st)) url) as [r ->]; [|done].
    by eapply list_elem_of_lookup_2.
Qed.

(** X19.  In round-robin mode, when every URL of the stream answers, the
    pass that looks at concurrency does exactly what brute force does: the
    index it starts from is 0 at every call, so it picks the first URL in
    list order whose source is below its cap. *)
Theorem roundRobin_is_bruteForce (env : Env) (stream : StreamInfo) :
  (∀ n url, url ∈ URLs stream → ∃ r, httpGet env n (Content url) = GetOk r) →
  Getenv env "LOAD_BALANCING_MODE" = "round-robin" →
  concurrencyPass env stream = bruteForce env (URLs stream) start.
Proof.
  intros Hget Hmode. unfold concurrencyPass. rewrite Hmode. simpl.
  by apply (roundRobin_no_failure env (URLs stream) (length (URLs stream)) 0%nat start).
Qed.

Lemma roundRobin_is_bruteForce_witness :
  Getenv envRoundRobin "LOAD_BALANCING_MODE" = "round-robin" ∧
  concurrencyPass envRoundRobin twoSources
    = bruteForce envRoundRobin (URLs twoSources) start ∧
  bruteForce envRoundRobin (URLs twoSources) start
    = {| resp := Some hello;
         selectedUrl := Some {| Content := "http://u2/a.mp4"; M3UIndex := 2 |};
         gets := ["http://u2/a.mp4"] |}.
Proof.
  split; [reflexivity|]. split; [|vm_compute; reflexivity].
  apply (roundRobin_is_bruteForce envRoundRobin twoSources); [|reflexivity].
  intros n url _. by exists hello.
Defined.

Lemma failed_somewhere env (urls : list StreamURL) n :
  (∀ j u, urls !! j = Some u → failed (httpGet env (n + j) (Content u))) →
  ∀ url, url ∈ urls → ∃ k, failed (httpGet env k (Content url)).
Proof.
  intros Hall url Hin. apply list_elem_of_lookup_1 in Hin as [j Hj].
  exists (n + j)%nat. by apply Hall.
Qed.

(** X20.  [loadBalancer] sends at most twice as many requests as the stream
    has URLs.  It returns one of three results.  A response with a pick:
    the pick is a URL of the stream, the request sent last went to it and
    succeeded, and the response is its answer.  A response without a pick:
    every URL of the stream has failed a request, the request sent last
    went to the last URL of the stream, and the response is the one that
    came with its error.  The exhausted error, with neither: every URL of
    the stream has failed a request (there may be none), and the request
    sent last, to the last URL, came back without a response. *)
Theorem loadBalancer_result (env : Env) (stream : StreamInfo) :
  let out := loadBalancer env stream in
  (length out.2 ≤ 2 * length (URLs stream))%nat ∧
  match out.1 with
  | (Some r, Some url, None) =>
      url ∈ URLs stream ∧
      ∃ pre, out.2 = pre ++ [Content url] ∧
             httpGet env (length pre) (Content url) = GetOk r
  | (Some r, None, None) =>
      (∀ url, url ∈ URLs stream → ∃ n, failed (httpGet env n (Content url))) ∧
      ∃ pre url, last (URLs stream) = Some url ∧ out.2 = pre ++ [Content url] ∧
                 httpGet env (length pre) (Content url) = GetErrResp r
  | (None, None, Some ErrExhausted) =>
      (∀ url, url ∈ URLs stream → ∃ n, failed (httpGet env n (Content url))) ∧
      ((URLs stream = [] ∧ out.2 = []) ∨
       ∃ pre url, last (URLs stream) = Some url ∧ out.2 = pre ++ [Content url] ∧
                  httpGet env (length pre) (Content url) = GetErr)
  | _ => False
  end.
Proof.
  intros out. subst out.
  destruct (concurrencyPass_pass env stream) as (more & Hg & Hlen & _ & _).
  simpl in Hg.
  assert (Hpass : (length (gets (concurrencyPass env stream))
                   ≤ length (URLs stream))%nat) by (by rewrite Hg).
  clear more Hg Hlen.
  destruct (selectedUrl (concurrencyPass env stream)) as [url|] eqn:Hsel.
  { destruct (loadBalancer_picked env stream url Hsel)
      as (Hin & _ & r & pre & Hpre & Hget & ->). simpl.
    split; [lia|]. split; [done|]. by exists pre. }
  destruct (connectionCheck_tries env (URLs stream) _ Hsel)
    as [(pre & url & post & r & Hu & Hpre & Hget & Hout)
       |(Hall & Hs & Hgets & Hresp)].
  - unfold loadBalancer. rewrite Hsel, Hout. simpl. split.
    { assert (length pre < length (URLs stream))%nat
        by (rewrite Hu, length_app; simpl; lia).
      rewrite !length_app, length_fmap. simpl. lia. }
    split; [rewrite Hu; apply elem_of_app; right; left|].
    exists (gets (concurrencyPass env stream) ++ (Content <$> pre)).
    split; [by rewrite app_assoc|]. by rewrite length_app, length_fmap.
  - pose proof (failed_somewhere env (URLs stream) _ Hall) as Hsome.
    unfold loadBalancer. rewrite Hsel.
    set (chk := connectionCheck env (URLs stream) (concurrencyPass env stream)) in *.
    assert (Hbound : (length (gets chk) ≤ 2 * length (URLs stream))%nat).
    { rewrite Hgets, length_app, length_fmap. lia. }
    destruct Hresp as [[Hnil Hr]|(init & u & Hu & Hr)].
    + rewrite (concurrencyPass_empty env stream Hnil) in Hr, Hgets.
      simpl in Hr, Hgets. rewrite Hr. simpl. split; [done|]. split; [done|].
      left. by rewrite Hgets, Hnil.
    + assert (Hlast : last (URLs stream) = Some u) by (by rewrite Hu, last_snoc).
      assert (Hpre : gets chk
                = (gets (concurrencyPass env stream) ++ (Content <$> init))
                  ++ [Content u]).
      { by rewrite Hgets, Hu, fmap_app, app_assoc. }
      assert (Hcall : length (gets (concurrencyPass env stream) ++ (Content <$> init))
                = (length (gets (concurrencyPass env stream)) + length init)%nat).
      { by rewrite length_app, length_fmap. }
      assert (Hfail : failed (httpGet env
                (length (gets (concurrencyPass env stream)) + length init) (Content u))).
      { apply Hall. rewrite Hu. by apply list_lookup_middle. }
      destruct (httpGet env (length (gets (concurrencyPass env stream)) + length init)
                  (Content u)) as [r| |r] eqn:Hget.
      * by destruct (Hfail r).
      * rewrite Hr. simpl. split; [done|]. split; [done|]. right.
        exists (gets (concurrencyPass env stream) ++ (Content <$> init)), u.
        split; [done|]. split; [done|]. by rewrite Hcall.
      * rewrite Hr, Hs. simpl. split; [done|]. split; [done|].
        exists (gets (concurrencyPass env stream) ++ (Content <$> init)), u.
        split; [done|]. split; [done|]. by rewrite Hcall.
Qed.

(** Round-robin mode moves its start index by one at every failure while
    the loop counter moves on as well: with two URLs of which the first is
    down, the pass requests the first URL twice and never the second, and
    the connection check requests the first a third time. *)
Lemma roundRobin_repeats_url :
  loadBalancer envRoundRobinDown twoSources
  = ((Some hello, Some {| Content := "http://u2/a.mp4"; M3UIndex := 2 |}, None),
     ["http://u1/a.mp4"; "http://u1/a.mp4"; "http://u1/a.mp4"; "http://u2/a.mp4"]).
Proof. vm_compute. reflexivity. Qed.

(** A request that ends in a failed redirect leaves its response in [resp]:
    when it is the last request of the connection check, [loadBalancer]
    returns that response, a nil [selectedUrl] and a nil error. *)
Lemma loadBalancer_response_without_pick :
  loadBalancer envRedirects onlySource
  = ((Some moved, None, None), ["http://u1/a.mp4"; "http://u1/a.mp4"]).
Proof. vm_compute. reflexivity. Qed.

(** X21.  When some URL of the stream always answers, [loadBalancer]
    returns a pick, whatever the caps and the mode. *)
Theorem loadBalancer_reachable (env : Env) (stream : StreamInfo) (url : StreamURL) :
  url ∈ URLs stream →
  (∀ n, ∃ r, httpGet env n (Content url) = GetOk r) →
  ∃ r picked, picked ∈ URLs stream ∧
    (loadBalancer env stream).1 = (Some r, Some picked, None).
Proof.
  intros Hin Hget.
  destruct (selectedUrl (concurrencyPass env stream)) as [u|] eqn:Hsel.
  { destruct (loadBalancer_picked env stream u Hsel)
      as (Hu & _ & r & pre & _ & _ & ->). by exists r, u. }
  destruct (connectionCheck_tries env (URLs stream) _ Hsel)
    as [(pre & u & post & r & Hu & _ & _ & Hout)|(Hall & _)].
  - exists r, u. split; [rewrite Hu; apply elem_of_app; right; left|].
    unfold loadBalancer. by rewrite Hsel, Hout.
  - destruct (failed_somewhere env (URLs stream) _ Hall url Hin) as [k Hk].
    destruct (Hget k) as [r Hr]. by destruct (Hk r).
Qed.

Lemma loadBalancer_reachable_witness :
  {| Content := "http://u1/a.mp4"; M3UIndex := 1 |} ∈ URLs onlySource ∧
  checkConcurrency envAtCap 1 = true ∧
  ∃ r picked, picked ∈ URLs onlySource ∧
    (loadBalancer envAtCap onlySource).1 = (Some r, Some picked, None).
Proof.
  assert (Hin : {| Content := "http://u1/a.mp4"; M3UIndex := 1 |} ∈ URLs onlySource)
    by apply list_elem_of_here.
  split; [exact Hin|]. split; [reflexivity|].
  apply (loadBalancer_reachable envAtCap onlySource _ Hin).
  intros n. by exists hello.
Defined.

End MP4Facts.

(** ** The slug codec *)

Module SlugFacts.
Import Slug.

Lemma EncodeSlug_empty lib stream : EncodeSlug lib stream = "".
Proof.
  unfold EncodeSlug. destruct (json_Marshal lib stream) as [jsonData|]; [|done].
  by destruct (zstd_CompressLevel lib [] jsonData BestCompression).
Qed.

Lemma DecodeSlug_constant lib encodedSlug result :
  DecodeSlug lib encodedSlug = Ok result → json_Unmarshal lib [] = Some result.
Proof.
  unfold DecodeSlug.
  destruct (base64_DecodeString lib _) as [decodedData|]; [|done].
  destruct (zstd_Decompress lib [] decodedData); [|done].
  destruct (json_Unmarshal lib []); [|done]. by intros [= ->].
Qed.

(** C10 fails on the code.  [EncodeSlug] encodes [compressedData], which is
    still the nil slice it was declared as (the compressed bytes are in
    [out]), so it returns the empty string for every stream; [DecodeSlug]
    deserializes [decompressedData], nil as well, so a stream it returns is
    what the empty input deserializes to, whatever the slug.  On the
    scenario's stream the slug is empty and decoding it fails: the empty
    slug decodes to no bytes, which do not decompress. *)
Theorem slug_codec_drops_stream :
  (∀ lib stream, EncodeSlug lib stream = "") ∧
  (∀ lib encodedSlug result,
     DecodeSlug lib encodedSlug = Ok result → json_Unmarshal lib [] = Some result) ∧
  EncodeSlug demoLib news = "" ∧
  DecodeSlug demoLib (EncodeSlug demoLib news) = Err ErrDecompress.
Proof.
  split; [exact EncodeSlug_empty|]. split; [exact DecodeSlug_constant|].
  split; vm_compute; reflexivity.
Qed.

(** **** The text of a slug *)

Lemma DecodeSlug_decoderInput lib s t :
  decoderInput s = decoderInput t → DecodeSlug lib s = DecodeSlug lib t.
Proof. unfold DecodeSlug, decoderInput. by intros ->. Qed.

Lemma sextet_cases (P : ascii → Prop) :
  Forall P (list_ascii_of_string encodeStd) → ∀ n, P (sextet n).
Proof.
  intros Hall n. unfold sextet.
  assert (Hlt : (N.to_nat (n mod 64) < 64)%nat).
  { pose proof (N.mod_upper_bound n 64). lia. }
  destruct (String.get (N.to_nat (n mod 64)) encodeStd) as [c|] eqn:Hget; simpl.
  - rewrite Forall_forall in Hall. apply Hall.
    revert Hget. generalize (N.to_nat (n mod 64)). generalize encodeStd.
    induction s as [|c' s IH]; intros k; simpl; [done|].
    destruct k; [intros [= ->]; by left|]. intros H. right. by eapply IH.
  - revert Hget Hlt. generalize (N.to_nat (n mod 64)). intros k.
    do 64 (destruct k as [|k]; [done|]). lia.
Qed.

Lemma sextet_plain n : plain (sextet n).
Proof.
  apply sextet_cases. unfold encodeStd. simpl.
  repeat (apply Forall_cons; split; [by repeat split|]). apply Forall_nil. done.
Qed.

Lemma padSlug_block c1 c2 c3 c4 s :
  padSlug (String c1 (String c2 (String c3 (String c4 s))))
  = String c1 (String c2 (String c3 (String c4 (padSlug s)))).
Proof.
  unfold padSlug. cbn [String.length].
  replace (S (S (S (S (String.length s))))) with (String.length s + 1 * 4)%nat by lia.
  rewrite Nat.Div0.mod_add.
  destruct (String.length s mod 4)%nat as [|[|[|[|k]]]]; reflexivity.
Qed.

Lemma slug_text_three_bytes (P : list byte → Prop) :
  P [] → (∀ a, P [a]) → (∀ a b, P [a; b]) →
  (∀ a b c rest, P rest → P (a :: b :: c :: rest)) →
  ∀ l, P l.
Proof.
  intros H0 H1 H2 H3 l.
  assert (H : ∀ n l, (length l ≤ n)%nat → P l).
  { clear l. induction n as [|n IH]; intros l Hl.
    - destruct l; [done|simpl in Hl; lia].
    - destruct l as [|a [|b [|c rest]]]; try done.
      apply H3, IH. simpl in Hl. lia. }
  by apply (H (length l)).
Qed.

(** X22.  The text of a slug.  For the base64 text of any bytes, the
    rewriting of [DecodeSlug] (the two replacements and the padding) undoes
    the rewriting of [EncodeSlug] (the two replacements and the removal of
    the padding): the decoder is handed the standard base64 text again, and
    [DecodeSlug] treats the URL-safe and the standard text alike. *)
Theorem slug_text_round_trip (lib : Lib) (src : list byte) :
  decoderInput (urlSafe (EncodeToString src)) = EncodeToString src ∧
  decoderInput (EncodeToString src) = EncodeToString src ∧
  DecodeSlug lib (urlSafe (EncodeToString src)) = DecodeSlug lib (EncodeToString src).
Proof.
  assert (H : decoderInput (urlSafe (EncodeToString src)) = EncodeToString src ∧
              decoderInput (EncodeToString src) = EncodeToString src).
  { induction src as [|a|a b|a b c rest [IH1 IH2]] using slug_text_three_bytes.
    - done.
    - cbn [EncodeToString]. unfold decoderInput.
      destruct (sextet_plain (Byte.to_N a * 65536 / 262144)) as (E1 & D1 & S1).
      destruct (sextet_plain (Byte.to_N a * 65536 / 4096)) as (E2 & D2 & S2).
      rewrite E1, E2, D1, D2, S1, S2. done.
    - cbn [EncodeToString]. unfold decoderInput.
      destruct (sextet_plain ((Byte.to_N a * 65536 + Byte.to_N b * 256) / 262144))
        as (E1 & D1 & S1).
      destruct (sextet_plain ((Byte.to_N a * 65536 + Byte.to_N b * 256) / 4096))
        as (E2 & D2 & S2).
      destruct (sextet_plain ((Byte.to_N a * 65536 + Byte.to_N b * 256) / 64))
        as (E3 & D3 & S3).
      rewrite E1, E2, E3, D1, D2, D3, S1, S2, S3. done.
    - cbn [EncodeToString]. unfold decoderInput in *.
      set (v := (Byte.to_N a * 65536 + Byte.to_N b * 256 + Byte.to_N c)%N).
      destruct (sextet_plain (v / 262144)) as (E1 & D1 & S1).
      destruct (sextet_plain (v / 4096)) as (E2 & D2 & S2).
      destruct (sextet_plain (v / 64)) as (E3 & D3 & S3).
      destruct (sextet_plain v) as (E4 & D4 & S4).
      rewrite E1, E2, E3, E4, D1, D2, D3, D4, S1, S2, S3, S4.
      rewrite !padSlug_block, IH1, IH2. done. }
  destruct H as [H1 H2]. split; [exact H1|]. split; [exact H2|].
  apply DecodeSlug_decoderInput. by rewrite H1, H2.
Qed.

End SlugFacts.

(** ** The sorter of package sourceproc *)

Module SorterFacts.
Import Sorter.

Lemma mergeInner_lookup entries : ∀ inner k,
  NoDup entries.*1 →
  mergeInner inner entries !! k =
  match list_to_map (M := gmap string string) entries !! k with
  | Some v => Some v
  | None => inner !! k
  end.
Proof.
  induction entries as [|[k' v'] entries IH]; intros inner k Hnd; simpl.
  - by rewrite lookup_empty.
  - apply NoDup_cons in Hnd as [Hk' Hnd].
    unfold mergeInner in *. simpl. rewrite (IH _ _ Hnd).
    destruct (decide (k' = k)) as [->|Hne].
    + rewrite lookup_insert_eq.
      rewrite (not_elem_of_list_to_map_1 entries k Hk').
      by rewrite lookup_insert_eq.
    + rewrite !lookup_insert_ne by done. done.
Qed.

Lemma mergeInner_union inner value order :
  order ≡ₚ map_to_list value → mergeInner inner order = value ∪ inner.
Proof.
  intros Hp. apply map_eq. intros k.
  rewrite mergeInner_lookup.
  2:{ rewrite Hp. apply NoDup_fst_map_to_list. }
  rewrite lookup_union.
  assert (Hl : list_to_map (M := gmap string string) order = value).
  { rewrite <- (list_to_map_to_list value). apply list_to_map_proper; [|done].
    rewrite Hp. apply NoDup_fst_map_to_list. }
  rewrite Hl. destruct (value !! k), (inner !! k); done.
Qed.

Section MergeURLs.
Context (innerOrder : gmap string string → list (string * string)).
Context (Hinner : ∀ m, innerOrder m ≡ₚ map_to_list m).

Lemma mergeURLs_lookup outer : ∀ base k,
  NoDup outer.*1 →
  mergeURLs base outer innerOrder !! k =
  match list_to_map (M := gmap string (gmap string string)) outer !! k with
  | Some n => Some (match base !! k with Some b => n ∪ b | None => n end)
  | None => base !! k
  end.
Proof.
  induction outer as [|[k' v'] outer IH]; intros base k Hnd; simpl.
  - by rewrite lookup_empty.
  - apply NoDup_cons in Hnd as [Hk' Hnd].
    unfold mergeURLs in *. simpl. rewrite (IH _ _ Hnd).
    destruct (decide (k' = k)) as [->|Hne].
    + rewrite lookup_insert_eq, (not_elem_of_list_to_map_1 outer k Hk').
      destruct (base !! k) as [inner|] eqn:Hb.
      * by rewrite lookup_insert_eq, (mergeInner_union inner v' _ (Hinner v')).
      * by rewrite lookup_insert_eq.
    + rewrite lookup_insert_ne by done.
      destruct (list_to_map outer !! k); destruct (base !! k') eqn:Hb;
        by rewrite lookup_insert_ne by done.
Qed.

Lemma mergeURLs_union base new outer :
  outer ≡ₚ map_to_list new →
  mergeURLs base outer innerOrder = union_with (λ n b, Some (n ∪ b)) new base.
Proof.
  intros Hp. apply map_eq. intros k.
  rewrite mergeURLs_lookup.
  2:{ rewrite Hp. apply NoDup_fst_map_to_list. }
  assert (Hl : list_to_map (M := gmap string (gmap string string)) outer = new).
  { rewrite <- (list_to_map_to_list new). apply list_to_map_proper; [|done].
    rewrite Hp. apply NoDup_fst_map_to_list. }
  rewrite Hl, lookup_union_with.
  destruct (new !! k), (base !! k); done.
Qed.
End MergeURLs.

Lemma substring_length n m s : (String.length (String.substring n m s) ≤ m)%nat.
Proof.
  revert n m. induction s as [|c s IH]; intros n m; simpl.
  - destruct n, m; simpl; lia.
  - destruct n; [destruct m; simpl; [lia|]|].
    + specialize (IH 0%nat m). lia.
    + apply IH.
Qed.

Lemma substring_In n m s c :
  In c (list_ascii_of_string (String.substring n m s)) →
  In c (list_ascii_of_string s).
Proof.
  revert n m. induction s as [|c' s IH]; intros n m; simpl.
  - destruct n, m; simpl; tauto.
  - destruct n; [destruct m; simpl; [tauto|]|].
    + intros [->|H]; [by left|]. right. by apply (IH 0%nat m).
    + intros H. right. by apply (IH n m).
Qed.

Lemma replaceUnsafe_safe v c :
  In c (list_ascii_of_string (replaceUnsafe v)) → isUnsafe c = false ∧ c ≠ space.
Proof.
  induction v as [|c' v IH]; simpl; [tauto|].
  destruct (isUnsafe c') eqn:Hu; simpl.
  - intros [<-|H]; [|by apply IH]. split; [reflexivity|discriminate].
  - destruct (Ascii.eqb_spec c' space) as [->|Hs]; simpl; [apply IH|].
    intros [<-|H]; [done|by apply IH].
Qed.



(** X4.  A sanitized field is at most 100 bytes long and holds none of the
    characters that are unsafe in a file name (slash, backslash, colon,
    star, question mark, double quote, less, greater, bar) and no space. *)
Theorem sanitizeField_safe (value : string) :
  (String.length (sanitizeField value) ≤ 100)%nat ∧
  ∀ c, In c (list_ascii_of_string (sanitizeField value)) →
       isUnsafe c = false ∧ c ≠ space.
Proof.
  unfold sanitizeField.
  destruct (Nat.ltb_spec 100 (String.length (replaceUnsafe value))) as [Hlt|Hge].
  - split; [apply substring_length|].
    intros c Hc. apply (replaceUnsafe_safe value), (substring_In 0 100), Hc.
  - split; [exact Hge|]. apply replaceUnsafe_safe.
Qed.

(** **** Further properties of the sorter *)

Lemma compare_refl s : String.compare s s = Eq.
Proof.
  pose proof (String.compare_antisym s s) as H.
  by destruct (String.compare s s).
Qed.

Lemma ltb_irrefl s : String.ltb s s = false.
Proof. unfold String.ltb. by rewrite compare_refl. Qed.

Lemma ltb_total a b : String.ltb a b = false → a ≠ b → String.ltb b a = true.
Proof.
  unfold String.ltb. rewrite (String.compare_antisym a b).
  destruct (String.compare b a) eqn:Hc; simpl; try done.
  apply String.compare_eq_iff in Hc. congruence.
Qed.

(** X23.  The source a merged stream is attributed to is that of one of
    the two streams, and the smaller of the two: by [SourceM3U] compared as
    a string, then by [SourceIndex]. *)
Theorem mergeStreamInfoAttributes_source (base new : StreamInfo)
    (outer : list (string * gmap string string))
    (innerOrder : gmap string string → list (string * string)) :
  let merged := mergeStreamInfoAttributes base new outer innerOrder in
  (sourceOf merged = sourceOf base ∨ sourceOf merged = sourceOf new) ∧
  sourceLe (sourceOf merged) (sourceOf base) ∧
  sourceLe (sourceOf merged) (sourceOf new).
Proof.
  unfold sourceOf, sourceLe, mergeStreamInfoAttributes. simpl.
  destruct (String.ltb (SourceM3U new) (SourceM3U base)) eqn:Hlt; simpl.
  { split; [by right|]. split; [by left|]. right. split; [done|lia]. }
  destruct (String.eqb_spec (SourceM3U new) (SourceM3U base)) as [He|Hne]; simpl.
  - destruct (Z.ltb_spec (SourceIndex new) (SourceIndex base)).
    + split; [by right|]. split; right; (split; [done|lia]).
    + split; [by left|]. split; right; (split; [done|lia]).
  - split; [by left|]. split; [right; split; [done|lia]|].
    left. by apply ltb_total.
Qed.

Lemma orElse_idemp a b : orElse (orElse a b) b = orElse a b.
Proof.
  unfold orElse. destruct (String.eqb_spec a ""); [|by destruct (String.eqb_spec a "")].
  by destruct (String.eqb_spec b "").
Qed.



Lemma replaceUnsafe_id v :
  (∀ c, In c (list_ascii_of_string v) → isUnsafe c = false ∧ c ≠ space) →
  replaceUnsafe v = v.
Proof.
  induction v as [|c v IH]; simpl; [done|]. intros H.
  destruct (H c) as [-> Hs]; [by left|].
  destruct (Ascii.eqb_spec c space); [done|]. rewrite IH; [done|]. intros; apply H. by right.
Qed.

Lemma sanitizeField_chars value :
  (String.length (sanitizeField value) ≤ 100)%nat ∧
  ∀ c, In c (list_ascii_of_string (sanitizeField value)) →
       isUnsafe c = false ∧ c ≠ space.
Proof.
  unfold sanitizeField.
  destruct (Nat.ltb_spec 100 (String.length (replaceUnsafe value))) as [Hlt|Hge].
  - split; [apply substring_length|].
    intros c Hc. apply (replaceUnsafe_safe value), (substring_In 0 100), Hc.
  - split; [exact Hge|]. apply replaceUnsafe_safe.
Qed.

(** X25.  Sanitizing a sanitized field changes nothing. *)
Theorem sanitizeField_idemp (value : string) :
  sanitizeField (sanitizeField value) = sanitizeField value.
Proof.
  destruct (sanitizeField_chars value) as [Hlen Hsafe].
  unfold sanitizeField at 1. rewrite (replaceUnsafe_id _ Hsafe).
  destruct (Nat.ltb_spec 100 (String.length (sanitizeField value))); [lia|done].
Qed.

(** **** The order of the sort keys *)

Lemma digitChar_compare x y :
  0 ≤ x < 10 → 0 ≤ y < 10 →
  Ascii.compare (digitChar x) (digitChar y) = (x ?= y).
Proof.
  intros Hx Hy. unfold Ascii.compare, digitChar.
  rewrite !N_ascii_embedding by lia.
  destruct (Z.compare_spec x y);
    [apply N.compare_eq_iff|apply N.compare_lt_iff|apply N.compare_gt_iff]; lia.
Qed.

Lemma fixedDigits_compare : ∀ (w : nat) (a b : Z),
  0 ≤ a < 10 ^ Z.of_nat w → 0 ≤ b < 10 ^ Z.of_nat w →
  String.compare (fixedDigits w a) (fixedDigits w b) = (a ?= b).
Proof.
  induction w as [|w IH]; intros a b Ha Hb.
  - simpl in *. assert (a = 0) as -> by lia. assert (b = 0) as -> by lia. done.
  - rewrite Nat2Z.inj_succ, Z.pow_succ_r in Ha, Hb by lia.
    cbn [fixedDigits String.compare].
    set (p := 10 ^ Z.of_nat w) in *.
    assert (Hp : 0 < p) by (apply Z.pow_pos_nonneg; lia).
    pose proof (Z.div_mod a p ltac:(lia)) as Ea.
    pose proof (Z.div_mod b p ltac:(lia)) as Eb.
    pose proof (Z.mod_pos_bound a p Hp) as Ra.
    pose proof (Z.mod_pos_bound b p Hp) as Rb.
    assert (Qa : 0 ≤ a / p < 10).
    { split; [apply Z.div_pos; lia|apply Z.div_lt_upper_bound; lia]. }
    assert (Qb : 0 ≤ b / p < 10).
    { split; [apply Z.div_pos; lia|apply Z.div_lt_upper_bound; lia]. }
    rewrite (digitChar_compare _ _ Qa Qb).
    destruct (Z.compare_spec (a / p) (b / p)) as [He|Hlt|Hgt].
    + rewrite (IH _ _ Ra Rb).
      destruct (Z.compare_spec (a mod p) (b mod p)); symmetry;
        [apply Z.compare_eq_iff|apply Z.compare_lt_iff|apply Z.compare_gt_iff];
        rewrite He in Ea; lia.
    + symmetry. apply Z.compare_lt_iff. nia.
    + symmetry. apply Z.compare_gt_iff. nia.
Qed.

Lemma Sprintf_0d_fixed w n :
  0 ≤ n < 10 ^ Z.of_nat w → (0 < w)%nat → Sprintf_0d w n = fixedDigits w n.
Proof.
  intros [H0 H1] Hw. unfold Sprintf_0d.
  destruct (Z.leb_spec 0 n); [|lia].
  destruct (Z.ltb_spec 0 (Z.of_nat w)); [|lia].
  by destruct (Z.ltb_spec n (10 ^ Z.of_nat w)); [|lia].
Qed.

Lemma Sprintf_0d_negative w n :
  n < 0 → - n < 10 ^ Z.of_nat (w - 1) → (1 < w)%nat →
  Sprintf_0d w n = String "-" (fixedDigits (w - 1) (- n)).
Proof.
  intros H0 H1 Hw. unfold Sprintf_0d.
  destruct (Z.leb_spec 0 n); [lia|].
  destruct (Z.ltb_spec 0 (Z.of_nat (w - 1))); [|lia].
  by destruct (Z.ltb_spec (- n) (10 ^ Z.of_nat (w - 1))); [|lia].
Qed.

Lemma digitChar_after_minus d :
  0 ≤ d < 10 → Ascii.compare "-" (digitChar d) = Lt ∧
               Ascii.compare (digitChar d) "-" = Gt.
Proof.
  intros Hd. unfold Ascii.compare, digitChar.
  rewrite N_ascii_embedding by lia.
  split; [apply N.compare_lt_iff|apply N.compare_gt_iff]; simpl; lia.
Qed.

Lemma fixedDigits_after_minus w n s :
  0 ≤ n < 10 ^ Z.of_nat w → (0 < w)%nat →
  String.compare (String "-" s) (fixedDigits w n) = Lt ∧
  String.compare (fixedDigits w n) (String "-" s) = Gt.
Proof.
  intros Hn Hw. destruct w as [|w]; [lia|].
  rewrite Nat2Z.inj_succ, Z.pow_succ_r in Hn by lia.
  cbn [fixedDigits String.compare].
  assert (Hp : 0 < 10 ^ Z.of_nat w) by (apply Z.pow_pos_nonneg; lia).
  assert (Hd : 0 ≤ n / 10 ^ Z.of_nat w < 10).
  { split; [apply Z.div_pos; lia|apply Z.div_lt_upper_bound; lia]. }
  destruct (digitChar_after_minus _ Hd) as [-> ->]. done.
Qed.

Lemma Sprintf_0d_compare w x y :
  fits w x → fits w y →
  String.compare (Sprintf_0d w x) (Sprintf_0d w y) = keyOrder x y.
Proof.
  unfold keyOrder.
  intros [[Hx Hw]|(Hx & Hx' & Hw)] [[Hy Hw']|(Hy & Hy' & Hw')].
  - rewrite !Sprintf_0d_fixed by done.
    destruct (Z.ltb_spec x 0); [lia|]. cbn [andb]. by apply fixedDigits_compare.
  - rewrite (Sprintf_0d_fixed w x), (Sprintf_0d_negative w y) by done.
    destruct (Z.ltb_spec x 0); [lia|]. cbn [andb].
    destruct (fixedDigits_after_minus w x (fixedDigits (w - 1) (- y)) Hx Hw)
      as [_ ->].
    symmetry. apply Z.compare_gt_iff. lia.
  - rewrite (Sprintf_0d_negative w x), (Sprintf_0d_fixed w y) by done.
    destruct (Z.ltb_spec x 0); [|lia]. destruct (Z.ltb_spec y 0); [lia|]. cbn [andb].
    destruct (fixedDigits_after_minus w y (fixedDigits (w - 1) (- x)) Hy Hw')
      as [-> _].
    symmetry. apply Z.compare_lt_iff. lia.
  - rewrite !Sprintf_0d_negative by done.
    destruct (Z.ltb_spec x 0); [|lia]. destruct (Z.ltb_spec y 0); [|lia]. cbn [andb].
    cbn [String.compare]. change (Ascii.compare "-" "-") with Eq. cbv iota.
    rewrite fixedDigits_compare by lia.
    destruct (Z.compare_spec (- x) (- y)); symmetry;
      [apply Z.compare_eq_iff|apply Z.compare_lt_iff|apply Z.compare_gt_iff]; lia.
Qed.

Lemma int64_small x : - 2 ^ 63 ≤ x < 2 ^ 63 → int64 x = x.
Proof. intros H. unfold int64. rewrite Z.mod_small; lia. Qed.

(** X26.  The order of the sort keys, compared as strings.  The key of a
    numeric field is only ordered when the number is printed in exactly
    the width ([fits]).  Then, in a direction other than [desc], the keys
    of two numbers of which one at least is not negative order as the
    numbers do, and the keys of two negative numbers in the opposite order.
    In direction [desc] the number printed is [maxValue] minus the value,
    wrapped to int64: the keys of two values up to [maxValue] order opposite
    to the values, and the keys of two values above [maxValue] order as the
    values do.  The [desc] key of a string field, the value behind a
    tilde, orders as the values do: it is not reversed. *)
Theorem sort_keys_order (width : nat) :
  (∀ va vb a b direction,
     Atoi va = Some a → Atoi vb = Some b → direction ≠ "desc" →
     fits width a → fits width b →
     String.compare (normalizeNumericField va width direction)
                    (normalizeNumericField vb width direction) = keyOrder a b ∧
     (0 ≤ a ∨ 0 ≤ b → keyOrder a b = (a ?= b)) ∧
     (a < 0 → b < 0 → keyOrder a b = (b ?= a))) ∧
  (∀ va vb a b,
     Atoi va = Some a → Atoi vb = Some b →
     fits width (int64 (maxValue - a)) → fits width (int64 (maxValue - b)) →
     String.compare (normalizeNumericField va width "desc")
                    (normalizeNumericField vb width "desc")
     = keyOrder (int64 (maxValue - a)) (int64 (maxValue - b)) ∧
     (- 2 ^ 62 ≤ a ≤ maxValue → - 2 ^ 62 ≤ b ≤ maxValue →
      keyOrder (int64 (maxValue - a)) (int64 (maxValue - b)) = (b ?= a)) ∧
     (maxValue < a < 2 ^ 63 → maxValue < b < 2 ^ 63 →
      keyOrder (int64 (maxValue - a)) (int64 (maxValue - b)) = (a ?= b))) ∧
  (∀ sa sb,
     String.compare (normalizeStringField sa "desc") (normalizeStringField sb "desc")
     = String.compare sa sb).
Proof.
  split; [|split].
  - intros va vb a b direction Ha Hb Hd Fa Fb. split; [|split].
    + unfold normalizeNumericField. rewrite Ha, Hb.
      destruct (String.eqb_spec direction "desc"); [done|].
      by apply Sprintf_0d_compare.
    + intros Hs. unfold keyOrder.
      destruct (Z.ltb_spec a 0); [|done]. by destruct (Z.ltb_spec b 0); [lia|].
    + intros Hna Hnb. unfold keyOrder.
      destruct (Z.ltb_spec a 0); [|lia]. by destruct (Z.ltb_spec b 0); [|lia].
  - intros va vb a b Ha Hb Fa Fb. split; [|split].
    + unfold normalizeNumericField. rewrite Ha, Hb. simpl.
      by apply Sprintf_0d_compare.
    + intros Ra Rb. unfold maxValue in *.
      rewrite !int64_small by lia. unfold keyOrder.
      destruct (Z.ltb_spec (2 ^ 31 - 1 - a) 0); [lia|]. simpl.
      destruct (Z.compare_spec (2 ^ 31 - 1 - a) (2 ^ 31 - 1 - b)); symmetry;
        [apply Z.compare_eq_iff|apply Z.compare_lt_iff|apply Z.compare_gt_iff]; lia.
    + intros Ra Rb. unfold maxValue in *.
      rewrite !int64_small by lia. unfold keyOrder.
      destruct (Z.ltb_spec (2 ^ 31 - 1 - a) 0); [|lia].
      destruct (Z.ltb_spec (2 ^ 31 - 1 - b) 0); [|lia]. simpl.
      destruct (Z.compare_spec (2 ^ 31 - 1 - b) (2 ^ 31 - 1 - a)); symmetry;
        [apply Z.compare_eq_iff|apply Z.compare_lt_iff|apply Z.compare_gt_iff]; lia.
  - reflexivity.
Qed.

Lemma sort_keys_order_witness :
  Atoi "7" = Some 7 ∧ Atoi "12" = Some 12 ∧
  Atoi "-7" = Some (-7) ∧ Atoi "-12" = Some (-12) ∧
  fits 10 7 ∧ fits 10 12 ∧ fits 10 (-7) ∧ fits 10 (-12) ∧
  normalizeNumericField "7" 10 "asc" = "0000000007" ∧
  normalizeNumericField "-12" 10 "asc" = "-000000012" ∧
  String.compare (normalizeNumericField "7" 10 "asc")
                 (normalizeNumericField "12" 10 "asc") = Lt ∧
  String.compare (normalizeNumericField "-7" 10 "asc")
                 (normalizeNumericField "-12" 10 "asc") = Lt ∧
  String.compare (normalizeNumericField "7" 10 "desc")
                 (normalizeNumericField "12" 10 "desc") = Gt ∧
  String.compare (normalizeStringField "7" "desc") (normalizeStringField "12" "desc")
    = String.compare "7" "12".
Proof.
  assert (Ha : Atoi "7" = Some 7) by reflexivity.
  assert (Hb : Atoi "12" = Some 12) by reflexivity.
  assert (Hc : Atoi "-7" = Some (-7)) by reflexivity.
  assert (Hd : Atoi "-12" = Some (-12)) by reflexivity.
  assert (Fa : fits 10 7) by (left; simpl; lia).
  assert (Fb : fits 10 12) by (left; simpl; lia).
  assert (Fc : fits 10 (-7)) by (right; simpl; lia).
  assert (Fd : fits 10 (-12)) by (right; simpl; lia).
  assert (Ga : fits 10 (int64 (maxValue - 7))).
  { change (int64 (maxValue - 7)) with 2147483640. left. simpl. lia. }
  assert (Gb : fits 10 (int64 (maxValue - 12))).
  { change (int64 (maxValue - 12)) with 2147483635. left. simpl. lia. }
  destruct (sort_keys_order 10) as (Hasc & Hdesc & Hstr).
  destruct (Hasc "7" "12" 7 12 "asc" Ha Hb ltac:(discriminate) Fa Fb) as (H1 & _).
  destruct (Hasc "-7" "-12" (-7) (-12) "asc" Hc Hd ltac:(discriminate) Fc Fd)
    as (H2 & _).
  destruct (Hdesc "7" "12" 7 12 Ha Hb Ga Gb) as (H3 & _).
  do 8 (split; [done|]). split; [reflexivity|]. split; [reflexivity|].
  split; [exact H1|]. split; [exact H2|]. split; [exact H3|]. apply Hstr.
Defined.

End SorterFacts.

(** ** The request fingerprint *)

Module FingerprintFacts.
Import Fingerprint.

Lemma append_assoc (a b c : string) : (a +:+ b) +:+ c = a +:+ (b +:+ c).
Proof.
  induction a as [|x a IH]; [done|].
  change (String x ((a +:+ b) +:+ c) = String x (a +:+ (b +:+ c))). by f_equal.
Qed.

Lemma hex_length src :
  String.length (hex_EncodeToString src) = (2 * length src)%nat.
Proof. induction src as [|v src IH]; simpl; [done|]. rewrite IH. lia. Qed.

(** X27.  What the fingerprint depends on.  When the request carries an
    [X-Forwarded-For] header the remote address plays no part; with a
    32-byte digest the fingerprint is 64 characters long; and since the
    four parts are joined with a bar that they may hold themselves,
    requests that differ in where a bar falls between [User-Agent] and
    [Accept] share their fingerprint. *)
Theorem GenerateFingerprint_inputs (lib : Lib) (r : Request) :
  (∀ r', Header_Get r' = Header_Get r → Header_Get r "X-Forwarded-For" ≠ "" →
         GenerateFingerprint lib r' = GenerateFingerprint lib r) ∧
  ((∀ data, length (sha256_Sum256 lib data) = 32%nat) →
   String.length (GenerateFingerprint lib r) = 64%nat) ∧
  (∀ remoteAddr xff a b c acceptLang,
     GenerateFingerprint lib (requestOf remoteAddr xff (a +:+ "|" +:+ b) c acceptLang)
     = GenerateFingerprint lib (requestOf remoteAddr xff a (b +:+ "|" +:+ c) acceptLang)).
Proof.
  split; [|split].
  - intros r' Hh Hx. unfold GenerateFingerprint. rewrite Hh.
    by destruct (String.eqb_spec (Header_Get r "X-Forwarded-For") "").
  - intros Hlen. unfold GenerateFingerprint. by rewrite hex_length, Hlen.
  - intros remoteAddr xff a b c acceptLang. unfold GenerateFingerprint.
    cbn [requestOf Header_Get RemoteAddr String.eqb Ascii.eqb Bool.eqb].
    unfold fingerprintData. do 2 f_equal. f_equal.
    by rewrite !append_assoc.
Qed.

End FingerprintFacts.
